(** * Cycle scanner: wavelet power spectrum, post-processing and peak detection

    Shallow embedding of the three C++ programs

      - [cycles-detector/algorithms/scanner_clean.cpp]
      - [cycles-detector/algorithms/scanner_clean/generate_weekly_scanners.cpp]
      - [cycles-detector/algorithms/scanner_clean/simple_heatmap_fixed.cpp]

    Conventions of the embedding.

    - [double] is IEEE-754 binary64, i.e. Rocq's primitive [float]; [+ - * /]
      and [sqrt] are the correctly rounded operations, comparisons are the
      IEEE ones (every comparison with a NaN is false).
    - The C library functions the programs call ([exp], [log] on doubles,
      [std::exp] and [std::abs] on [complex<double>]) are not part of the
      repository; they are the fields of a record [libm] that every function
      calling them takes as a parameter.
    - [int] values are integers in [Z]; [/] on [int] is truncating division
      [Z.quot].  Signed overflow is undefined in C++; all [int] intermediates
      of [compute_power] are bounded by twice the window length
      ([compute_power_int_range]).
    - [size_t] is a 64-bit unsigned integer: a subtraction whose result would
      be negative wraps around by [2^64] ([size_sub], [size_add_int]).
    - Vectors have fewer than [2^31] elements (the programs keep every size
      in an [int]), so the conversions [size_t -> int] keep the value.
    - [vector<T>] is [list T]; [v[i]] outside the bounds is undefined
      behaviour, which the [outcome] type makes explicit. *)

From Stdlib Require Import ZArith Lia Floats Reals Lra Permutation Sorted.
From stdpp Require Import base list list_numbers sorting.

Open Scope Z_scope.

(** ** Outcomes of code that may read out of bounds *)

Inductive outcome (A : Type) : Type :=
| Done (a : A)     (* the code runs to completion and yields [a] *)
| Undefined        (* undefined behaviour: out-of-bounds read, [*end()] *)
| OutOfFuel.       (* the bound on loop iterations of the model was hit *)

Arguments Done {A} a.
Arguments Undefined {A}.
Arguments OutOfFuel {A}.

#[global] Instance outcome_ret : MRet outcome := fun A a => Done a.

#[global] Instance outcome_bind : MBind outcome := fun A B k o =>
  match o with
  | Done a => k a
  | Undefined => Undefined
  | OutOfFuel => OutOfFuel
  end.

(** [v[i]] for a signed or unsigned index already reduced to an integer. *)
Definition vec_get {A : Type} (v : list A) (i : Z) : outcome A :=
  if i <? 0 then Undefined
  else match v !! Z.to_nat i with
       | Some a => Done a
       | None => Undefined
       end.

(** ** Machine integers *)

Definition size_t_modulus : Z := 2 ^ 64.

(** [a - b] on [size_t], for operands below [2^64]: a negative difference
    wraps around. *)
Definition size_sub (a b : Z) : Z :=
  if a <? b then a - b + size_t_modulus else a - b.

(** [i + j] for a [size_t] [i] and an [int] [j] (which is converted to
    [size_t]), for [i + j < 2^64]. *)
Definition size_add_int (i j : Z) : Z :=
  if i + j <? 0 then i + j + size_t_modulus else i + j.

Definition vec_size {A : Type} (v : list A) : Z := Z.of_nat (length v).

(** ** Doubles *)

Module D.

(** Conversion [int -> double]; exact for [|z| < 2^53]. *)
Definition of_int (z : Z) : float :=
  if z <? 0 then PrimFloat.opp (of_uint63 (Uint63.of_Z (- z)))
  else of_uint63 (Uint63.of_Z z).

(** [a > b] on doubles. *)
Definition gtb (a b : float) : bool := PrimFloat.ltb b a.

(** [M_PI] of <cmath>: 3.14159265358979323846 *)
Definition M_PI : float := 0x1.921fb54442d18p+1%float.

(** The literal [0.05]. *)
Definition c0_05 : float := 0x1.999999999999ap-5%float.

(** The literal [0.3]. *)
Definition c0_3 : float := 0x1.3333333333333p-2%float.

End D.

#[global] Instance float_inhabited : Inhabited float := populate 0%float.

(** ** The C library *)

Definition complex : Type := float * float.

Record libm : Type := {
m_exp : float -> float;          (* exp(double) *)
m_log : float -> float;          (* log(double) *)
m_cexp : complex -> complex;     (* std::exp(complex<double>) *)
m_cabs : complex -> float        (* std::abs(complex<double>) *)
}.

(** ** complex<double> arithmetic used by the programs *)

Module C.
Open Scope float_scope.

Definition zero : complex := (0, 0).

(** [x * z] and [z * x] for a double [x]. *)
Definition scale (x : float) (z : complex) : complex := (fst z * x, snd z * x).

(** [z /= x] *)
Definition div (z : complex) (x : float) : complex := (fst z / x, snd z / x).

Definition conj (z : complex) : complex := (fst z, - snd z).

Definition add (a b : complex) : complex := (fst a + fst b, snd a + snd b).

End C.

(** ** create_high_q_morlet and compute_power *)

Section Power.
Context (M : libm).
Open Scope float_scope.

Definition create_high_q_morlet (freq : float) (len : Z) : list complex :=
  let Q := 15 + 50 * freq in
  let sigma := Q / (2 * D.M_PI * freq) in
  let wavelet :=
    map (fun i : Z =>
           let t := D.of_int i - D.of_int len / 2 in
           let envelope := m_exp M (- t * t / (2 * sigma * sigma)) in
           let carrier := m_cexp M (0, 2 * D.M_PI * freq * t) in
           C.scale envelope carrier)
        (seqZ 0 len) in
  let norm :=
    PrimFloat.sqrt
      (fold_left (fun norm w => norm + m_cabs M w * m_cabs M w) wavelet 0) in
  map (fun w => C.div w norm) wavelet.

(** The body of the scan loop: the inner product of the slice centred at
    [center] with the conjugated kernel. *)
Definition inner_product (data : list float) (wavelet : list complex)
    (n wlen center : Z) : complex :=
  fold_left
    (fun sum i =>
       let idx := (center - wlen ÷ 2 + i)%Z in
       if (0 <=? idx)%Z && (idx <? n)%Z
       then C.add sum (C.scale (data !!! Z.to_nat idx)
                               (C.conj (wavelet !!! Z.to_nat i)))
       else sum)
    (seqZ 0 wlen) C.zero.

(** [for (center = wlen/2; center <= n - wlen/2; center += step)] with the
    accumulators [total_power] and [count]. *)
Fixpoint scan_loop (data : list float) (wavelet : list complex)
    (n wlen step : Z) (fuel : nat) (center : Z) (total_power : float)
    (count : Z) : float * Z :=
  match fuel with
  | O => (total_power, count)
  | S fuel' =>
      if (center <=? n - wlen ÷ 2)%Z then
        let sum := inner_product data wavelet n wlen center in
        scan_loop data wavelet n wlen step fuel' (center + step)%Z
                  (total_power + m_cabs M sum * m_cabs M sum) (count + 1)%Z
      else (total_power, count)
  end.

(** The state [(total_power, count)] of [compute_power] after its scan
    loop, for [wavelength <= n/2]. *)
Definition power_scan (data : list float) (wavelength : Z) : float * Z :=
  let n := vec_size data in
  let freq := 1 / D.of_int wavelength in
  let cycles := Z.min 8 (Z.max 4 (n ÷ wavelength)) in
  let wlen := Z.min n (wavelength * cycles) in
  let wavelet := create_high_q_morlet freq wlen in
  let step := Z.max 1 (wavelength ÷ 8) in
  scan_loop data wavelet n wlen step (S (Z.to_nat n)) (wlen ÷ 2)%Z 0 0%Z.

Definition compute_power (data : list float) (wavelength : Z) : float :=
  let n := vec_size data in
  if (wavelength >? n ÷ 2)%Z then 0
  else
    let '(total_power, count) := power_scan data wavelength in
    if (count >? 0)%Z then PrimFloat.sqrt (total_power / D.of_int count)
    else 0.

End Power.

(** ** std::sort

    [std::sort] belongs to the C++ library.  Its contract ([alg.sort]) is
    [post]: the result is a permutation of the input in which no element is
    ordered before an earlier one; the relative order of equivalent elements
    is left open.  [insertion_sort] is one run that meets the contract when
    the comparison is a strict weak order. *)

Module StdSort.
Section Sort.
Context {A : Type} (comp : A -> A -> bool).

Definition sorted_by (l : list A) : Prop :=
  forall (i j : nat) (x y : A),
    (i < j)%nat -> l !! i = Some x -> l !! j = Some y -> comp y x = false.

Definition post (l out : list A) : Prop :=
  Permutation out l /\ sorted_by out.

Fixpoint insert (x : A) (l : list A) : list A :=
  match l with
  | [] => [x]
  | y :: l' => if comp x y then x :: l else y :: insert x l'
  end.

Definition insertion_sort (l : list A) : list A :=
  fold_left (fun acc x => insert x acc) l [].

End Sort.
End StdSort.

(** ** std::sort on the short vectors of the median filters

    The median loops sort a vector of doubles with [<], which is not a
    strict weak order when a NaN is present; what the vector holds
    afterwards is then decided by the library.  The model follows libstdc++
    (the library of g++): on a range of at most 16 elements its [std::sort]
    skips [__introsort_loop] and runs [__insertion_sort].  Each element
    [val] in turn is moved in front of the range when [val < *first];
    otherwise [__unguarded_linear_insert] shifts it backwards past every
    element it is less than, stopping at the first one it is not less than.
    The [values] vectors of the median loops with half-window 3 hold at most
    seven elements.  On values without NaN the result is the stable
    ascending arrangement, which every implementation of [std::sort] returns
    up to the order of [+0] and [-0]. *)

Module Libstdcxx.
Section Sort.
Context {A : Type} (comp : A -> A -> bool).

(** [__unguarded_linear_insert]: [before] holds the elements in front of
    [val], the nearest first; so does the result, with [val] in its place. *)
Fixpoint unguarded_linear_insert (val : A) (before : list A) : list A :=
  match before with
  | [] => [val]
  | next :: before' =>
      if comp val next then next :: unguarded_linear_insert val before'
      else val :: before
  end.

(** One iteration of the loop of [__insertion_sort]: [sorted] is the range
    in front of [val]. *)
Definition insertion_step (sorted : list A) (val : A) : list A :=
  match sorted with
  | [] => [val]
  | first :: _ =>
      if comp val first then val :: sorted
      else reverse (unguarded_linear_insert val (reverse sorted))
  end.

Definition insertion_sort (l : list A) : list A :=
  fold_left insertion_step l [].

End Sort.
End Libstdcxx.

(** [sort(values.begin(), values.end())] on a vector of at most 16 doubles. *)
Definition sort_doubles (values : list float) : list float :=
  Libstdcxx.insertion_sort PrimFloat.ltb values.

(** [x] may stand in front of [y] in a sorted range: [y] is not ordered
    before [x]. *)
Definition may_precede {A : Type} (comp : A -> A -> bool) (x y : A) : Prop :=
  comp y x = false.

(** ** Spectrum post-processing of scanner_clean.cpp / simple_heatmap_fixed.cpp *)

Fixpoint ofold {A B : Type} (f : A -> B -> outcome A) (l : list B) (a : A)
    : outcome A :=
  match l with
  | [] => Done a
  | b :: l' => a' ← f a b; ofold f l' a'
  end.

(** A loop that fills a vector, one element per iteration. *)
Fixpoint omap {A B : Type} (f : A -> outcome B) (l : list A)
    : outcome (list B) :=
  match l with
  | [] => Done []
  | a :: l' => b ← f a; bs ← omap f l'; Done (b :: bs)
  end.

Section PostProcess.
Context (M : libm).
Open Scope float_scope.

Definition smooth_spectrum (spectrum : list float) (window : Z) : list float :=
  let n := vec_size spectrum in
  map (fun i : Z =>
         let '(sum, weight) :=
           fold_left
             (fun '(sum, weight) j =>
                let idx := (i + j)%Z in
                if (0 <=? idx)%Z && (idx <? n)%Z then
                  let sigma := D.of_int window / 3 in
                  let w := m_exp M (-0.5 * D.of_int (j * j) / (sigma * sigma)) in
                  (sum + spectrum !!! Z.to_nat idx * w, weight + w)
                else (sum, weight))
             (seqZ (- window) (window + window + 1)) (0, 0) in
         sum / weight)
      (seqZ 0 n).

(** The [values] vector of [median_filter] at position [i]. *)
Definition median_values (spectrum : list float) (window i : Z) : list float :=
  let n := vec_size spectrum in
  fold_left
    (fun values j =>
       let idx := (i + j)%Z in
       if (0 <=? idx)%Z && (idx <? n)%Z
       then values ++ [spectrum !!! Z.to_nat idx]
       else values)
    (seqZ (- window) (window + window + 1)) [].

Definition median_filter (spectrum : list float) (window : Z) : list float :=
  let n := vec_size spectrum in
  map (fun i : Z =>
         let values := sort_doubles (median_values spectrum window i) in
         values !!! (length values / 2)%nat)
      (seqZ 0 n).

Definition enhance_peaks (spectrum : list float) (factor : float) : list float :=
  let n := vec_size spectrum in
  let mean := fold_left PrimFloat.add spectrum 0 / D.of_int n in
  map (fun s => if D.gtb s mean then mean + (s - mean) * factor else s)
      spectrum.

(** The inner [j] loop of the adaptive smoothing and its quotient
    [sum / weight]. *)
Definition local_average (spectrum : list float) (i : Z) : outcome float :=
  sw ← ofold
         (fun '(sum, weight) j =>
            s ← vec_get spectrum (size_add_int i j);
            let w := m_exp M (-0.5 * D.of_int j * D.of_int j / 4) in
            Done (sum + s * w, weight + w))
         (seqZ (-5) 11) (0, 0);
  Done (fst sw / snd sw).

(** [for (size_t i = 5; i < spectrum.size() - 5; i++)] of one pass. *)
Fixpoint adaptive_loop (spectrum : list float) (bound : Z) (fuel : nat)
    (i : Z) (adaptive_smooth : list float) : outcome (list float) :=
  match fuel with
  | O => OutOfFuel
  | S fuel' =>
      if (i <? bound)%Z then
        si ← vec_get spectrum i;
        if PrimFloat.ltb si D.c0_3 then
          v ← local_average spectrum i;
          adaptive_loop spectrum bound fuel' (i + 1)%Z
                        (<[Z.to_nat i := v]> adaptive_smooth)
        else adaptive_loop spectrum bound fuel' (i + 1)%Z adaptive_smooth
      else Done adaptive_smooth
  end.

Definition adaptive_pass (spectrum : list float) : outcome (list float) :=
  adaptive_loop spectrum (size_sub (vec_size spectrum) 5)
                (S (length spectrum)) 5%Z spectrum.

(** [for (int pass = 0; pass < 2; pass++)] *)
Definition adaptive_smoothing (spectrum : list float) : outcome (list float) :=
  spectrum ← adaptive_pass spectrum; adaptive_pass spectrum.

End PostProcess.

(** [*max_element(v.begin(), v.end())] *)
Definition max_element (v : list float) : outcome float :=
  match v with
  | [] => Undefined
  | first :: rest =>
      Done (fold_left
              (fun result next => if PrimFloat.ltb result next then next else result)
              rest first)
  end.

(** Normalisation of scanner_clean.cpp:
    [for (auto& s : spectrum) s /= max_val;] *)
Definition normalize_scanner_clean (spectrum : list float) : outcome (list float) :=
  max_val ← max_element spectrum;
  Done (map (fun s => PrimFloat.div s max_val) spectrum).

(** Normalisation of generate_weekly_scanners.cpp and simple_heatmap_fixed.cpp:
    [if (max_val > 0) for (auto& s : spectrum) s /= max_val;] *)
Definition normalize_guarded (spectrum : list float) : outcome (list float) :=
  max_val ← max_element spectrum;
  Done (if D.gtb max_val 0
        then map (fun s => PrimFloat.div s max_val) spectrum
        else spectrum).

(** ** Peak detection *)

Definition peak : Type := Z * float.

(** The inner loop [for (int j = -10; j <= 10; j++)] with its [break]. *)
Fixpoint is_peak_loop (spectrum : list float) (i : Z) (js : list Z)
    : outcome bool :=
  match js with
  | [] => Done true
  | j :: js' =>
      if negb (j =? 0) then
        a ← vec_get spectrum (size_add_int i j);
        b ← vec_get spectrum i;
        if D.gtb a b then Done false else is_peak_loop spectrum i js'
      else is_peak_loop spectrum i js'
  end.

(** [for (size_t i = 10; i < spectrum.size() - 10; i++)] *)
Fixpoint find_peaks_loop (spectrum : list float) (wavelengths : list Z)
    (bound : Z) (fuel : nat) (i : Z) (peaks : list peak)
    : outcome (list peak) :=
  match fuel with
  | O => OutOfFuel
  | S fuel' =>
      if i <? bound then
        is_peak ← is_peak_loop spectrum i (seqZ (-10) 21);
        peaks' ← (if is_peak : bool then
                    si ← vec_get spectrum i;
                    if D.gtb si D.c0_05 then
                      wl ← vec_get wavelengths i;
                      Done (peaks ++ [(wl, si)])
                    else Done peaks
                  else Done peaks);
        find_peaks_loop spectrum wavelengths bound fuel' (i + 1) peaks'
      else Done peaks
  end.

(** The accepted peaks in scan order. *)
Definition find_peaks (spectrum : list float) (wavelengths : list Z)
    : outcome (list peak) :=
  find_peaks_loop spectrum wavelengths (size_sub (vec_size spectrum) 10)
                  (S (length spectrum)) 10 [].

(** The comparator [a.second > b.second] of the final sort. *)
Definition by_power (a b : peak) : bool := D.gtb (snd a) (snd b).

(** [out] is a possible content of [peaks] after
    [sort(peaks.begin(), peaks.end(), by_power)]. *)
Definition peak_detector (spectrum : list float) (wavelengths : list Z)
    (out : list peak) : Prop :=
  exists peaks, find_peaks spectrum wavelengths = Done peaks
                /\ StdSort.post by_power peaks out.

(** ** process_spectrum of generate_weekly_scanners.cpp *)

Section WeeklyProcess.
Context (M : libm).

(** The seven values [spectrum[i + j]], [j = -window .. window]. *)
Definition weekly_vals (spectrum : list float) (window i : Z)
    : outcome (list float) :=
  ofold (fun vals j => s ← vec_get spectrum (size_add_int i j);
                       Done (vals ++ [s]))
        (seqZ (- window) (window + window + 1)) [].

(** [for (size_t i = window; i < spectrum.size() - window; i++)] *)
Fixpoint weekly_median_loop (spectrum : list float) (window bound : Z)
    (fuel : nat) (i : Z) (filtered : list float) : outcome (list float) :=
  match fuel with
  | O => OutOfFuel
  | S fuel' =>
      if i <? bound then
        vals ← weekly_vals spectrum window i;
        let vals := sort_doubles vals in
        weekly_median_loop spectrum window bound fuel' (i + 1)
          (<[Z.to_nat i := vals !!! (length vals / 2)%nat]> filtered)
      else Done filtered
  end.

Definition weekly_median (spectrum : list float) : outcome (list float) :=
  let window := 3 in
  weekly_median_loop spectrum window (size_sub (vec_size spectrum) window)
                     (S (length spectrum)) window spectrum.

(** The smoothing, enhancement and second smoothing loops of
    [process_spectrum] repeat the bodies of [smooth_spectrum] (windows 10
    and 5) and [enhance_peaks] (factor 2.0). *)
Definition process_spectrum (spectrum : list float) : outcome (list float) :=
  filtered ← weekly_median spectrum;
  let smoothed := smooth_spectrum M filtered 10 in
  let enhanced := enhance_peaks smoothed 2 in
  let final := smooth_spectrum M enhanced 5 in
  normalize_guarded final.

End WeeklyProcess.

(** ** Log transform and linear detrending

    The three [main] functions share this block.  It is written once over the
    arithmetic it uses, so that it can be read both on doubles (the program)
    and on real numbers (the regression it implements).

    [detrend_read] is the block as the programs run it: every
    [prices[start + i]] is a read of the vector, undefined outside its
    bounds.  [detrend] is the arithmetic of the block on the values
    [log_price] of a window; the two agree whenever the window lies in the
    vector ([detrend_read_in_range]), and [detrend_read] is undefined
    otherwise ([detrend_read_out_of_range]). *)

Section Detrend.
Context {T : Type}.
Context (zero : T) (add sub mul div : T -> T -> T) (of_int : Z -> T)
        (log : T -> T).

Local Infix "+" := add.
Local Infix "-" := sub.
Local Infix "*" := mul.
Local Infix "/" := div.

(** [log(prices[start + i])] for a position [start + i] of the vector. *)
Definition log_price (prices : list T) (start i : Z) : T :=
  log (default zero (prices !! Z.to_nat (start + i)%Z)).

(** [(sum_x, sum_y, sum_xx, sum_xy)] after the first loop. *)
Definition regression_sums (prices : list T) (start window : Z)
    : T * T * T * T :=
  fold_left
    (fun '(sum_x, sum_y, sum_xx, sum_xy) i =>
       let y := log_price prices start i in
       (sum_x + of_int i, sum_y + y, sum_xx + of_int (i * i)%Z,
        sum_xy + of_int i * y))
    (seqZ 0 window) (zero, zero, zero, zero).

Definition regression_line (prices : list T) (start window : Z) : T * T :=
  let '(sum_x, sum_y, sum_xx, sum_xy) := regression_sums prices start window in
  let slope := (of_int window * sum_xy - sum_x * sum_y)
               / (of_int window * sum_xx - sum_x * sum_x) in
  let intercept := (sum_y - slope * sum_x) / of_int window in
  (slope, intercept).

Definition detrend (prices : list T) (start window : Z) : list T :=
  let '(slope, intercept) := regression_line prices start window in
  map (fun i : Z => log_price prices start i - (intercept + slope * of_int i))
      (seqZ 0 window).

(** The first loop, reading the vector. *)
Definition regression_sums_read (prices : list T) (start window : Z)
    : outcome (T * T * T * T) :=
  ofold
    (fun '(sum_x, sum_y, sum_xx, sum_xy) i =>
       p ← vec_get prices (start + i)%Z;
       let y := log p in
       Done (sum_x + of_int i, sum_y + y, sum_xx + of_int (i * i)%Z,
             sum_xy + of_int i * y))
    (seqZ 0 window) (zero, zero, zero, zero).

(** The whole block, reading the vector in both loops. *)
Definition detrend_read (prices : list T) (start window : Z)
    : outcome (list T) :=
  sums ← regression_sums_read prices start window;
  let '(sum_x, sum_y, sum_xx, sum_xy) := sums in
  let slope := (of_int window * sum_xy - sum_x * sum_y)
               / (of_int window * sum_xx - sum_x * sum_x) in
  let intercept := (sum_y - slope * sum_x) / of_int window in
  omap (fun i : Z =>
          p ← vec_get prices (start + i)%Z;
          Done (log p - (intercept + slope * of_int i)))
       (seqZ 0 window).

End Detrend.

(** The block on doubles. *)
Definition detrend_double (M : libm) : list float -> Z -> Z -> list float :=
  detrend 0%float PrimFloat.add PrimFloat.sub PrimFloat.mul PrimFloat.div
          D.of_int (m_log M).

Definition detrend_read_double (M : libm)
    : list float -> Z -> Z -> outcome (list float) :=
  detrend_read 0%float PrimFloat.add PrimFloat.sub PrimFloat.mul PrimFloat.div
               D.of_int (m_log M).

(** The block in exact real arithmetic. *)
Definition detrend_real : list R -> Z -> Z -> list R :=
  detrend 0%R Rplus Rminus Rmult Rdiv IZR ln.

(** ** The three programs *)

Section Programs.
Context (M : libm).

(** [for (int wl = lo; wl <= hi; wl++) spectrum.push_back(compute_power(data, wl))] *)
Definition scan_band (data : list float) (lo hi : Z) : list float :=
  map (fun wl => compute_power M data wl) (seqZ lo (hi - lo + 1)).

(** The vector [wavelengths] filled by the same loop. *)
Definition band (lo hi : Z) : list Z := seqZ lo (hi - lo + 1).

(** scanner_clean.cpp: the post-processing of the raw spectrum. *)
Definition scanner_clean_process (spectrum : list float)
    : outcome (list float) :=
  let spectrum := median_filter spectrum 3 in
  let spectrum := smooth_spectrum M spectrum 10 in
  let spectrum := enhance_peaks spectrum 2 in
  let spectrum := smooth_spectrum M spectrum 5 in
  spectrum ← adaptive_smoothing M spectrum;
  normalize_scanner_clean spectrum.

(** scanner_clean.cpp after the detrending: the processed spectrum and the
    peaks in scan order (before the final sort). *)
Definition scanner_clean_analysis (data : list float)
    : outcome (list float * list peak) :=
  spectrum ← scanner_clean_process (scan_band data 30 1000);
  peaks ← find_peaks spectrum (band 30 1000);
  Done (spectrum, peaks).

(** scanner_clean.cpp: [window = min(2000, (int)prices.size())], the
    detrending of [prices[prices.size() - window + i]] and the analysis. *)
Definition scanner_clean (prices : list float)
    : outcome (list float * list peak) :=
  let window := Z.min 2000 (vec_size prices) in
  data ← detrend_read_double M prices (vec_size prices - window) window;
  scanner_clean_analysis data.

(** generate_weekly_scanners.cpp: the body of the [week] loop after the
    detrending. *)
Definition weekly_analysis (data : list float) : outcome (list peak) :=
  spectrum ← process_spectrum M (scan_band data 100 800);
  find_peaks spectrum (band 100 800).

(** generate_weekly_scanners.cpp: the body of the [week] loop after the
    [start_idx < 0] test; its value is the vector pushed on [all_peaks]. *)
Definition weekly_window (prices : list float) (window_size start_idx : Z)
    : outcome (list peak) :=
  data ← detrend_read_double M prices start_idx window_size;
  weekly_analysis data.

(** [for (int week = 0; week <= total_weeks; week++)]; the value is
    [all_peaks]. *)
Definition weekly_scanners (prices : list float) (window_size total_weeks : Z)
    : outcome (list (list peak)) :=
  ofold
    (fun all_peaks week =>
       let rollback := week * 5 in
       let end_idx := vec_size prices - rollback in
       let start_idx := end_idx - window_size in
       if start_idx <? 0 then Done all_peaks
       else
         peaks ← weekly_window prices window_size start_idx;
         Done (all_peaks ++ [peaks]))
    (seqZ 0 (total_weeks + 1)) [].

Definition generate_weekly_scanners (prices : list float)
    : outcome (list (list peak)) :=
  weekly_scanners prices 4000 260.

(** simple_heatmap_fixed.cpp: the post-processing of the raw spectrum, that
    of scanner_clean.cpp with the guarded normalisation. *)
Definition heatmap_process (spectrum : list float) : outcome (list float) :=
  let spectrum := median_filter spectrum 3 in
  let spectrum := smooth_spectrum M spectrum 10 in
  let spectrum := enhance_peaks spectrum 2 in
  let spectrum := smooth_spectrum M spectrum 5 in
  spectrum ← adaptive_smoothing M spectrum;
  normalize_guarded spectrum.

(** simple_heatmap_fixed.cpp: the body of the [week] loop after the
    [start_idx < 0] test; its value is the vector pushed on [all_spectra]. *)
Definition heatmap_window (prices : list float) (window_size start_idx : Z)
    : outcome (list float) :=
  data ← detrend_read_double M prices start_idx window_size;
  heatmap_process (scan_band data 100 800).

(** [vector<double>(701, 0)] *)
Definition heatmap_placeholder : list float := replicate 701 0%float.

Definition heatmap_spectra (prices : list float) (window_size total_weeks : Z)
    : outcome (list (list float)) :=
  ofold
    (fun all_spectra week =>
       let rollback := week * 5 in
       let end_idx := vec_size prices - rollback in
       let start_idx := end_idx - window_size in
       if start_idx <? 0 then Done (all_spectra ++ [heatmap_placeholder])
       else
         spectrum ← heatmap_window prices window_size start_idx;
         Done (all_spectra ++ [spectrum]))
    (seqZ 0 (total_weeks + 1)) [].

Definition simple_heatmap_fixed (prices : list float)
    : outcome (list (list float)) :=
  heatmap_spectra prices 4000 260.

End Programs.

(** ** A stand-in for the C library

    Used only to run the model on examples; every theorem below is proved
    for an arbitrary [libm]. *)

Definition libm_sample : libm :=
  {| m_exp := fun x => (1 + x + x * x / 2)%float;
     m_log := fun x => (x - 1)%float;
     m_cexp := fun z => (PrimFloat.sub 1 (snd z * snd z / 2), snd z)%float;
     m_cabs := fun z => PrimFloat.sqrt (fst z * fst z + snd z * snd z)%float |}.

(** ** The specification's wording of the kernel and the power estimator *)

Definition clamp (x lo hi : Z) : Z := Z.min hi (Z.max lo x).

(** The centers [first], [first + step], ... up to [last] inclusive. *)
Definition scan_centers (first last step : Z) : list Z :=
  map (fun k => first + k * step) (seqZ 0 ((last - first) `div` step + 1)).

(** Left-to-right accumulation in a double starting from [0]. *)
Definition sum_doubles (l : list float) : float := fold_left PrimFloat.add l 0%float.

Definition squared_magnitude (M : libm) (z : complex) : float :=
  (m_cabs M z * m_cabs M z)%float.

(** Division of every entry by the square root of the sum of the squared
    magnitudes. *)
Definition unit_energy (M : libm) (kernel : list complex) : list complex :=
  let energy := sum_doubles (map (squared_magnitude M) kernel) in
  map (fun w => C.div w (PrimFloat.sqrt energy)) kernel.

(** Section 4.1: frequency [f = 1/P], quality factor [Q = 15 + 50 f],
    [sigma = Q / (2 pi f)]; for [i] in [0, L) and [t = i - L/2] the value
    [exp(-t^2 / (2 sigma^2)) * exp(i 2 pi f t)]; normalised to unit energy. *)
Definition morlet_kernel (M : libm) (P L : Z) : list complex :=
  let f := (1 / D.of_int P)%float in
  let Q := (15 + 50 * f)%float in
  let sigma := (Q / (2 * D.M_PI * f))%float in
  unit_energy M
    (map (fun i : Z =>
            let t := (D.of_int i - D.of_int L / 2)%float in
            C.scale (m_exp M (- t * t / (2 * sigma * sigma))%float)
                    (m_cexp M (0, 2 * D.M_PI * f * t)%float))
         (seqZ 0 L)).

(** The local data slice of width [L] centred at [c]: the samples at the
    positions [c - L/2, ..., c - L/2 + L - 1] that the window holds. *)
Definition local_slice (data : list float) (c L : Z) : list float :=
  take (Z.to_nat L) (drop (Z.to_nat (c - L ÷ 2)) data).

(** The complex inner product of a slice against the conjugated kernel:
    the sum of [x_i * conj(w_i)] over the pairs of a sample and the kernel
    coefficient of the same rank. *)
Definition conjugate_inner_product (xs : list float) (kernel : list complex)
    : complex :=
  fold_left (fun sum xw => C.add sum (C.scale (fst xw) (C.conj (snd xw))))
            (zip xs kernel) C.zero.

(** Section 4.2: root of the mean squared magnitude of the inner products
    over the centers, zero when the period exceeds half the window. *)
Definition rms_power (M : libm) (data : list float) (P : Z) : float :=
  let N := vec_size data in
  if P >? N ÷ 2 then 0%float
  else
    let L := Z.min N (P * clamp (N ÷ P) 4 8) in
    let kernel := morlet_kernel M P L in
    let centers := scan_centers (L ÷ 2) (N - L ÷ 2) (Z.max 1 (P ÷ 8)) in
    let power c :=
      squared_magnitude M
        (conjugate_inner_product (local_slice data c L) kernel) in
    PrimFloat.sqrt (sum_doubles (map power centers)
                    / D.of_int (Z.of_nat (length centers)))%float.

(** ** The specification's wording of the peak detector *)

(** [p] is the entry of an index [i] with ten neighbours on each side, whose
    power exceeds 0.05 and is not exceeded by any entry within ten
    positions. *)
Definition accepted_peak (spectrum : list float) (wavelengths : list Z)
    (p : peak) : Prop :=
  exists i : Z,
    10 <= i /\ i + 10 < vec_size spectrum
    /\ wavelengths !! Z.to_nat i = Some (fst p)
    /\ spectrum !! Z.to_nat i = Some (snd p)
    /\ PrimFloat.ltb D.c0_05 (snd p) = true
    /\ forall j, -10 <= j <= 10 ->
         exists a, spectrum !! Z.to_nat (i + j) = Some a
                   /\ D.gtb a (snd p) = false.

(** The power never increases along the list. *)
Definition power_descending (out : list peak) : Prop :=
  forall (i j : nat) (p q : peak),
    (i < j)%nat -> out !! i = Some p -> out !! j = Some q ->
    PrimFloat.leb (snd q) (snd p) = true.

(** The power decreases along the list. *)
Definition power_strictly_descending (out : list peak) : Prop :=
  forall (i j : nat) (p q : peak),
    (i < j)%nat -> out !! i = Some p -> out !! j = Some q ->
    PrimFloat.ltb (snd q) (snd p) = true.

(** Peaks of equal power keep the relative order they have in [peaks]. *)
Definition ties_in_scan_order (peaks out : list peak) : Prop :=
  forall (i j : nat) (p q : peak),
    (i < j)%nat -> out !! i = Some p -> out !! j = Some q ->
    PrimFloat.eqb (snd p) (snd q) = true ->
    exists i' j' : nat,
      (i' < j')%nat /\ peaks !! i' = Some p /\ peaks !! j' = Some q.

(** ** Sample inputs *)

Definition sample_window : list float :=
  [0.5; -0.25; 0.125; 1; -1; 0.75; -0.5; 0.25; 0.5; -0.75]%float.

(** A window of nine samples: for the period 3 the kernel has the odd length
    9 and the centers are 4 and 5. *)
Definition odd_window : list float :=
  [0.5; -0.25; 0.125; 1; -1; 0.75; -0.5; 0.25; 0.5]%float.

(** One peak of power 1 at index 10. *)
Definition one_peak_spectrum : list float :=
  replicate 10 0%float ++ [1%float] ++ replicate 10 0%float.

(** A spectrum of 971 entries (the band 30..1000 of scanner_clean.cpp) with
    two peaks of equal power 1, at the indices 10 and 21. *)
Definition tie_spectrum : list float :=
  replicate 10 0%float ++ [1%float] ++ replicate 10 0%float
  ++ [1%float] ++ replicate 949 0%float.

(** The spectrum of a window without any power in the band 30..1000. *)
Definition zero_spectrum : list float := replicate 971 0%float.

(** ** The specification's wording of the adaptive smoothing *)

(** The Gaussian-weighted average of the entries [i-5 .. i+5] with
    [sigma = 2], i.e. weights [exp(-j^2 / (2 * 2^2))], accumulated from
    [j = -5] to [j = 5]. *)
Definition gaussian_average (M : libm) (spectrum : list float) (i : Z) : float :=
  let '(sum, weight) :=
    fold_left
      (fun '(sum, weight) j =>
         let w := m_exp M (-0.5 * D.of_int j * D.of_int j / 4)%float in
         (sum + spectrum !!! Z.to_nat (i + j) * w, weight + w)%float)
      (seqZ (-5) 11) (0%float, 0%float) in
  (sum / weight)%float.

(** The value one pass leaves at position [k], where the vector being
    written holds [x], when the loop runs over the indices [i .. bound-1]. *)
Definition adaptive_entry (M : libm) (spectrum : list float) (i bound : Z)
    (k : nat) (x : float) : float :=
  if (i <=? Z.of_nat k) && (Z.of_nat k <? bound)
     && PrimFloat.ltb (spectrum !!! k) D.c0_3
  then gaussian_average M spectrum (Z.of_nat k)
  else x.

(** A spectrum with a low interior entry (index 5) and a high one (index 6). *)
Definition low_high_spectrum : list float :=
  [0.5; 0.5; 0.5; 0.5; 0.5; 0.125; 0.75; 0.5; 0.5; 0.5; 0.5; 0.5]%float.

(** ** The specification's wording of the median filter *)

(** The entries of [spectrum] at the positions [lo .. hi-1] that exist. *)
Definition slice (spectrum : list float) (lo hi : Z) : list float :=
  let lo' := Z.max 0 lo in
  let hi' := Z.min (vec_size spectrum) hi in
  take (Z.to_nat (hi' - lo')) (drop (Z.to_nat lo') spectrum).

(** The in-bounds values among the entry [i] and its [w] neighbours on each
    side; positions outside the vector contribute nothing. *)
Definition inbounds_window (spectrum : list float) (i w : Z) : list float :=
  slice spectrum (i - w) (i + w + 1).

(** [m] is the median of [values]: the element in the middle (the upper one
    of the two middle elements when their number is even) of an ascending
    arrangement of the values.  Values with a NaN among several have no
    ascending arrangement and no median. *)
Definition ascending (l : list float) : Prop :=
  StronglySorted (fun x y => PrimFloat.leb x y = true) l.

Definition is_median (values : list float) (m : float) : Prop :=
  exists sorted,
    Permutation sorted values /\ ascending sorted
    /\ sorted !! (length values / 2)%nat = Some m.

Definition no_nan (l : list float) : Prop :=
  Forall (fun x => PrimFloat.is_nan x = false) l.

(** The element the two median loops take from the sorted vector:
    [values[values.size()/2]] after [sort]. *)
Definition upper_median (values : list float) : float :=
  let sorted := sort_doubles values in
  sorted !!! (length sorted / 2)%nat.

(** The value the loop of [weekly_median] over [i .. bound-1] leaves at
    position [k], where the vector being written holds [x]. *)
Definition weekly_entry (spectrum : list float) (i bound : Z) (k : nat)
    (x : float) : float :=
  if (i <=? Z.of_nat k) && (Z.of_nat k <? bound)
  then upper_median (inbounds_window spectrum (Z.of_nat k) 3)
  else x.

(** A spectrum of 701 entries (the band 100..800 of
    generate_weekly_scanners.cpp) with a spike in the first position. *)
Definition spike_spectrum : list float := 9%float :: replicate 700 1%float.

(** ** The specification's wording of the rolling analysis *)

(** The offsets [0 .. max_offset] in increasing order. *)
Definition offsets (max_offset : Z) : list Z := seqZ 0 (max_offset + 1).

(** Three prices: too short for any window of 4000 bars. *)
Definition short_prices : list float := [100; 101; 102]%float.

(** ** The specification's wording of the detrending invariant *)

(** Exact sum of a list of reals. *)
Definition sum_reals (l : list R) : R := fold_right Rplus 0%R l.

(** [f 0 + f 1 + ... + f (n-1)] *)
Fixpoint sumZ (f : Z -> R) (n : nat) : R :=
  match n with
  | O => 0%R
  | S k => (sumZ f k + f (Z.of_nat k))%R
  end.

(** [0 * l[0] + 1 * l[1] + ...] on doubles, accumulated from the left. *)
Definition sum_index_times (l : list float) : float :=
  fold_left PrimFloat.add
            (zip_with (fun i r => PrimFloat.mul (D.of_int i) r)
                      (seqZ 0 (vec_size l)) l)
            0%float.

(** A C library whose [log] returns the correctly rounded logarithm at the
    prices 1 and 2: [log(1) = 0] exactly, and [log(2)] is the double nearest
    to [ln 2 = 0.693147180559945309...].  The other functions are those of
    [libm_sample]; the detrending does not call them. *)
Definition libm_log12 : libm :=
  {| m_exp := m_exp libm_sample;
     m_log := fun x => if PrimFloat.eqb x 2 then 0x1.62e42fefa39efp-1%float
                       else 0%float;
     m_cexp := m_cexp libm_sample;
     m_cabs := m_cabs libm_sample |}.

(** ** Finite and zero complex numbers *)

Definition finite_complex (z : complex) : bool :=
  PrimFloat.is_finite (fst z) && PrimFloat.is_finite (snd z).

Definition zero_complex (z : complex) : bool :=
  PrimFloat.is_zero (fst z) && PrimFloat.is_zero (snd z).

(** ** The peak scan as a filter *)

(** The test the scan applies at index [i]: no entry within ten positions is
    strictly greater, and the entry exceeds 0.05. *)
Definition local_peak (spectrum : list float) (i : Z) : bool :=
  forallb (fun j => negb (D.gtb (spectrum !!! Z.to_nat (i + j))
                                (spectrum !!! Z.to_nat i)))
          (seqZ (-10) 21)
  && D.gtb (spectrum !!! Z.to_nat i) D.c0_05.

(** The pairs (period, power) of the indices [10 .. size-11] that pass the
    test, by increasing index. *)
Definition peaks_of (spectrum : list float) (wavelengths : list Z) : list peak :=
  map (fun i => (wavelengths !!! Z.to_nat i, spectrum !!! Z.to_nat i))
      (List.filter (local_peak spectrum) (seqZ 10 (vec_size spectrum - 20))).

(** Two adjacent entries of power 1, at the indices 10 and 11. *)
Definition plateau_spectrum : list float :=
  replicate 10 0%float ++ [1%float; 1%float] ++ replicate 10 0%float.

(** ** Reported calendar days *)

(** The literal [1.451]. *)
Definition c1_451 : float := 0x1.7374bc6a7ef9ep+0%float.

(** Conversion [double -> int]: the fractional part is discarded; the
    behaviour is undefined when the truncated value cannot be represented
    in a 32-bit [int] (infinities and NaN included). *)
Definition double_to_int (x : float) : outcome Z :=
  match Prim2SF x with
  | S754_zero _ => Done 0
  | S754_finite s m e =>
      let magnitude :=
        if 0 <=? e then Z.pos m * 2 ^ e else Z.pos m / 2 ^ (- e) in
      let value := if s then - magnitude else magnitude in
      if (- 2 ^ 31 <=? value) && (value <? 2 ^ 31) then Done value
      else Undefined
  | _ => Undefined
  end.

(** [int cal_days = wl * 1.451;] *)
Definition calendar_days (wl : Z) : outcome Z :=
  double_to_int (D.of_int wl * c1_451)%float.

(** ** Positive doubles *)

(** A positive number or [+infinity]. *)
Definition SFpositive (x : spec_float) : bool :=
  match x with
  | S754_finite false _ _ => true
  | S754_infinity false => true
  | _ => false
  end.

(** [+0], a positive number or [+infinity]. *)
Definition SFnonnegative (x : spec_float) : bool :=
  match x with
  | S754_zero false => true
  | _ => SFpositive x
  end.

(** ** The hypotheses on the C library for a zero window *)

(** The arguments at which the smoothing loops call [exp]: the Gaussian
    weights of [smooth_spectrum] (windows 10 and 5, [sigma = window / 3.0])
    and of the adaptive smoothing ([sigma = 2]). *)
Definition gaussian_argument (window j : Z) : float :=
  let sigma := (D.of_int window / 3)%float in
  (-0.5 * D.of_int (j * j) / (sigma * sigma))%float.

Definition adaptive_argument (j : Z) : float :=
  (-0.5 * D.of_int j * D.of_int j / 4)%float.

Definition smoothing_arguments : list float :=
  map (gaussian_argument 10) (seqZ (-10) 21)
  ++ map (gaussian_argument 5) (seqZ (-5) 11)
  ++ map adaptive_argument (seqZ (-5) 11).

(** [exp] returns a finite positive number at each of them. *)
Definition exp_positive (M : libm) : Prop :=
  Forall (fun x => PrimFloat.is_finite (m_exp M x) = true
                   /\ PrimFloat.ltb 0 (m_exp M x) = true)
         smoothing_arguments.

(** The kernels built for a window of [n] samples have finite entries. *)
Definition finite_kernels (M : libm) (n : Z) : Prop :=
  forall P, 1 <= P <= n ÷ 2 ->
    Forall (fun w => finite_complex w = true)
           (create_high_q_morlet M (1 / D.of_int P)%float
              (Z.min n (P * clamp (n ÷ P) 4 8))).

(** ** Values of the GNU C library

    The values glibc 2 returns on x86-64 for [log(97.5)] and at the
    arguments [compute_power] passes to [exp] and to the complex [exp] on a
    window of eight samples at the period 2.  Elsewhere the functions are
    those of [libm_sample]; its [std::abs] agrees with [hypot] at the
    arguments of that run. *)
Definition table_lookup {A : Type} (table : list (float * A)) (x : float)
    (other : A) : A :=
  match List.find (fun entry => PrimFloat.eqb (fst entry) x) table with
  | Some entry => snd entry
  | None => other
  end.

Definition glibc_exp : list (float * float) :=
  [(-0x1.94424d9457825p-5, 0x1.e758dba2b5b95p-1);
   (-0x1.c6ca9746e272ap-6, 0x1.f1fbb3af70101p-1);
   (-0x1.94424d9457825p-7, 0x1.f9b8e5d70ee4cp-1);
   (-0x1.94424d9457825p-9, 0x1.fe6c5d20c87f1p-1);
   (0, 1)]%float.

Definition glibc_log : list (float * float) :=
  [(97.5, 0x1.251c4d26022fap+2)]%float.

(** [exp(Complex(0, y))] by [y]. *)
Definition glibc_cexp : list (float * complex) :=
  [(-0x1.921fb54442d18p+3, (1, 0x1.1a62633145c07p-51));
   (-0x1.2d97c7f3321d2p+3, (-1, -0x1.a79394c9e8a0ap-52));
   (-0x1.921fb54442d18p+2, (1, 0x1.1a62633145c07p-52));
   (-0x1.921fb54442d18p+1, (-1, -0x1.1a62633145c07p-53));
   (0, (1, 0));
   (0x1.921fb54442d18p+1, (-1, 0x1.1a62633145c07p-53));
   (0x1.921fb54442d18p+2, (1, -0x1.1a62633145c07p-52));
   (0x1.2d97c7f3321d2p+3, (-1, 0x1.a79394c9e8a0ap-52))]%float.

Definition libm_glibc : libm :=
  {| m_exp := fun x => table_lookup glibc_exp x (m_exp libm_sample x);
     m_log := fun x => table_lookup glibc_log x (m_log libm_sample x);
     m_cexp := fun z => table_lookup glibc_cexp (snd z) (m_cexp libm_sample z);
     m_cabs := m_cabs libm_sample |}.

(** The window 2000 prices of 97.5 are detrended to. *)
Definition constant_window (n : nat) : list float := replicate n 0x1.3p-46%float.

(** * Properties *)

(** ** The scan loop of compute_power *)

Section PowerFacts.
Context (M : libm).

Lemma scan_centers_nil first last step :
    0 < step -> last < first -> scan_centers first last step = [].
  Proof.
    intros Hs Hl. unfold scan_centers.
    rewrite seqZ_nil; [reflexivity|].
    assert ((last - first) `div` step < 0) by (apply Z.div_lt_upper_bound; lia).
    lia.
  Qed.

Lemma scan_centers_cons first last step :
    0 < step -> first <= last ->
    scan_centers first last step
    = first :: scan_centers (first + step) last step.
  Proof.
    intros Hs Hl. unfold scan_centers.
    assert (0 <= (last - first) `div` step) by (apply Z.div_pos; lia).
    rewrite seqZ_cons by lia. cbn [map]. f_equal; [lia|].
    replace (Z.pred ((last - first) `div` step + 1))
      with ((last - (first + step)) `div` step + 1).
    2:{ replace (last - (first + step)) with ((last - first) + (-1) * step) by lia.
        rewrite Z.div_add by lia. lia. }
    rewrite <- (fmap_add_seqZ 1 0).
    change (Z.add 1 <$> ?l) with (map (Z.add 1) l).
    rewrite map_map. apply map_ext. intros k. lia.
  Qed.

Lemma elem_of_scan_centers first last step c :
    0 < step ->
    c ∈ scan_centers first last step
    <-> first <= c <= last /\ (c - first) `mod` step = 0.
  Proof.
    intros Hs. unfold scan_centers.
    change (map ?f ?l) with (f <$> l).
    rewrite list_elem_of_fmap. setoid_rewrite elem_of_seqZ. split.
    - intros (k & -> & Hk).
      assert (k <= (last - first) `div` step) by lia.
      assert (k * step <= last - first).
      { transitivity (step * ((last - first) `div` step)).
        - rewrite (Z.mul_comm step). apply Z.mul_le_mono_nonneg_r; lia.
        - apply Z.mul_div_le; lia. }
      split; [nia|].
      replace (first + k * step - first) with (k * step) by lia.
      apply Z.mod_mul; lia.
    - intros ([H1 H2] & Hm). exists ((c - first) `div` step).
      pose proof (Z.div_mod (c - first) step ltac:(lia)) as Hdm.
      rewrite Hm in Hdm. split; [lia|].
      split; [apply Z.div_pos; lia|].
      assert ((c - first) `div` step <= (last - first) `div` step)
        by (apply Z.div_le_mono; lia).
      lia.
  Qed.

Lemma length_scan_centers_le first last step :
    0 < step -> first <= last ->
    Z.of_nat (length (scan_centers first last step)) <= last - first + 1.
  Proof.
    intros Hs Hl. unfold scan_centers. rewrite length_map, length_seqZ.
    assert (0 <= (last - first) `div` step) by (apply Z.div_pos; lia).
    assert ((last - first) `div` step <= last - first).
    { apply Z.div_le_upper_bound; nia. }
    lia.
  Qed.

  (** With enough fuel the loop visits exactly [scan_centers]. *)
Lemma scan_loop_centers data wavelet n wlen step :
    0 < step ->
    forall fuel center total count,
      (length (scan_centers center (n - wlen ÷ 2) step) < fuel)%nat ->
      scan_loop M data wavelet n wlen step fuel center total count
      = (fold_left
           (fun t c =>
              let z := inner_product data wavelet n wlen c in
              (t + m_cabs M z * m_cabs M z)%float)
           (scan_centers center (n - wlen ÷ 2) step) total,
         count + Z.of_nat (length (scan_centers center (n - wlen ÷ 2) step))).
  Proof.
    intros Hs. induction fuel as [|fuel IH]; intros center total count Hf.
    - lia.
    - cbn [scan_loop]. destruct (Z.leb_spec center (n - wlen ÷ 2)) as [Hle|Hgt].
      + rewrite scan_centers_cons in * by lia. cbn [length] in Hf.
        rewrite IH by lia. cbn [fold_left length]. f_equal. lia.
      + rewrite scan_centers_nil by lia. cbn. f_equal. lia.
  Qed.

Lemma fold_left_add_map {A : Type} (f : A -> float) (l : list A) (t : float) :
    fold_left PrimFloat.add (map f l) t
    = fold_left (fun t c => (t + f c)%float) l t.
  Proof. revert t. induction l as [|a l IH]; intros t; cbn; [reflexivity|apply IH]. Qed.

  (** Integer facts about the kernel length, for [1 <= P <= N/2]. *)
Lemma kernel_length_bounds (N P : Z) :
    1 <= P -> P <= N ÷ 2 ->
    let L := Z.min N (P * Z.min 8 (Z.max 4 (N ÷ P))) in
    2 <= L <= N /\ 1 <= L ÷ 2 /\ L ÷ 2 <= N - L ÷ 2.
  Proof.
    intros HP HN L.
    assert (0 <= N) by (Z.to_euclidean_division_equations; lia).
    assert (2 <= N) by (Z.to_euclidean_division_equations; lia).
    assert (4 <= P * Z.min 8 (Z.max 4 (N ÷ P))) by nia.
    assert (2 <= L <= N) by (subst L; lia).
    split; [assumption|].
    Z.to_euclidean_division_equations; lia.
  Qed.

Lemma power_scan_centers data P :
    1 <= P -> P <= vec_size data ÷ 2 ->
    let N := vec_size data in
    let L := Z.min N (P * clamp (N ÷ P) 4 8) in
    let kernel := create_high_q_morlet M (1 / D.of_int P)%float L in
    let centers := scan_centers (L ÷ 2) (N - L ÷ 2) (Z.max 1 (P ÷ 8)) in
    power_scan M data P
    = (fold_left
         (fun t c =>
            let z := inner_product data kernel N L c in
            (t + m_cabs M z * m_cabs M z)%float)
         centers 0%float,
       Z.of_nat (length centers)).
  Proof.
    intros HP HN N L kernel centers.
    destruct (kernel_length_bounds N P HP HN) as (HL & HL2 & Hfirst).
    fold (clamp (N ÷ P) 4 8) in HL, HL2, Hfirst. fold L in HL, HL2, Hfirst.
    unfold power_scan. fold N. fold (clamp (N ÷ P) 4 8). fold L. fold kernel.
    rewrite scan_loop_centers; [reflexivity|lia|].
    fold centers.
    pose proof (length_scan_centers_le (L ÷ 2) (N - L ÷ 2) (Z.max 1 (P ÷ 8))
                  ltac:(lia) Hfirst) as Hlen.
    fold centers in Hlen. unfold N, vec_size in *. lia.
  Qed.

End PowerFacts.

Lemma length_create_high_q_morlet (M : libm) (freq : float) (len : Z) :
  length (create_high_q_morlet M freq len) = Z.to_nat len.
Proof. unfold create_high_q_morlet. rewrite !length_map. apply length_seqZ. Qed.

Lemma fold_left_ext_in {A B : Type} (f g : A -> B -> A) (l : list B) (a : A) :
  (forall acc b, b ∈ l -> f acc b = g acc b) ->
  fold_left f l a = fold_left g l a.
Proof.
  revert a. induction l as [|b l IH]; intros a H; [reflexivity|].
  cbn [fold_left]. rewrite H by (apply elem_of_cons; auto).
  apply IH. intros acc b' Hb'. apply H. apply elem_of_cons. auto.
Qed.

(** ** The power estimator in the specification's words *)

(** The kernel of the code is the kernel of section 4.1. *)
Lemma create_high_q_morlet_kernel (M : libm) (P L : Z) :
  create_high_q_morlet M (1 / D.of_int P)%float L = morlet_kernel M P L.
Proof.
  unfold create_high_q_morlet, morlet_kernel, unit_energy, sum_doubles.
  cbv zeta. rewrite fold_left_add_map. reflexivity.
Qed.

Lemma length_morlet_kernel (M : libm) (P L : Z) :
  length (morlet_kernel M P L) = Z.to_nat L.
Proof.
  rewrite <- create_high_q_morlet_kernel. apply length_create_high_q_morlet.
Qed.

Lemma fold_left_fmap {A B C : Type} (f : A -> C -> A) (g : B -> C)
    (l : list B) (a : A) :
  fold_left f (map g l) a = fold_left (fun a b => f a (g b)) l a.
Proof. revert a. induction l as [|b l IH]; intros a; cbn; [reflexivity|apply IH]. Qed.

(** The in-window part of the slice that starts at [s], of length
    [m = min(L, N - s)]. *)
Lemma length_local_slice (data : list float) (c L : Z) :
  0 <= c - L ÷ 2 ->
  vec_size (local_slice data c L)
  = Z.max 0 (Z.min L (vec_size data - (c - L ÷ 2))).
Proof.
  intros Hs. unfold local_slice, vec_size. rewrite length_take, length_drop. lia.
Qed.

(** The pairs of a sample of the slice and its kernel coefficient. *)
Lemma zip_local_slice (data : list float) (kernel : list complex) (c L : Z) :
  0 <= c - L ÷ 2 -> vec_size kernel = L ->
  zip (local_slice data c L) kernel
  = map (fun i : Z => (data !!! Z.to_nat (c - L ÷ 2 + i), kernel !!! Z.to_nat i))
        (seqZ 0 (vec_size (local_slice data c L))).
Proof.
  intros Hs Hk. rewrite length_local_slice by exact Hs.
  set (m := Z.max 0 (Z.min L (vec_size data - (c - L ÷ 2)))).
  apply list_eq. intros i. rewrite lookup_zip_with.
  change (map ?f ?l) with (f <$> l). rewrite list_lookup_fmap.
  unfold local_slice.
  destruct (decide (Z.of_nat i < m)) as [Hi|Hi]; unfold m in *; clear m.
  - rewrite lookup_seqZ_lt by lia. cbn [fmap option_fmap option_map].
    rewrite lookup_take_lt by lia. rewrite lookup_drop.
    rewrite Z.add_0_l, Nat2Z.id.
    replace (Z.to_nat (c - L ÷ 2 + Z.of_nat i))
      with (Z.to_nat (c - L ÷ 2) + i)%nat by lia.
    rewrite (list_lookup_lookup_total_lt data)
      by (unfold vec_size in *; lia).
    rewrite (list_lookup_lookup_total_lt kernel)
      by (unfold vec_size in *; lia).
    reflexivity.
  - rewrite lookup_seqZ_ge by lia. cbn [fmap option_fmap option_map].
    destruct (decide (Z.of_nat i < L)) as [HL|HL].
    + rewrite lookup_take_lt by lia. rewrite lookup_drop.
      rewrite (lookup_ge_None_2 data) by (unfold vec_size in *; lia). reflexivity.
    + rewrite lookup_take_ge by lia. reflexivity.
Qed.

(** At a center the scan visits, the sum the inner loop accumulates is the
    inner product of the in-window part of the slice with the kernel. *)
Lemma inner_product_local_slice (data : list float) (kernel : list complex)
    (L c : Z) :
  0 <= L -> L ÷ 2 <= c -> vec_size kernel = L ->
  inner_product data kernel (vec_size data) L c
  = conjugate_inner_product (local_slice data c L) kernel.
Proof.
  intros HL Hc Hk. unfold conjugate_inner_product.
  rewrite zip_local_slice by (assumption || lia).
  rewrite fold_left_fmap. cbn [fst snd].
  rewrite length_local_slice by lia.
  set (N := vec_size data). set (s := c - L ÷ 2).
  set (m := Z.max 0 (Z.min L (N - s))).
  unfold inner_product. fold s.
  replace L with (m + (L - m)) at 1 by lia.
  rewrite seqZ_app by lia. rewrite fold_left_app.
  rewrite (fold_left_ext_in _
             (fun sum i => C.add sum (C.scale (data !!! Z.to_nat (s + i))
                                              (C.conj (kernel !!! Z.to_nat i))))
             (seqZ 0 m)).
  2:{ intros sum i Hi. apply elem_of_seqZ in Hi.
      destruct (Z.leb_spec 0 (s + i)); [|lia].
      destruct (Z.ltb_spec (s + i) N); [|lia]. reflexivity. }
  rewrite (fold_left_ext_in _ (fun sum _ => sum) (seqZ (0 + m) (L - m))).
  2:{ intros sum i Hi. apply elem_of_seqZ in Hi.
      destruct (Z.ltb_spec (s + i) N); [lia|]. rewrite andb_false_r. reflexivity. }
  generalize (seqZ (0 + m) (L - m)) as skipped.
  induction skipped as [|i skipped IH]; [reflexivity|exact IH].
Qed.

(** The slice at a center has the full width [L], except at the center
    [N - L/2] for an odd [L], where its last position is [N]. *)
Lemma local_slice_width (data : list float) (L c : Z) :
  0 <= L -> L ÷ 2 <= c <= vec_size data - L ÷ 2 ->
  vec_size (local_slice data c L)
  = if Z.odd L && (c =? vec_size data - L ÷ 2) then L - 1 else L.
Proof.
  intros HL Hc. rewrite length_local_slice by lia.
  assert (Hhalf : L = 2 * (L ÷ 2) + (if Z.odd L then 1 else 0)).
  { rewrite Z.quot_div_nonneg by lia. rewrite Zodd_mod.
    pose proof (Z.div_mod L 2 ltac:(lia)) as Hdm.
    pose proof (Z.mod_pos_bound L 2 ltac:(lia)) as Hb.
    destruct (Z.eqb_spec (L mod 2) 1); lia. }
  destruct (Z.odd L), (Z.eqb_spec c (vec_size data - L ÷ 2)); cbn [andb]; lia.
Qed.

(** C1 (power estimator), as the code has it.  For a window [data] of
    length [N] and a period [P >= 1], [compute_power] returns 0 when
    [P > N/2]; otherwise the square root of the mean, over the centers
    [L/2, L/2 + step, ... <= N - L/2] with [step = max(1, P/8)], of the
    squared magnitudes of the inner products, against the conjugated kernel
    of section 4.1 of length [L = min(N, P * clamp(N/P, 4, 8))], of the
    part of the width-[L] slice that lies in the window.  The slice is the
    full one except at the center [N - L/2] for an odd [L]: there its last
    position is outside the window and the last kernel coefficient is not
    used. *)
Theorem C1_compute_power_is_rms_power (M : libm) (data : list float) (P : Z) :
  1 <= P ->
  let N := vec_size data in
  let L := Z.min N (P * clamp (N ÷ P) 4 8) in
  let step := Z.max 1 (P ÷ 8) in
  compute_power M data P = rms_power M data P
  /\ (P > N ÷ 2 -> compute_power M data P = 0%float)
  /\ (P <= N ÷ 2 ->
      vec_size (morlet_kernel M P L) = L
      /\ forall c,
           (c ∈ scan_centers (L ÷ 2) (N - L ÷ 2) step
            <-> L ÷ 2 <= c <= N - L ÷ 2 /\ (c - L ÷ 2) `mod` step = 0)
           /\ (c ∈ scan_centers (L ÷ 2) (N - L ÷ 2) step ->
               vec_size (local_slice data c L)
               = if Z.odd L && (c =? N - L ÷ 2) then L - 1 else L)).
Proof.
  intros HP N L step.
  assert (Hgt : P > N ÷ 2 -> compute_power M data P = 0%float).
  { intros H. unfold compute_power. fold N.
    destruct (Z.gtb_spec P (N ÷ 2)); [reflexivity|lia]. }
  assert (Hcenters : forall c,
            c ∈ scan_centers (L ÷ 2) (N - L ÷ 2) step
            <-> L ÷ 2 <= c <= N - L ÷ 2 /\ (c - L ÷ 2) `mod` step = 0)
    by (intros c; apply elem_of_scan_centers; subst step; lia).
  split; [|split; [exact Hgt|]].
  - unfold rms_power. fold N.
    destruct (Z.gtb_spec P (N ÷ 2)) as [H|H]; [apply Hgt; lia|].
    pose proof (kernel_length_bounds N P HP H) as (HL & _ & Hfirst).
    fold (clamp (N ÷ P) 4 8) in HL, Hfirst. fold L in HL, Hfirst.
    unfold compute_power. fold N.
    destruct (Z.gtb_spec P (N ÷ 2)) as [H'|_]; [lia|].
    rewrite (power_scan_centers M data P HP H). fold N. fold L. fold step.
    rewrite (scan_centers_cons (L ÷ 2)) by (subst step; lia).
    cbn [length].
    match goal with |- context [Z.gtb ?c 0] =>
      destruct (Z.gtb_spec c 0) as [_|Hc]; [|lia] end.
    rewrite <- (scan_centers_cons (L ÷ 2)) by (subst step; lia).
    unfold sum_doubles. rewrite fold_left_add_map.
    rewrite create_high_q_morlet_kernel.
    do 2 f_equal. apply fold_left_ext_in. intros t c Hc.
    apply Hcenters in Hc as [Hc _].
    assert (Hkernel : vec_size (morlet_kernel M P L) = L)
      by (unfold vec_size; rewrite length_morlet_kernel; lia).
    pose proof (inner_product_local_slice data (morlet_kernel M P L) L c
                  ltac:(lia) ltac:(lia) Hkernel) as Hsum.
    fold N in Hsum. unfold squared_magnitude. cbv zeta. rewrite Hsum.
    reflexivity.
  - intros H.
    pose proof (kernel_length_bounds N P HP H) as (HL & _).
    fold (clamp (N ÷ P) 4 8) in HL. fold L in HL.
    split; [unfold vec_size; rewrite length_morlet_kernel; lia|].
    intros c. split; [apply Hcenters|].
    intros Hc. apply Hcenters in Hc as [Hc _].
    apply local_slice_width; [lia|exact Hc].
Qed.

(** A witness of C1 on a ten-sample window and the period 2. *)
Lemma C1_witness :
  1 <= 2 /\ compute_power libm_sample sample_window 2
            = rms_power libm_sample sample_window 2.
Proof.
  split; [lia|].
  exact (proj1 (C1_compute_power_is_rms_power libm_sample sample_window 2
                  ltac:(lia))).
Defined.

(** Counterexample to C1 as stated.  For the nine samples of [odd_window]
    and the period 3 the kernel has length 9 and the scan visits the center
    5, where the slice of width 9 would end at position 9, outside the
    window: the sum of that center is taken over eight samples.  The same
    happens in scanner_clean.cpp (window of 2000 samples) for the period
    263, whose kernel has length 1841 and whose last center is
    [2000 - 920]. *)
Lemma C1_counterexample :
  Z.min 9 (3 * clamp (9 ÷ 3) 4 8) = 9
  /\ 5 ∈ scan_centers (9 ÷ 2) (9 - 9 ÷ 2) (Z.max 1 (3 ÷ 8))
  /\ local_slice odd_window 5 9 = [-0.25; 0.125; 1; -1; 0.75; -0.5; 0.25; 0.5]%float
  /\ Z.min 2000 (263 * clamp (2000 ÷ 263) 4 8) = 1841
  /\ (2000 - 1841 ÷ 2) ∈ scan_centers (1841 ÷ 2) (2000 - 1841 ÷ 2) (Z.max 1 (263 ÷ 8))
  /\ ~ (forall (data : list float) (P c : Z),
          1 <= P <= vec_size data ÷ 2 ->
          let N := vec_size data in
          let L := Z.min N (P * clamp (N ÷ P) 4 8) in
          c ∈ scan_centers (L ÷ 2) (N - L ÷ 2) (Z.max 1 (P ÷ 8)) ->
          vec_size (local_slice data c L) = L).
Proof.
  split; [reflexivity|].
  split; [vm_compute; apply elem_of_cons; right; apply elem_of_cons; left; reflexivity|].
  split; [reflexivity|].
  split; [reflexivity|].
  split.
  { apply elem_of_scan_centers; [vm_compute; reflexivity|].
    vm_compute. repeat split; congruence. }
  intros H.
  specialize (H odd_window 3 5 ltac:(vm_compute; split; discriminate)).
  cbv zeta in H.
  assert (Hc : 5 ∈ scan_centers (9 ÷ 2) (9 - 9 ÷ 2) (Z.max 1 (3 ÷ 8)))
    by (vm_compute; apply elem_of_cons; right; apply elem_of_cons; left;
        reflexivity).
  specialize (H Hc). vm_compute in H. discriminate H.
Qed.

(** C10 (the scan never divides by zero).  For a window of length [N >= 2]
    and a period with [1 <= P <= N/2], the kernel length [L] is at most [N],
    the first center [L/2] does not exceed the last one [N - L/2], the loop
    counts at least one center, and [compute_power] returns
    [sqrt(total_power / count)], not the fallback [0] after the loop. *)
Theorem C10_scan_visits_a_center (M : libm) (data : list float) (P : Z) :
  2 <= vec_size data -> 1 <= P <= vec_size data ÷ 2 ->
  let N := vec_size data in
  let L := Z.min N (P * Z.min 8 (Z.max 4 (N ÷ P))) in
  let '(total_power, count) := power_scan M data P in
  L <= N /\ L ÷ 2 <= N - L ÷ 2 /\ 1 <= count
  /\ (count >? 0) = true
  /\ compute_power M data P
     = PrimFloat.sqrt (total_power / D.of_int count)%float.
Proof.
  intros HN [HP1 HP2] N L. fold N in HN, HP2.
  pose proof (kernel_length_bounds N P HP1 HP2) as (HL & _ & Hfirst).
  fold L in HL, Hfirst.
  pose proof (power_scan_centers M data P HP1 HP2) as Hscan.
  cbn zeta in Hscan. fold N in Hscan. unfold clamp in Hscan. fold L in Hscan.
  unfold compute_power. fold N. rewrite Hscan.
  rewrite (scan_centers_cons (L ÷ 2)) by lia. cbn [length].
  destruct (Z.gtb_spec P (N ÷ 2)) as [H|_]; [lia|].
  match goal with |- context [Z.gtb ?c 0] =>
    destruct (Z.gtb_spec c 0) as [_|Hc]; [|lia] end.
  repeat split; lia.
Qed.

(** ** Order of binary64 values *)

Module FloatOrder.

Ltac cases_compare :=
  repeat match goal with
  | H : context [Z.compare ?a ?b] |- _ => destruct (Z.compare_spec a b)
  | |- context [Z.compare ?a ?b] => destruct (Z.compare_spec a b)
  | H : context [Pos.compare ?a ?b] |- _ => destruct (Pos.compare_spec a b)
  | |- context [Pos.compare ?a ?b] => destruct (Pos.compare_spec a b)
  end.

Ltac sf_cases :=
  cbn [SFcompare SFltb SFleb SFeqb CompOpp] in *;
  repeat match goal with s : bool |- _ => destruct s end;
  cbn [CompOpp] in *;
  repeat match goal with
  | H : context [Pos.compare_cont Eq ?a ?b] |- _ =>
      change (Pos.compare_cont Eq a b) with (Pos.compare a b) in H
  | |- context [Pos.compare_cont Eq ?a ?b] =>
      change (Pos.compare_cont Eq a b) with (Pos.compare a b)
  end;
  try discriminate; try reflexivity;
  cases_compare; cbn [CompOpp] in *; subst;
  try discriminate; try reflexivity; try lia.

Lemma SFltb_asym x y : SFltb x y = true -> SFltb y x = false.
Proof.
  unfold SFltb.
  destruct x as [sx|sx| |sx mx ex], y as [sy|sy| |sy my ey]; sf_cases.
Qed.

Lemma SFltb_trans x y z :
  SFltb x y = true -> SFltb y z = true -> SFltb x z = true.
Proof.
  unfold SFltb.
  destruct x as [sx|sx| |sx mx ex], y as [sy|sy| |sy my ey],
           z as [sz|sz| |sz mz ez]; sf_cases.
Qed.

Lemma SFleb_not_ltb x y : SFleb x y = true -> SFltb y x = false.
Proof.
  unfold SFltb, SFleb.
  destruct x as [sx|sx| |sx mx ex], y as [sy|sy| |sy my ey]; sf_cases.
Qed.

Lemma SFltb_total x y :
  SFeqb x x = true -> SFeqb y y = true -> SFltb x y = false -> SFleb y x = true.
Proof.
  unfold SFltb, SFleb, SFeqb.
  destruct x as [sx|sx| |sx mx ex], y as [sy|sy| |sy my ey]; sf_cases.
Qed.

Lemma SFltb_not_nan x y :
  SFltb x y = true -> SFeqb x x = true /\ SFeqb y y = true.
Proof.
  unfold SFltb, SFeqb.
  destruct x as [sx|sx| |sx mx ex], y as [sy|sy| |sy my ey];
    sf_cases; split; sf_cases.
Qed.

(** The same facts on primitive floats. *)

Lemma ltb_asym (x y : float) : PrimFloat.ltb x y = true -> PrimFloat.ltb y x = false.
Proof. rewrite !FloatAxioms.ltb_spec. apply SFltb_asym. Qed.

Lemma ltb_irrefl (x : float) : PrimFloat.ltb x x = false.
Proof.
  destruct (PrimFloat.ltb x x) eqn:E; [|reflexivity].
  pose proof (ltb_asym x x E). congruence.
Qed.

Lemma ltb_trans (x y z : float) :
  PrimFloat.ltb x y = true -> PrimFloat.ltb y z = true -> PrimFloat.ltb x z = true.
Proof. rewrite !FloatAxioms.ltb_spec. apply SFltb_trans. Qed.

(** [x >= c] excludes [x < c]. *)
Lemma leb_not_ltb (x y : float) : PrimFloat.leb x y = true -> PrimFloat.ltb y x = false.
Proof. rewrite FloatAxioms.leb_spec, FloatAxioms.ltb_spec. apply SFleb_not_ltb. Qed.

Lemma ltb_not_nan (x y : float) :
  PrimFloat.ltb x y = true -> PrimFloat.is_nan x = false /\ PrimFloat.is_nan y = false.
Proof.
  unfold PrimFloat.is_nan. rewrite FloatAxioms.ltb_spec, !FloatAxioms.eqb_spec. intros H.
  destruct (SFltb_not_nan _ _ H) as [-> ->]. split; reflexivity.
Qed.

(** Two values that are not NaN are comparable. *)
Lemma not_ltb_leb (x y : float) :
  PrimFloat.is_nan x = false -> PrimFloat.is_nan y = false ->
  PrimFloat.ltb x y = false -> PrimFloat.leb y x = true.
Proof.
  unfold PrimFloat.is_nan. rewrite FloatAxioms.ltb_spec, FloatAxioms.leb_spec, !FloatAxioms.eqb_spec. intros Hx Hy.
  apply SFltb_total.
  - destruct (SFeqb (Prim2SF x) (Prim2SF x)); [reflexivity|discriminate].
  - destruct (SFeqb (Prim2SF y) (Prim2SF y)); [reflexivity|discriminate].
Qed.

Lemma SFltb_negtrans x y z :
  SFeqb x x = true -> SFeqb y y = true -> SFeqb z z = true ->
  SFltb x y = false -> SFltb y z = false -> SFltb x z = false.
Proof.
  unfold SFltb, SFeqb.
  destruct x as [sx|sx| |sx mx ex], y as [sy|sy| |sy my ey],
           z as [sz|sz| |sz mz ez]; intros Hx Hy Hz;
    try discriminate Hx; try discriminate Hy; try discriminate Hz;
    clear Hx Hy Hz; sf_cases.
Qed.

Lemma SFleb_not_nan x y :
  SFleb x y = true -> SFeqb x x = true /\ SFeqb y y = true.
Proof.
  unfold SFleb, SFeqb.
  destruct x as [sx|sx| |sx mx ex], y as [sy|sy| |sy my ey];
    sf_cases; split; sf_cases.
Qed.

Lemma is_nan_SFeqb (x : float) :
  PrimFloat.is_nan x = false -> SFeqb (Prim2SF x) (Prim2SF x) = true.
Proof.
  unfold PrimFloat.is_nan. rewrite FloatAxioms.eqb_spec.
  destruct (SFeqb (Prim2SF x) (Prim2SF x)); [reflexivity|discriminate].
Qed.

(** Among values that are not NaN, "not below" is transitive. *)
Lemma ltb_negtrans (x y z : float) :
  PrimFloat.is_nan x = false -> PrimFloat.is_nan y = false ->
  PrimFloat.is_nan z = false ->
  PrimFloat.ltb x y = false -> PrimFloat.ltb y z = false ->
  PrimFloat.ltb x z = false.
Proof.
  intros Hx Hy Hz. rewrite !FloatAxioms.ltb_spec.
  apply SFltb_negtrans; apply is_nan_SFeqb; assumption.
Qed.

Lemma leb_not_nan (x y : float) :
  PrimFloat.leb x y = true -> PrimFloat.is_nan x = false /\ PrimFloat.is_nan y = false.
Proof.
  unfold PrimFloat.is_nan. rewrite FloatAxioms.leb_spec, !FloatAxioms.eqb_spec. intros H.
  destruct (SFleb_not_nan _ _ H) as [-> ->]. split; reflexivity.
Qed.

Lemma leb_ltb_trans (x y z : float) :
  PrimFloat.leb x y = true -> PrimFloat.ltb y z = true -> PrimFloat.ltb x z = true.
Proof.
  intros Hxy Hyz. destruct (PrimFloat.ltb x z) eqn:Hxz; [reflexivity|].
  destruct (leb_not_nan _ _ Hxy) as [Hx Hy].
  destruct (ltb_not_nan _ _ Hyz) as [_ Hz].
  pose proof (ltb_negtrans y x z Hy Hx Hz (leb_not_ltb _ _ Hxy) Hxz).
  congruence.
Qed.

End FloatOrder.

(** ** Vectors and outcomes *)

Lemma vec_get_Done {A : Type} (v : list A) (i : Z) (a : A) :
  vec_get v i = Done a <-> 0 <= i /\ v !! Z.to_nat i = Some a.
Proof.
  unfold vec_get. destruct (Z.ltb_spec i 0) as [H|H].
  - split; [discriminate|lia].
  - destruct (v !! Z.to_nat i) as [b|]; split.
    + intros [= ->]. auto.
    + intros [_ [= ->]]. reflexivity.
    + discriminate.
    + intros [_ [=]].
Qed.

Lemma vec_get_in_range {A : Type} (v : list A) (i : Z) :
  0 <= i < vec_size v -> exists a, vec_get v i = Done a.
Proof.
  intros [H1 H2]. destruct (lookup_lt_is_Some_2 v (Z.to_nat i)) as [a Ha].
  - unfold vec_size in H2. lia.
  - exists a. apply vec_get_Done. auto.
Qed.

Lemma vec_get_out_of_range {A : Type} (v : list A) (i : Z) :
  vec_size v <= i -> vec_get v i = Undefined.
Proof.
  intros H. unfold vec_get. destruct (Z.ltb_spec i 0); [reflexivity|].
  rewrite lookup_ge_None_2; [reflexivity|]. unfold vec_size in H. lia.
Qed.

Lemma vec_get_not_OutOfFuel {A : Type} (v : list A) (i : Z) :
  vec_get v i <> OutOfFuel.
Proof.
  unfold vec_get. destruct (i <? 0); [discriminate|].
  destruct (v !! Z.to_nat i); discriminate.
Qed.

Lemma bind_Done {A B : Type} (o : outcome A) (k : A -> outcome B) (b : B) :
  (o ≫= k) = Done b <-> exists a, o = Done a /\ k a = Done b.
Proof.
  destruct o; cbn; split.
  - eauto.
  - intros (a' & [= ->] & H). exact H.
  - discriminate.
  - intros (? & [=] & _).
  - discriminate.
  - intros (? & [=] & _).
Qed.

(** ** Insertion sort meets the contract of std::sort *)

Section SortFacts.
Context {A : Type} (comp : A -> A -> bool).
Hypothesis comp_asym : forall x y, comp x y = true -> comp y x = false.
Hypothesis comp_trans :
  forall x y z, comp x y = true -> comp y z = true -> comp x z = true.

Lemma sorted_by_nil : StdSort.sorted_by comp [].
Proof. intros i j x y _ H. rewrite lookup_nil in H. discriminate. Qed.

Lemma sorted_by_cons (x : A) (l : list A) :
  StdSort.sorted_by comp (x :: l)
  <-> Forall (fun y => comp y x = false) l /\ StdSort.sorted_by comp l.
Proof.
  split.
  - intros H. split.
    + apply Forall_lookup. intros k y Hk. apply (H 0%nat (S k) x y); [lia|done..].
    + intros i j a b Hij Ha Hb. apply (H (S i) (S j) a b); [lia|done..].
  - intros [Hall Hs] i j a b Hij Ha Hb.
    destruct j as [|j]; [lia|]. cbn in Hb.
    destruct i as [|i]; cbn in Ha.
    + injection Ha as <-. rewrite Forall_lookup in Hall. eauto.
    + apply (Hs i j a b); [lia|done..].
Qed.

Lemma insert_perm (x : A) (l : list A) : Permutation (StdSort.insert comp x l) (x :: l).
Proof.
  induction l as [|y l IH]; cbn; [reflexivity|].
  destruct (comp x y); [reflexivity|].
  rewrite IH. apply perm_swap.
Qed.

Lemma insert_sorted (x : A) (l : list A) :
  StdSort.sorted_by comp l -> StdSort.sorted_by comp (StdSort.insert comp x l).
Proof.
  induction l as [|y l IH]; intros Hs; cbn.
  - apply sorted_by_cons. split; [constructor|apply sorted_by_nil].
  - apply sorted_by_cons in Hs as Hs'. destruct Hs' as [Hall Hl].
    destruct (comp x y) eqn:Hxy.
    + apply sorted_by_cons. split; [|exact Hs].
      constructor; [apply comp_asym; exact Hxy|].
      rewrite Forall_forall in Hall |- *. intros z Hz.
      destruct (comp z x) eqn:Hzx; [|reflexivity].
      specialize (Hall z Hz).
      rewrite (comp_trans z x y Hzx Hxy) in Hall. discriminate.
    + apply sorted_by_cons. split; [|apply IH; exact Hl].
      rewrite (Forall_forall (fun y0 => comp y0 y = false)).
      intros z Hz. rewrite (insert_perm x l) in Hz.
      apply elem_of_cons in Hz as [->|Hz]; [exact Hxy|].
      rewrite Forall_forall in Hall. auto.
Qed.

Lemma insertion_sort_post (l : list A) :
  StdSort.post comp l (StdSort.insertion_sort comp l).
Proof.
  unfold StdSort.insertion_sort.
  enough (forall acc, StdSort.sorted_by comp acc ->
            StdSort.post comp (l ++ acc)
              (fold_left (fun acc x => StdSort.insert comp x acc) l acc)) as H.
  { specialize (H [] sorted_by_nil). rewrite app_nil_r in H. exact H. }
  induction l as [|x l IH]; intros acc Hacc; cbn.
  - split; [reflexivity|exact Hacc].
  - destruct (IH _ (insert_sorted x acc Hacc)) as [Hp Hs]. split; [|exact Hs].
    rewrite Hp, insert_perm. symmetry. apply Permutation_middle.
Qed.

End SortFacts.

Lemma by_power_asym (a b : peak) : by_power a b = true -> by_power b a = false.
Proof. unfold by_power, D.gtb. apply FloatOrder.ltb_asym. Qed.

Lemma by_power_trans (a b c : peak) :
  by_power a b = true -> by_power b c = true -> by_power a c = true.
Proof.
  unfold by_power, D.gtb. intros H1 H2. exact (FloatOrder.ltb_trans _ _ _ H2 H1).
Qed.

(** ** The peak detector *)

Lemma size_add_int_nonneg (i j : Z) : 0 <= i + j -> size_add_int i j = i + j.
Proof. intros H. unfold size_add_int. destruct (Z.ltb_spec (i + j) 0); lia. Qed.

Lemma size_sub_le (a b : Z) : b <= a -> size_sub a b = a - b.
Proof. intros H. unfold size_sub. destruct (Z.ltb_spec a b); lia. Qed.

Lemma size_sub_wrap (a b : Z) :
  0 <= a < b -> b < size_t_modulus -> size_sub a b = a - b + size_t_modulus.
Proof. intros H1 H2. unfold size_sub. destruct (Z.ltb_spec a b); lia. Qed.

Lemma is_peak_loop_true (spectrum : list float) (i : Z) (js : list Z) :
  is_peak_loop spectrum i js = Done true ->
  forall j, j ∈ js -> j <> 0 ->
    exists a b, vec_get spectrum (size_add_int i j) = Done a
                /\ vec_get spectrum i = Done b /\ D.gtb a b = false.
Proof.
  induction js as [|j0 js IH]; intros H j Hj Hj0.
  - apply elem_of_nil in Hj. contradiction.
  - cbn [is_peak_loop] in H. destruct (Z.eqb_spec j0 0) as [->|Hne]; cbn [negb] in H.
    + apply elem_of_cons in Hj as [->|Hj]; [lia|]. apply IH; assumption.
    + apply bind_Done in H as (a & Ha & H). apply bind_Done in H as (b & Hb & H).
      destruct (D.gtb a b) eqn:Hgt; [discriminate|].
      apply elem_of_cons in Hj as [->|Hj]; [eauto|]. apply IH; assumption.
Qed.

Lemma is_peak_loop_not_OutOfFuel (spectrum : list float) (i : Z) (js : list Z) :
  is_peak_loop spectrum i js <> OutOfFuel.
Proof.
  induction js as [|j js IH]; cbn [is_peak_loop]; [discriminate|].
  destruct (negb (j =? 0)); [|exact IH].
  pose proof (vec_get_not_OutOfFuel spectrum (size_add_int i j)) as Ha.
  pose proof (vec_get_not_OutOfFuel spectrum i) as Hb.
  destruct (vec_get spectrum (size_add_int i j)); cbn; try congruence.
  destruct (vec_get spectrum i); cbn; try congruence.
  match goal with |- (if ?c then _ else _) <> _ => destruct c end;
    [discriminate|exact IH].
Qed.

Lemma is_peak_loop_out_of_range (spectrum : list float) (i j : Z) (js : list Z) :
  vec_size spectrum <= i -> j <> 0 ->
  is_peak_loop spectrum i (j :: js) = Undefined.
Proof.
  intros Hi Hj. cbn [is_peak_loop].
  destruct (Z.eqb_spec j 0); [contradiction|]. cbn [negb].
  rewrite (vec_get_out_of_range spectrum i Hi).
  destruct (vec_get spectrum (size_add_int i j)) eqn:E; cbn; try reflexivity.
  exfalso. exact (vec_get_not_OutOfFuel _ _ E).
Qed.

Lemma is_peak_loop_in_range (spectrum : list float) (i : Z) (js : list Z) :
  0 <= i < vec_size spectrum ->
  (forall j, j ∈ js -> 0 <= i + j < vec_size spectrum) ->
  exists b, is_peak_loop spectrum i js = Done b.
Proof.
  intros Hi. induction js as [|j js IH]; intros Hjs; cbn [is_peak_loop].
  - eauto.
  - assert (exists b, is_peak_loop spectrum i js = Done b) as Hrest.
    { apply IH. intros j' Hj'. apply Hjs. apply elem_of_cons. auto. }
    destruct (negb (j =? 0)); [|exact Hrest].
    pose proof (Hjs j ltac:(apply elem_of_cons; auto)) as Hj.
    rewrite size_add_int_nonneg by lia.
    destruct (vec_get_in_range spectrum (i + j) Hj) as [a ->].
    destruct (vec_get_in_range spectrum i Hi) as [b ->].
    cbn [mbind outcome_bind]. destruct (D.gtb a b); eauto.
Qed.

Section FindPeaks.
Context (spectrum : list float) (wavelengths : list Z).

Lemma find_peaks_loop_accepted (bound : Z) (fuel : nat) :
  forall (i : Z) (peaks out : list peak),
    10 <= i ->
    Forall (accepted_peak spectrum wavelengths) peaks ->
    find_peaks_loop spectrum wavelengths bound fuel i peaks = Done out ->
    Forall (accepted_peak spectrum wavelengths) out.
Proof.
  induction fuel as [|fuel IH]; intros i peaks out Hi Hpeaks H; [discriminate|].
  cbn [find_peaks_loop] in H. destruct (i <? bound); [|congruence].
  apply bind_Done in H as (is_peak & Hloop & H).
  apply bind_Done in H as (peaks' & Hbody & H).
  apply (IH (i + 1) peaks' out); [lia| |exact H].
  destruct is_peak; [|congruence].
  apply bind_Done in Hbody as (si & Hsi & Hbody).
  destruct (D.gtb si D.c0_05) eqn:Hthr; [|congruence].
  apply bind_Done in Hbody as (wl & Hwl & [= <-]).
  apply Forall_app. split; [exact Hpeaks|]. constructor; [|constructor].
  apply vec_get_Done in Hsi as [_ Hsi]. apply vec_get_Done in Hwl as [_ Hwl].
  pose proof (is_peak_loop_true _ _ _ Hloop) as Hnb.
  exists i. cbn [fst snd]. split; [lia|]. split.
  { destruct (Hnb 10) as (a & _ & Ha & _); [apply elem_of_seqZ; lia|lia|].
    rewrite size_add_int_nonneg in Ha by lia.
    apply vec_get_Done in Ha as [_ Ha]. apply lookup_lt_Some in Ha.
    unfold vec_size. lia. }
  split; [exact Hwl|]. split; [exact Hsi|]. split; [exact Hthr|].
  intros j Hj. destruct (Z.eq_dec j 0) as [->|Hj0].
  - exists si. rewrite Z.add_0_r. split; [exact Hsi|]. apply FloatOrder.ltb_irrefl.
  - destruct (Hnb j) as (a & b & Ha & Hb & Hab); [apply elem_of_seqZ; lia|exact Hj0|].
    rewrite size_add_int_nonneg in Ha by lia.
    apply vec_get_Done in Ha as [_ Ha]. apply vec_get_Done in Hb as [_ Hb].
    exists a. split; [exact Ha|]. congruence.
Qed.

(** The loop needs at most one unit of fuel per entry of the spectrum. *)
Lemma find_peaks_loop_fuel (bound : Z) (fuel : nat) :
  forall (i : Z) (peaks : list peak),
    (0 < fuel)%nat -> 0 <= i -> vec_size spectrum < i + Z.of_nat fuel ->
    find_peaks_loop spectrum wavelengths bound fuel i peaks <> OutOfFuel.
Proof.
  induction fuel as [|fuel IH]; intros i peaks Hf Hi Hlen; [lia|].
  cbn [find_peaks_loop]. destruct (i <? bound); [|discriminate].
  destruct (Z.le_gt_cases (vec_size spectrum) i) as [Hout|Hin].
  - rewrite (seqZ_cons (-10)) by lia.
    rewrite is_peak_loop_out_of_range by lia. discriminate.
  - pose proof (is_peak_loop_not_OutOfFuel spectrum i (seqZ (-10) 21)) as Hp.
    destruct (is_peak_loop spectrum i (seqZ (-10) 21)) as [b| |];
      cbn [mbind outcome_bind]; [|discriminate|congruence].
    match goal with |- (?body ≫= _) <> _ =>
      destruct body as [peaks'| |] eqn:Hbody end;
      cbn [mbind outcome_bind]; [apply IH; lia|discriminate|].
    exfalso. destruct b; [|discriminate].
    pose proof (vec_get_not_OutOfFuel spectrum i) as Hs.
    destruct (vec_get spectrum i) as [si| |]; cbn [mbind outcome_bind] in Hbody;
      [|discriminate|congruence].
    destruct (D.gtb si D.c0_05); [|discriminate].
    pose proof (vec_get_not_OutOfFuel wavelengths i) as Hw.
    destruct (vec_get wavelengths i); cbn [mbind outcome_bind] in Hbody; congruence.
Qed.

Lemma find_peaks_loop_defined (bound : Z) (fuel : nat) :
  forall (i : Z) (peaks : list peak),
    10 <= i -> bound + 10 <= vec_size spectrum ->
    vec_size spectrum <= vec_size wavelengths ->
    (0 < fuel)%nat -> bound - i < Z.of_nat fuel ->
    exists out, find_peaks_loop spectrum wavelengths bound fuel i peaks = Done out.
Proof.
  induction fuel as [|fuel IH]; intros i peaks Hi Hb Hw Hpos Hf.
  - lia.
  - cbn [find_peaks_loop]. destruct (Z.ltb_spec i bound) as [Hlt|Hge]; [|eauto].
    destruct (is_peak_loop_in_range spectrum i (seqZ (-10) 21)) as [b ->]; [lia| |].
    { intros j Hj. apply elem_of_seqZ in Hj. lia. }
    cbn [mbind outcome_bind].
    destruct (vec_get_in_range spectrum i ltac:(lia)) as [si Hsi].
    destruct (vec_get_in_range wavelengths i ltac:(lia)) as [wl Hwl].
    destruct b; cbn [mbind outcome_bind]; [|apply IH; lia].
    rewrite Hsi. cbn [mbind outcome_bind].
    destruct (D.gtb si D.c0_05); cbn [mbind outcome_bind]; [|apply IH; lia].
    rewrite Hwl. cbn [mbind outcome_bind]. apply IH; lia.
Qed.

Lemma find_peaks_not_OutOfFuel : find_peaks spectrum wavelengths <> OutOfFuel.
Proof.
  unfold find_peaks. apply find_peaks_loop_fuel; unfold vec_size; lia.
Qed.

Lemma find_peaks_defined :
  10 <= vec_size spectrum -> vec_size spectrum <= vec_size wavelengths ->
  exists peaks, find_peaks spectrum wavelengths = Done peaks.
Proof.
  intros Hs Hw. unfold find_peaks. rewrite size_sub_le by lia.
  apply find_peaks_loop_defined; unfold vec_size in *; lia.
Qed.

Lemma find_peaks_accepted (peaks : list peak) :
  find_peaks spectrum wavelengths = Done peaks ->
  Forall (accepted_peak spectrum wavelengths) peaks.
Proof.
  unfold find_peaks. apply find_peaks_loop_accepted; [lia|constructor].
Qed.

End FindPeaks.

(** A witness of C10 on the same window. *)
Lemma C10_witness :
  2 <= vec_size sample_window /\ 1 <= 2 <= vec_size sample_window ÷ 2
  /\ 1 <= snd (power_scan libm_sample sample_window 2).
Proof.
  assert (H1 : 2 <= vec_size sample_window) by (vm_compute; discriminate).
  assert (H2 : 1 <= 2 <= vec_size sample_window ÷ 2)
    by (split; vm_compute; discriminate).
  split; [exact H1|]. split; [exact H2|].
  pose proof (C10_scan_visits_a_center libm_sample sample_window 2 H1 H2) as H.
  cbv zeta in H.
  destruct (power_scan libm_sample sample_window 2) as [total_power count].
  exact (proj1 (proj2 (proj2 H))).
Defined.

Lemma peak_detector_defined (spectrum : list float) (wavelengths : list Z) :
  10 <= vec_size spectrum -> vec_size spectrum <= vec_size wavelengths ->
  exists out, peak_detector spectrum wavelengths out.
Proof.
  intros Hs Hw. destruct (find_peaks_defined spectrum wavelengths Hs Hw) as [peaks Hp].
  exists (StdSort.insertion_sort by_power peaks), peaks. split; [exact Hp|].
  apply insertion_sort_post; [exact by_power_asym|exact by_power_trans].
Qed.

(** C3 (peak detector).  Every peak in the output of the detector is the
    entry of an index with at least ten neighbours on each side, its power
    is strictly greater than 0.05, and no entry within ten positions of it
    is strictly greater. *)
Theorem C3_peaks_are_local_maxima (spectrum : list float) (wavelengths : list Z)
    (out : list peak) (p : peak) :
  peak_detector spectrum wavelengths out ->
  p ∈ out ->
  exists i : Z,
    10 <= i /\ i + 10 < vec_size spectrum
    /\ wavelengths !! Z.to_nat i = Some (fst p)
    /\ spectrum !! Z.to_nat i = Some (snd p)
    /\ PrimFloat.ltb D.c0_05 (snd p) = true
    /\ forall j, -10 <= j <= 10 ->
         exists a, spectrum !! Z.to_nat (i + j) = Some a
                   /\ D.gtb a (snd p) = false.
Proof.
  intros (peaks & Hfind & Hperm & _) Hp.
  pose proof (find_peaks_accepted _ _ _ Hfind) as Hall.
  rewrite Forall_forall in Hall. apply Hall.
  rewrite <- Hperm. exact Hp.
Qed.

Lemma sorted_by_singleton {A : Type} (comp : A -> A -> bool) (x : A) :
  StdSort.sorted_by comp [x].
Proof.
  intros i j a b Hij Ha Hb. destruct j as [|j]; [lia|].
  destruct j; discriminate Hb.
Qed.

(** A witness of C3: the single peak of [one_peak_spectrum]. *)
Lemma C3_witness :
  exists i : Z,
    10 <= i /\ i + 10 < vec_size one_peak_spectrum
    /\ band 30 50 !! Z.to_nat i = Some 40
    /\ one_peak_spectrum !! Z.to_nat i = Some 1%float
    /\ PrimFloat.ltb D.c0_05 1 = true
    /\ forall j, -10 <= j <= 10 ->
         exists a, one_peak_spectrum !! Z.to_nat (i + j) = Some a
                   /\ D.gtb a 1 = false.
Proof.
  apply (C3_peaks_are_local_maxima one_peak_spectrum (band 30 50)
           [(40, 1%float)] (40, 1%float)).
  - exists [(40, 1%float)]. split; [vm_compute; reflexivity|].
    split; [reflexivity|apply sorted_by_singleton].
  - apply elem_of_cons. left. reflexivity.
Defined.

(** C7 (order of the output), as far as [std::sort] guarantees it.  The
    output is a permutation of the accepted peaks in which the power never
    increases: a peak is never followed by one of strictly greater power.
    Nothing is promised about the order of peaks of equal power. *)
Theorem C7_output_sorted_by_power (spectrum : list float) (wavelengths : list Z)
    (peaks out : list peak) :
  find_peaks spectrum wavelengths = Done peaks ->
  StdSort.post by_power peaks out ->
  Permutation out peaks /\ power_descending out.
Proof.
  intros Hfind [Hperm Hsorted]. split; [exact Hperm|].
  pose proof (find_peaks_accepted _ _ _ Hfind) as Hall.
  rewrite Forall_forall in Hall.
  assert (Hnan : forall p, p ∈ out -> PrimFloat.is_nan (snd p) = false).
  { intros p Hp. rewrite Hperm in Hp.
    destruct (Hall p Hp) as (i & _ & _ & _ & _ & Hthr & _).
    apply FloatOrder.ltb_not_nan in Hthr. tauto. }
  intros i j p q Hij Hp Hq.
  apply FloatOrder.not_ltb_leb.
  - apply Hnan. eapply list_elem_of_lookup_2. exact Hp.
  - apply Hnan. eapply list_elem_of_lookup_2. exact Hq.
  - exact (Hsorted i j p q Hij Hp Hq).
Qed.

(** A witness of C7 on the two equal peaks of [tie_spectrum]. *)
Lemma C7_witness :
  Permutation [(40, 1%float); (51, 1%float)] [(40, 1%float); (51, 1%float)]
  /\ power_descending [(40, 1%float); (51, 1%float)].
Proof.
  apply (C7_output_sorted_by_power tie_spectrum (band 30 1000)).
  - vm_compute. reflexivity.
  - change [(40, 1%float); (51, 1%float)]
      with (StdSort.insertion_sort by_power [(40, 1%float); (51, 1%float)]) at 2.
    apply insertion_sort_post; [exact by_power_asym|exact by_power_trans].
Defined.

(** Counterexample to C7 as stated.  [tie_spectrum] has two peaks of power 1.
    No output of the detector on it is strictly descending, and the list
    with the two peaks in reverse scan order is an output that [std::sort]
    may produce. *)
Lemma C7_counterexample :
  find_peaks tie_spectrum (band 30 1000) = Done [(40, 1%float); (51, 1%float)]
  /\ (forall out, peak_detector tie_spectrum (band 30 1000) out ->
                  ~ power_strictly_descending out)
  /\ peak_detector tie_spectrum (band 30 1000) [(51, 1%float); (40, 1%float)]
  /\ ~ ties_in_scan_order [(40, 1%float); (51, 1%float)]
                          [(51, 1%float); (40, 1%float)].
Proof.
  assert (Hfind : find_peaks tie_spectrum (band 30 1000)
                  = Done [(40, 1%float); (51, 1%float)])
    by (vm_compute; reflexivity).
  split; [exact Hfind|]. split; [|split].
  - intros out (peaks & Hp & Hperm & _) Hstrict.
    rewrite Hfind in Hp. injection Hp as <-.
    assert (Hlen : length out = 2%nat) by (rewrite Hperm; reflexivity).
    destruct out as [|p [|q [|r out]]]; try discriminate Hlen.
    assert (Hp : p ∈ [(40, 1%float); (51, 1%float)])
      by (rewrite <- Hperm; apply elem_of_cons; auto).
    assert (Hq : q ∈ [(40, 1%float); (51, 1%float)])
      by (rewrite <- Hperm; apply elem_of_cons; right; apply elem_of_cons; auto).
    specialize (Hstrict 0%nat 1%nat p q ltac:(lia) eq_refl eq_refl).
    rewrite !elem_of_cons, elem_of_nil in Hp, Hq.
    destruct Hp as [->|[->|[]]], Hq as [->|[->|[]]]; vm_compute in Hstrict;
      discriminate.
  - exists [(40, 1%float); (51, 1%float)]. split; [exact Hfind|].
    clear Hfind. split.
    + apply perm_swap.
    + intros i j x y Hij Hx Hy.
      destruct i as [|[|i]], j as [|[|j]]; cbn in Hx, Hy; simplify_eq; try lia.
      vm_compute. reflexivity.
  - clear Hfind. intros Hties.
    destruct (Hties 0%nat 1%nat (51, 1%float) (40, 1%float) ltac:(lia) eq_refl eq_refl)
      as (i' & j' & Hij & Hi' & Hj'); [vm_compute; reflexivity|].
    destruct i' as [|[|i']], j' as [|[|j']]; cbn in Hi', Hj'; simplify_eq; lia.
Qed.

(** ** Adaptive local smoothing *)

Section Adaptive.
Context (M : libm) (spectrum : list float).

Lemma local_average_in_range (i : Z) :
  5 <= i -> i + 5 < vec_size spectrum ->
  local_average M spectrum i = Done (gaussian_average M spectrum i).
Proof.
  intros Hlo Hhi. unfold local_average, gaussian_average.
  assert (forall js acc,
            (forall j, j ∈ js -> -5 <= j <= 5) ->
            ofold (fun '(sum, weight) j =>
                     s ← vec_get spectrum (size_add_int i j);
                     let w := m_exp M (-0.5 * D.of_int j * D.of_int j / 4)%float in
                     Done (sum + s * w, weight + w)%float) js acc
            = Done (fold_left
                      (fun '(sum, weight) j =>
                         let w := m_exp M (-0.5 * D.of_int j * D.of_int j / 4)%float in
                         (sum + spectrum !!! Z.to_nat (i + j) * w, weight + w)%float)
                      js acc)) as Hfold.
  { induction js as [|j js IH]; intros [sum weight] Hjs; [reflexivity|].
    cbn [ofold fold_left].
    pose proof (Hjs j ltac:(apply elem_of_cons; auto)) as Hj.
    rewrite size_add_int_nonneg by lia.
    destruct (vec_get_in_range spectrum (i + j) ltac:(lia)) as [s Hs].
    rewrite Hs. cbn [mbind outcome_bind].
    apply vec_get_Done in Hs as [_ Hs].
    rewrite (list_lookup_total_correct _ _ _ Hs).
    apply IH. intros j' Hj'. apply Hjs. apply elem_of_cons. auto. }
  rewrite Hfold.
  - cbn [mbind outcome_bind]. destruct (fold_left _ _ _). reflexivity.
  - intros j Hj. apply elem_of_seqZ in Hj. lia.
Qed.

Lemma local_average_not_OutOfFuel (i : Z) :
  local_average M spectrum i <> OutOfFuel.
Proof.
  unfold local_average.
  assert (forall js acc,
            ofold (fun '(sum, weight) j =>
                     s ← vec_get spectrum (size_add_int i j);
                     let w := m_exp M (-0.5 * D.of_int j * D.of_int j / 4)%float in
                     Done (sum + s * w, weight + w)%float) js acc
            <> OutOfFuel) as Hfold.
  { induction js as [|j js IH]; intros [sum weight]; [discriminate|].
    cbn [ofold]. pose proof (vec_get_not_OutOfFuel spectrum (size_add_int i j)).
    destruct (vec_get spectrum (size_add_int i j));
      cbn [mbind outcome_bind]; [apply IH|discriminate|congruence]. }
  specialize (Hfold (seqZ (-5) 11) (0%float, 0%float)).
  destruct (ofold _ _ _); cbn [mbind outcome_bind]; congruence.
Qed.

Lemma adaptive_loop_spec (bound : Z) (fuel : nat) :
  bound + 5 <= vec_size spectrum ->
  forall (i : Z) (cur : list float),
    5 <= i -> length cur = length spectrum ->
    (0 < fuel)%nat -> bound - i < Z.of_nat fuel ->
    exists out,
      adaptive_loop M spectrum bound fuel i cur = Done out
      /\ length out = length spectrum
      /\ forall (k : nat) (x : float),
           cur !! k = Some x -> out !! k = Some (adaptive_entry M spectrum i bound k x).
Proof.
  intros Hbound. induction fuel as [|fuel IH]; intros i cur Hi Hlen Hpos Hf; [lia|].
  cbn [adaptive_loop]. destruct (Z.ltb_spec i bound) as [Hlt|Hge].
  - destruct (vec_get_in_range spectrum i ltac:(lia)) as [si Hsi].
    rewrite Hsi. cbn [mbind outcome_bind].
    apply vec_get_Done in Hsi as [_ Hsi].
    assert (Hsi' : spectrum !!! Z.to_nat i = si)
      by (apply list_lookup_total_correct; exact Hsi).
    destruct (PrimFloat.ltb si D.c0_3) eqn:Hlow.
    + rewrite local_average_in_range by lia. cbn [mbind outcome_bind].
      destruct (IH (i + 1) (<[Z.to_nat i := gaussian_average M spectrum i]> cur))
        as (out & -> & Hout & Hspec);
        [lia|rewrite length_insert; exact Hlen|lia|lia|].
      exists out. split; [reflexivity|]. split; [exact Hout|].
      intros k x Hk. destruct (decide (k = Z.to_nat i)) as [->|Hne].
      * rewrite (Hspec _ (gaussian_average M spectrum i)).
        2:{ apply list_lookup_insert_eq. apply lookup_lt_Some in Hk. exact Hk. }
        f_equal. unfold adaptive_entry. rewrite Z2Nat.id by lia. rewrite Hsi', Hlow.
        destruct (Z.leb_spec (i + 1) i); [lia|].
        destruct (Z.leb_spec i i); [|lia].
        destruct (Z.ltb_spec i bound); [|lia]. reflexivity.
      * rewrite (Hspec k x) by (rewrite list_lookup_insert_ne; [exact Hk|congruence]).
        f_equal. unfold adaptive_entry.
        destruct (Z.leb_spec (i + 1) (Z.of_nat k)), (Z.leb_spec i (Z.of_nat k));
          try reflexivity; lia.
    + destruct (IH (i + 1) cur) as (out & -> & Hout & Hspec);
        [lia|exact Hlen|lia|lia|].
      exists out. split; [reflexivity|]. split; [exact Hout|].
      intros k x Hk. rewrite (Hspec k x Hk). f_equal. unfold adaptive_entry.
      destruct (Z.leb_spec (i + 1) (Z.of_nat k)), (Z.leb_spec i (Z.of_nat k));
        try reflexivity; try lia.
      assert (k = Z.to_nat i) as -> by lia. rewrite Hsi', Hlow.
      destruct (Z.of_nat (Z.to_nat i) <? bound); reflexivity.
  - exists cur. split; [reflexivity|]. split; [exact Hlen|].
    intros k x Hk. rewrite Hk. f_equal. unfold adaptive_entry.
    destruct (Z.leb_spec i (Z.of_nat k)), (Z.ltb_spec (Z.of_nat k) bound);
      try reflexivity; lia.
Qed.

Lemma adaptive_loop_fuel (bound : Z) (fuel : nat) :
  forall (i : Z) (cur : list float),
    (0 < fuel)%nat -> 0 <= i -> vec_size spectrum < i + Z.of_nat fuel ->
    adaptive_loop M spectrum bound fuel i cur <> OutOfFuel.
Proof.
  induction fuel as [|fuel IH]; intros i cur Hf Hi Hlen; [lia|].
  cbn [adaptive_loop]. destruct (i <? bound); [|discriminate].
  destruct (Z.le_gt_cases (vec_size spectrum) i) as [Hout|Hin].
  - rewrite vec_get_out_of_range by lia. discriminate.
  - destruct (vec_get_in_range spectrum i ltac:(lia)) as [si ->].
    cbn [mbind outcome_bind]. destruct (PrimFloat.ltb si D.c0_3); [|apply IH; lia].
    pose proof (local_average_not_OutOfFuel i).
    destruct (local_average M spectrum i); cbn [mbind outcome_bind];
      [apply IH; lia|discriminate|congruence].
Qed.

Lemma adaptive_pass_not_OutOfFuel : adaptive_pass M spectrum <> OutOfFuel.
Proof. unfold adaptive_pass. apply adaptive_loop_fuel; unfold vec_size; lia. Qed.

End Adaptive.

(** C9 (frame of the adaptive smoothing).  On a spectrum of at least five
    entries one pass returns a spectrum of the same length in which
    - every entry among the first five or the last five positions, and every
      entry that is at or above 0.3, is the entry of the input;
    - every other entry that is strictly below 0.3 is replaced by the
      Gaussian-weighted average of the input over its +/-5 neighbours;
    - an entry that differs from the input is an interior entry that was
      strictly below 0.3. *)
Theorem C9_adaptive_pass_frame (M : libm) (spectrum : list float) :
  5 <= vec_size spectrum ->
  exists out,
    adaptive_pass M spectrum = Done out
    /\ length out = length spectrum
    /\ forall (k : nat) (x : float),
         spectrum !! k = Some x ->
         ((Z.of_nat k < 5 \/ vec_size spectrum - 5 <= Z.of_nat k
           \/ PrimFloat.leb D.c0_3 x = true) ->
          out !! k = Some x)
         /\ (5 <= Z.of_nat k < vec_size spectrum - 5 ->
             PrimFloat.ltb x D.c0_3 = true ->
             out !! k = Some (gaussian_average M spectrum (Z.of_nat k)))
         /\ (out !! k <> Some x ->
             5 <= Z.of_nat k < vec_size spectrum - 5
             /\ PrimFloat.ltb x D.c0_3 = true).
Proof.
  intros Hsize. unfold adaptive_pass. rewrite size_sub_le by lia.
  destruct (adaptive_loop_spec M spectrum (vec_size spectrum - 5)
              (S (length spectrum)) ltac:(lia) 5 spectrum)
    as (out & Hrun & Hlen & Hspec);
    [lia|reflexivity|lia|unfold vec_size; lia|].
  exists out. split; [exact Hrun|]. split; [exact Hlen|].
  intros k x Hk. rewrite (Hspec k x Hk). unfold adaptive_entry.
  rewrite (list_lookup_total_correct _ _ _ Hk).
  destruct (Z.leb_spec 5 (Z.of_nat k)), (Z.ltb_spec (Z.of_nat k) (vec_size spectrum - 5));
    cbn [andb].
  - destruct (PrimFloat.ltb x D.c0_3) eqn:Hlow.
    + split; [|split; [reflexivity|split; [lia|reflexivity]]].
      intros [H'|[H'|H']]; [lia|lia|].
      apply FloatOrder.leb_not_ltb in H'. congruence.
    + split; [reflexivity|]. split; [discriminate|]. intros H'. congruence.
  - split; [reflexivity|]. split; [lia|]. intros H'. congruence.
  - split; [reflexivity|]. split; [lia|]. intros H'. congruence.
  - split; [reflexivity|]. split; [lia|]. intros H'. congruence.
Qed.

(** A witness of C9: index 5 of [low_high_spectrum] is replaced, index 6 is
    kept. *)
Lemma C9_witness :
  5 <= vec_size low_high_spectrum
  /\ exists out,
       adaptive_pass libm_sample low_high_spectrum = Done out
       /\ out !! 6%nat = Some 0.75%float
       /\ out !! 5%nat = Some (gaussian_average libm_sample low_high_spectrum 5).
Proof.
  assert (H : 5 <= vec_size low_high_spectrum) by (vm_compute; discriminate).
  split; [exact H|].
  destruct (C9_adaptive_pass_frame libm_sample low_high_spectrum H)
    as (out & Hrun & _ & Hspec).
  exists out. split; [exact Hrun|]. split.
  - apply (proj1 (Hspec 6%nat 0.75%float eq_refl)).
    right. right. vm_compute. reflexivity.
  - apply (proj1 (proj2 (Hspec 5%nat 0.125%float eq_refl))).
    + vm_compute. split; [discriminate|reflexivity].
    + vm_compute. reflexivity.
Defined.

(** ** Normalisation *)

Lemma normalize_guarded_positive (spectrum : list float) (max_val : float) :
  max_element spectrum = Done max_val -> D.gtb max_val 0 = true ->
  normalize_guarded spectrum
  = Done (map (fun s => PrimFloat.div s max_val) spectrum).
Proof.
  intros Hmax Hpos. unfold normalize_guarded. rewrite Hmax.
  cbn [mbind outcome_bind]. rewrite Hpos. reflexivity.
Qed.

(** With the guard, a spectrum whose maximum is at most zero is returned as
    it is. *)
Lemma normalize_guarded_nonpositive (spectrum : list float) (max_val : float) :
  max_element spectrum = Done max_val -> PrimFloat.leb max_val 0 = true ->
  normalize_guarded spectrum = Done spectrum.
Proof.
  intros Hmax Hle. unfold normalize_guarded. rewrite Hmax.
  cbn [mbind outcome_bind]. unfold D.gtb.
  rewrite (FloatOrder.leb_not_ltb _ _ Hle). reflexivity.
Qed.

(** Without the guard every entry is divided, whatever the maximum is. *)
Lemma normalize_scanner_clean_divides (spectrum : list float) (max_val : float) :
  max_element spectrum = Done max_val ->
  normalize_scanner_clean spectrum
  = Done (map (fun s => PrimFloat.div s max_val) spectrum).
Proof.
  intros Hmax. unfold normalize_scanner_clean. rewrite Hmax. reflexivity.
Qed.

(** A window shorter than 60 samples has no power anywhere in the band
    30..1000: the raw spectrum of scanner_clean.cpp is all zero. *)
Lemma scan_band_short_window (M : libm) (data : list float) :
  vec_size data < 60 -> scan_band M data 30 1000 = zero_spectrum.
Proof.
  intros Hshort. unfold scan_band.
  transitivity (map (fun _ : Z => 0%float) (seqZ 30 (1000 - 30 + 1))).
  - apply map_ext_in. intros wl Hwl. apply list_elem_of_In, elem_of_seqZ in Hwl.
    unfold compute_power.
    destruct (Z.gtb_spec wl (vec_size data ÷ 2)) as [_|Hle]; [reflexivity|].
    exfalso. assert (0 <= vec_size data) by (unfold vec_size; lia).
    Z.to_euclidean_division_equations. lia.
  - vm_compute. reflexivity.
Qed.

(** The stages of the pipeline that do not call the C library keep a zero
    spectrum at zero. *)
Lemma median_filter_zero_spectrum : median_filter zero_spectrum 3 = zero_spectrum.
Proof. vm_compute. reflexivity. Qed.

Lemma enhance_peaks_zero_spectrum : enhance_peaks zero_spectrum 2 = zero_spectrum.
Proof. vm_compute. reflexivity. Qed.

(** C2 (guard of the normalisation).  On a spectrum whose maximum is zero
    the normalisation of scanner_clean.cpp divides every entry by zero and
    yields NaN in every position; the guarded normalisation of the two other
    programs returns the same spectrum unchanged. *)
Theorem C2_scanner_clean_divides_by_zero :
  max_element zero_spectrum = Done 0%float
  /\ normalize_scanner_clean zero_spectrum = Done (replicate 971 nan)
  /\ normalize_guarded zero_spectrum = Done zero_spectrum.
Proof.
  split; [vm_compute; reflexivity|].
  split; vm_compute; reflexivity.
Qed.

(** ** Median filters *)

Section Median.
Context (spectrum : list float).

Lemma slice_empty (lo : Z) : slice spectrum lo lo = [].
Proof.
  unfold slice. cbv zeta.
  destruct (Z.le_gt_cases (Z.min (vec_size spectrum) lo) (Z.max 0 lo)) as [H|H].
  - replace (Z.to_nat _) with 0%nat by lia. reflexivity.
  - assert (vec_size spectrum <= Z.max 0 lo \/ Z.min (vec_size spectrum) lo - Z.max 0 lo <= 0)
      as [H'|H'] by lia; [|replace (Z.to_nat (_ - _)) with 0%nat by lia; reflexivity].
    rewrite drop_ge by (unfold vec_size in H'; lia). apply take_nil.
Qed.

Lemma slice_snoc (lo hi : Z) :
  lo <= hi -> 0 <= hi < vec_size spectrum ->
  slice spectrum lo (hi + 1) = slice spectrum lo hi ++ [spectrum !!! Z.to_nat hi].
Proof.
  intros Hle Hhi. unfold slice. cbv zeta.
  replace (Z.min (vec_size spectrum) (hi + 1)) with (hi + 1) by lia.
  replace (Z.min (vec_size spectrum) hi) with hi by lia.
  replace (Z.to_nat (hi + 1 - Z.max 0 lo)) with (S (Z.to_nat (hi - Z.max 0 lo))) by lia.
  apply take_S_r. rewrite lookup_drop.
  replace (Z.to_nat (Z.max 0 lo) + Z.to_nat (hi - Z.max 0 lo))%nat
    with (Z.to_nat hi) by lia.
  apply list_lookup_lookup_total_lt. unfold vec_size in Hhi. lia.
Qed.

Lemma slice_skip (lo hi : Z) :
  lo <= hi -> hi < 0 \/ vec_size spectrum <= hi ->
  slice spectrum lo (hi + 1) = slice spectrum lo hi.
Proof.
  intros Hle [Hneg|Hbig]; unfold slice; cbv zeta.
  - replace (Z.to_nat (Z.min (vec_size spectrum) (hi + 1) - Z.max 0 lo))
      with 0%nat by (unfold vec_size; lia).
    replace (Z.to_nat (Z.min (vec_size spectrum) hi - Z.max 0 lo))
      with 0%nat by (unfold vec_size; lia).
    reflexivity.
  - replace (Z.min (vec_size spectrum) (hi + 1)) with (vec_size spectrum) by lia.
    replace (Z.min (vec_size spectrum) hi) with (vec_size spectrum) by lia.
    reflexivity.
Qed.

(** The [values] vector of [median_filter] holds the in-bounds window. *)
Lemma median_values_inbounds (window i : Z) :
  0 <= window ->
  median_values spectrum window i = inbounds_window spectrum i window.
Proof.
  intros Hw. unfold median_values, inbounds_window. cbv zeta.
  set (f := fun (values : list float) (j : Z) =>
              if (0 <=? i + j) && (i + j <? vec_size spectrum)
              then values ++ [spectrum !!! Z.to_nat (i + j)] else values).
  assert (forall (len : nat) (a : Z),
            fold_left f (seqZ a (Z.of_nat len)) []
            = slice spectrum (i + a) (i + a + Z.of_nat len)) as Hfold.
  { induction len as [|len IH]; intros a.
    - rewrite Z.add_0_r, slice_empty. reflexivity.
    - rewrite seqZ_S, fold_left_app, IH. cbn [fold_left]. unfold f at 1.
      replace (i + a + Z.of_nat (S len)) with (i + a + Z.of_nat len + 1) by lia.
      replace (i + (a + Z.of_nat len)) with (i + a + Z.of_nat len) by lia.
      destruct (Z.leb_spec 0 (i + a + Z.of_nat len)),
               (Z.ltb_spec (i + a + Z.of_nat len) (vec_size spectrum)); cbn [andb].
      + rewrite slice_snoc by lia. reflexivity.
      + rewrite slice_skip by lia. reflexivity.
      + rewrite slice_skip by lia. reflexivity.
      + rewrite slice_skip by lia. reflexivity. }
  replace (window + window + 1) with (Z.of_nat (Z.to_nat (window + window + 1))) by lia.
  rewrite Hfold. f_equal; lia.
Qed.

Lemma length_median_filter (window : Z) :
  length (median_filter spectrum window) = length spectrum.
Proof.
  unfold median_filter. rewrite length_map, length_seqZ. unfold vec_size. lia.
Qed.

Lemma median_filter_lookup (window : Z) (k : nat) :
  0 <= window -> (k < length spectrum)%nat ->
  median_filter spectrum window !! k
  = Some (upper_median (inbounds_window spectrum (Z.of_nat k) window)).
Proof.
  intros Hw Hk. unfold median_filter. cbv zeta.
  change (map ?f ?l) with (f <$> l). rewrite list_lookup_fmap.
  rewrite lookup_seqZ_lt by (unfold vec_size; lia). cbn [fmap option_fmap option_map].
  rewrite Z.add_0_l, median_values_inbounds by lia. reflexivity.
Qed.

(** The seven values read by the weekly filter at an interior position are
    the full window. *)
Lemma weekly_vals_interior (i : Z) :
  3 <= i -> i + 3 < vec_size spectrum ->
  weekly_vals spectrum 3 i = Done (inbounds_window spectrum i 3).
Proof.
  intros Hlo Hhi. rewrite <- median_values_inbounds by lia.
  unfold weekly_vals, median_values. cbv zeta.
  assert (forall js acc,
            (forall j, j ∈ js -> -3 <= j <= 3) ->
            ofold (fun vals j => s ← vec_get spectrum (size_add_int i j);
                                 Done (vals ++ [s])) js acc
            = Done (fold_left
                      (fun values j =>
                         if (0 <=? i + j) && (i + j <? vec_size spectrum)
                         then values ++ [spectrum !!! Z.to_nat (i + j)]
                         else values) js acc)) as Hfold.
  { induction js as [|j js IH]; intros acc Hjs; [reflexivity|].
    cbn [ofold fold_left].
    pose proof (Hjs j ltac:(apply elem_of_cons; auto)) as Hj.
    rewrite size_add_int_nonneg by lia.
    destruct (vec_get_in_range spectrum (i + j) ltac:(lia)) as [s Hs].
    rewrite Hs. cbn [mbind outcome_bind].
    apply vec_get_Done in Hs as [_ Hs].
    rewrite (list_lookup_total_correct _ _ _ Hs).
    destruct (Z.leb_spec 0 (i + j)); [|lia].
    destruct (Z.ltb_spec (i + j) (vec_size spectrum)); [|lia]. cbn [andb].
    apply IH. intros j' Hj'. apply Hjs. apply elem_of_cons. auto. }
  apply Hfold. intros j Hj. apply elem_of_seqZ in Hj. lia.
Qed.

Lemma weekly_vals_not_OutOfFuel (i : Z) : weekly_vals spectrum 3 i <> OutOfFuel.
Proof.
  unfold weekly_vals.
  assert (forall js acc,
            ofold (fun vals j => s ← vec_get spectrum (size_add_int i j);
                                 Done (vals ++ [s])) js acc <> OutOfFuel) as Hfuel.
  { induction js as [|j js IH]; intros acc; [discriminate|].
    cbn [ofold]. pose proof (vec_get_not_OutOfFuel spectrum (size_add_int i j)).
    destruct (vec_get spectrum (size_add_int i j)); cbn [mbind outcome_bind];
      [apply IH|discriminate|congruence]. }
  apply Hfuel.
Qed.

Lemma weekly_vals_out_of_range (i : Z) (vals : list float) :
  vec_size spectrum <= i -> weekly_vals spectrum 3 i <> Done vals.
Proof.
  intros Hi. unfold weekly_vals.
  assert (forall js acc vals,
            0 ∈ js ->
            ofold (fun vals j => s ← vec_get spectrum (size_add_int i j);
                                 Done (vals ++ [s])) js acc <> Done vals) as Hdone.
  { induction js as [|j js IH]; intros acc vals' Hin.
    - apply elem_of_nil in Hin. contradiction.
    - cbn [ofold]. apply elem_of_cons in Hin as [<-|Hin].
      + rewrite size_add_int_nonneg by (unfold vec_size in Hi; lia).
        rewrite Z.add_0_r, vec_get_out_of_range by lia. discriminate.
      + destruct (vec_get spectrum (size_add_int i j)); cbn [mbind outcome_bind];
          [apply IH; exact Hin|discriminate..]. }
  apply Hdone. apply elem_of_seqZ. lia.
Qed.

Lemma weekly_median_loop_spec (bound : Z) (fuel : nat) :
  bound + 3 <= vec_size spectrum ->
  forall (i : Z) (cur : list float),
    3 <= i -> length cur = length spectrum ->
    (0 < fuel)%nat -> bound - i < Z.of_nat fuel ->
    exists out,
      weekly_median_loop spectrum 3 bound fuel i cur = Done out
      /\ length out = length spectrum
      /\ forall (k : nat) (x : float),
           cur !! k = Some x -> out !! k = Some (weekly_entry spectrum i bound k x).
Proof.
  intros Hbound. induction fuel as [|fuel IH]; intros i cur Hi Hlen Hpos Hf; [lia|].
  cbn [weekly_median_loop]. destruct (Z.ltb_spec i bound) as [Hlt|Hge].
  - rewrite weekly_vals_interior by lia. cbn [mbind outcome_bind].
    fold (upper_median (inbounds_window spectrum i 3)).
    destruct (IH (i + 1)
                (<[Z.to_nat i := upper_median (inbounds_window spectrum i 3)]> cur))
      as (out & -> & Hout & Hspec);
      [lia|rewrite length_insert; exact Hlen|lia|lia|].
    exists out. split; [reflexivity|]. split; [exact Hout|].
    intros k x Hk. destruct (decide (k = Z.to_nat i)) as [->|Hne].
    + rewrite (Hspec _ (upper_median (inbounds_window spectrum i 3))).
      2:{ apply list_lookup_insert_eq. apply lookup_lt_Some in Hk. exact Hk. }
      f_equal. unfold weekly_entry. rewrite Z2Nat.id by lia.
      destruct (Z.leb_spec (i + 1) i); [lia|].
      destruct (Z.leb_spec i i); [|lia].
      destruct (Z.ltb_spec i bound); [|lia]. reflexivity.
    + rewrite (Hspec k x) by (rewrite list_lookup_insert_ne; [exact Hk|congruence]).
      f_equal. unfold weekly_entry.
      destruct (Z.leb_spec (i + 1) (Z.of_nat k)), (Z.leb_spec i (Z.of_nat k));
        try reflexivity; lia.
  - exists cur. split; [reflexivity|]. split; [exact Hlen|].
    intros k x Hk. rewrite Hk. f_equal. unfold weekly_entry.
    destruct (Z.leb_spec i (Z.of_nat k)), (Z.ltb_spec (Z.of_nat k) bound);
      try reflexivity; lia.
Qed.

Lemma weekly_median_loop_fuel (bound : Z) (fuel : nat) :
  forall (i : Z) (cur : list float),
    (0 < fuel)%nat -> 0 <= i -> vec_size spectrum < i + Z.of_nat fuel ->
    weekly_median_loop spectrum 3 bound fuel i cur <> OutOfFuel.
Proof.
  induction fuel as [|fuel IH]; intros i cur Hf Hi Hlen; [lia|].
  cbn [weekly_median_loop]. destruct (i <? bound); [|discriminate].
  pose proof (weekly_vals_not_OutOfFuel i) as H1.
  destruct (Z.le_gt_cases (vec_size spectrum) i) as [Hout|Hin].
  - pose proof (fun vals => weekly_vals_out_of_range i vals Hout) as H2.
    destruct (weekly_vals spectrum 3 i) as [vals| |]; cbn [mbind outcome_bind];
      [exfalso; exact (H2 vals eq_refl)|discriminate|congruence].
  - destruct (weekly_vals spectrum 3 i) as [vals| |]; cbn [mbind outcome_bind];
      [apply IH; lia|discriminate|congruence].
Qed.

Lemma weekly_median_not_OutOfFuel : weekly_median spectrum <> OutOfFuel.
Proof.
  unfold weekly_median. cbv zeta.
  apply weekly_median_loop_fuel; unfold vec_size; lia.
Qed.

End Median.

(** ** The rolling analysis *)

Lemma length_smooth_spectrum (M : libm) (spectrum : list float) (window : Z) :
  length (smooth_spectrum M spectrum window) = length spectrum.
Proof.
  unfold smooth_spectrum. rewrite length_map, length_seqZ. unfold vec_size. lia.
Qed.

Lemma length_enhance_peaks (spectrum : list float) (factor : float) :
  length (enhance_peaks spectrum factor) = length spectrum.
Proof. unfold enhance_peaks. apply length_map. Qed.

Lemma length_scan_band (M : libm) (data : list float) (lo hi : Z) :
  length (scan_band M data lo hi) = Z.to_nat (hi - lo + 1).
Proof. unfold scan_band. rewrite length_map. apply length_seqZ. Qed.

Lemma normalize_guarded_defined (spectrum : list float) :
  (0 < length spectrum)%nat ->
  exists out, normalize_guarded spectrum = Done out
              /\ length out = length spectrum.
Proof.
  intros Hlen. destruct spectrum as [|first rest]; [cbn in Hlen; lia|].
  unfold normalize_guarded. cbn [max_element mbind outcome_bind].
  eexists. split; [reflexivity|].
  match goal with |- context [D.gtb ?m 0] => destruct (D.gtb m 0) end;
    [apply length_map|reflexivity].
Qed.

Lemma adaptive_pass_defined (M : libm) (spectrum : list float) :
  5 <= vec_size spectrum ->
  exists out, adaptive_pass M spectrum = Done out
              /\ length out = length spectrum.
Proof.
  intros Hsize. unfold adaptive_pass. rewrite size_sub_le by lia.
  destruct (adaptive_loop_spec M spectrum (vec_size spectrum - 5)
              (S (length spectrum)) ltac:(lia) 5 spectrum)
    as (out & Hrun & Hlen & _);
    [lia|reflexivity|lia|unfold vec_size; lia|].
  eauto.
Qed.

Lemma weekly_median_defined (spectrum : list float) :
  3 <= vec_size spectrum ->
  exists out, weekly_median spectrum = Done out
              /\ length out = length spectrum.
Proof.
  intros Hsize. unfold weekly_median. cbv zeta. rewrite size_sub_le by lia.
  destruct (weekly_median_loop_spec spectrum (vec_size spectrum - 3)
              (S (length spectrum)) ltac:(lia) 3 spectrum)
    as (out & Hrun & Hlen & _);
    [lia|reflexivity|lia|unfold vec_size; lia|].
  eauto.
Qed.

(** ** The reads of the detrending block *)

Section DetrendReads.
Context {T : Type}.
Context (zero : T) (add sub mul div : T -> T -> T) (of_int : Z -> T)
        (log : T -> T).
Context (prices : list T) (start window : Z).

Lemma regression_sums_read_in_range :
  0 <= start -> start + window <= vec_size prices ->
  regression_sums_read zero add mul of_int log prices start window
  = Done (regression_sums zero add mul of_int log prices start window).
Proof.
  intros Hstart Hend. unfold regression_sums_read, regression_sums.
  generalize (zero, zero, zero, zero).
  assert (Hjs : forall j, j ∈ seqZ 0 window -> 0 <= j < window)
    by (intros j Hj; apply elem_of_seqZ in Hj; lia).
  revert Hjs. generalize (seqZ 0 window) as js.
  induction js as [|j js IH]; intros Hjs acc; [reflexivity|].
  destruct acc as [[[sum_x sum_y] sum_xx] sum_xy]. cbn [ofold fold_left].
  pose proof (Hjs j ltac:(apply elem_of_cons; auto)) as Hj.
  destruct (vec_get_in_range prices (start + j) ltac:(lia)) as [p Hp].
  rewrite Hp. cbn [mbind outcome_bind].
  apply vec_get_Done in Hp as [_ Hp].
  assert (Hlog : log_price zero log prices start j = log p)
    by (unfold log_price; rewrite Hp; reflexivity).
  cbv beta iota zeta. rewrite Hlog.
  apply IH. intros j' Hj'. apply Hjs. apply elem_of_cons. auto.
Qed.

(** A window inside the vector: the block reads it and computes [detrend]. *)
Lemma detrend_read_in_range :
  0 <= start -> start + window <= vec_size prices ->
  detrend_read zero add sub mul div of_int log prices start window
  = Done (detrend zero add sub mul div of_int log prices start window).
Proof.
  intros Hstart Hend. unfold detrend_read, detrend, regression_line.
  rewrite regression_sums_read_in_range by assumption.
  cbn [mbind outcome_bind].
  destruct (regression_sums _ _ _ _ _ _ _ _) as [[[sum_x sum_y] sum_xx] sum_xy].
  cbv iota beta zeta.
  assert (Hjs : forall j, j ∈ seqZ 0 window -> 0 <= j < window)
    by (intros j Hj; apply elem_of_seqZ in Hj; lia).
  revert Hjs. generalize (seqZ 0 window) as js.
  induction js as [|j js IH]; intros Hjs; [reflexivity|].
  cbn [omap map].
  pose proof (Hjs j ltac:(apply elem_of_cons; auto)) as Hj.
  destruct (vec_get_in_range prices (start + j) ltac:(lia)) as [p Hp].
  rewrite Hp. cbn [mbind outcome_bind].
  apply vec_get_Done in Hp as [_ Hp].
  assert (Hlog : log_price zero log prices start j = log p)
    by (unfold log_price; rewrite Hp; reflexivity).
  rewrite Hlog.
  rewrite IH by (intros j' Hj'; apply Hjs; apply elem_of_cons; auto).
  reflexivity.
Qed.

(** A non-empty window that leaves the vector: the first loop reads out of
    bounds. *)
Lemma detrend_read_out_of_range :
  0 < window -> start < 0 \/ vec_size prices < start + window ->
  detrend_read zero add sub mul div of_int log prices start window
  = Undefined.
Proof.
  intros Hwindow Hout. unfold detrend_read.
  enough (regression_sums_read zero add mul of_int log prices start window
          = Undefined) as -> by reflexivity.
  unfold regression_sums_read. generalize (zero, zero, zero, zero).
  assert (Hbad : exists j, j ∈ seqZ 0 window
                           /\ vec_get prices (start + j) = Undefined).
  { destruct Hout as [Hneg|Hbig].
    - exists 0. split; [apply elem_of_seqZ; lia|].
      unfold vec_get. destruct (Z.ltb_spec (start + 0) 0); [reflexivity|lia].
    - exists (window - 1). split; [apply elem_of_seqZ; lia|].
      apply vec_get_out_of_range. lia. }
  revert Hbad. generalize (seqZ 0 window) as js.
  induction js as [|j js IH]; intros (j0 & Hin & Hj0) acc.
  - apply elem_of_nil in Hin. contradiction.
  - destruct acc as [[[sum_x sum_y] sum_xx] sum_xy]. cbn [ofold].
    pose proof (vec_get_not_OutOfFuel prices (start + j)) as Hfuel.
    destruct (vec_get prices (start + j)) as [p| |] eqn:Hp;
      cbn [mbind outcome_bind]; [|reflexivity|congruence].
    apply IH. exists j0. split; [|exact Hj0].
    apply elem_of_cons in Hin as [->|Hin]; [congruence|exact Hin].
Qed.

End DetrendReads.

Lemma detrend_read_double_in_range (M : libm) (prices : list float)
    (start window : Z) :
  0 <= start -> start + window <= vec_size prices ->
  detrend_read_double M prices start window
  = Done (detrend_double M prices start window).
Proof. apply detrend_read_in_range. Qed.

(** Every analysis of generate_weekly_scanners.cpp yields a peak list. *)
Lemma weekly_analysis_defined (M : libm) (data : list float) :
  exists peaks, weekly_analysis M data = Done peaks.
Proof.
  unfold weekly_analysis, process_spectrum. cbv zeta.
  set (raw := scan_band M _ 100 800).
  assert (Hraw : length raw = 701%nat) by (subst raw; apply length_scan_band).
  destruct (weekly_median_defined raw) as (filtered & -> & Hf);
    [unfold vec_size; lia|].
  cbn [mbind outcome_bind].
  destruct (normalize_guarded_defined
              (smooth_spectrum M (enhance_peaks (smooth_spectrum M filtered 10) 2) 5))
    as (final & -> & Hfinal).
  { rewrite length_smooth_spectrum, length_enhance_peaks, length_smooth_spectrum. lia. }
  cbn [mbind outcome_bind].
  rewrite length_smooth_spectrum, length_enhance_peaks, length_smooth_spectrum in Hfinal.
  apply find_peaks_defined; unfold vec_size, band; rewrite ?length_seqZ; lia.
Qed.

(** A window of generate_weekly_scanners.cpp that lies in the price vector
    yields a peak list. *)
Lemma weekly_window_defined (M : libm) (prices : list float)
    (window_size start_idx : Z) :
  0 <= start_idx -> start_idx + window_size <= vec_size prices ->
  exists peaks, weekly_window M prices window_size start_idx = Done peaks.
Proof.
  intros Hstart Hend. unfold weekly_window.
  rewrite detrend_read_double_in_range by assumption.
  apply weekly_analysis_defined.
Qed.

(** Every post-processing of simple_heatmap_fixed.cpp on a spectrum of at
    least five entries yields a spectrum of the same length. *)
Lemma heatmap_process_defined (M : libm) (spectrum : list float) :
  5 <= vec_size spectrum ->
  exists out, heatmap_process M spectrum = Done out
              /\ length out = length spectrum.
Proof.
  intros Hsize. unfold heatmap_process, adaptive_smoothing. cbv zeta.
  set (s4 := smooth_spectrum M _ 5).
  assert (Hs4 : length s4 = length spectrum).
  { subst s4. rewrite length_smooth_spectrum, length_enhance_peaks,
      length_smooth_spectrum, length_median_filter. reflexivity. }
  destruct (adaptive_pass_defined M s4) as (p1 & Hp1 & Hl1); [unfold vec_size in *; lia|].
  destruct (adaptive_pass_defined M p1) as (p2 & Hp2 & Hl2); [unfold vec_size in *; lia|].
  rewrite Hp1. cbn [mbind outcome_bind]. rewrite Hp2. cbn [mbind outcome_bind].
  destruct (normalize_guarded_defined p2) as (out & -> & Hout);
    [unfold vec_size in *; lia|].
  exists out. split; [reflexivity|]. congruence.
Qed.

(** A window of simple_heatmap_fixed.cpp that lies in the price vector
    yields a spectrum of 701 entries. *)
Lemma heatmap_window_defined (M : libm) (prices : list float)
    (window_size start_idx : Z) :
  0 <= start_idx -> start_idx + window_size <= vec_size prices ->
  exists spectrum,
    heatmap_window M prices window_size start_idx = Done spectrum
    /\ length spectrum = 701%nat.
Proof.
  intros Hstart Hend. unfold heatmap_window.
  rewrite detrend_read_double_in_range by assumption.
  cbn [mbind outcome_bind].
  destruct (heatmap_process_defined M
              (scan_band M (detrend_double M prices start_idx window_size) 100 800))
    as (out & Hrun & Hlen).
  { unfold vec_size. rewrite length_scan_band. lia. }
  exists out. split; [exact Hrun|]. rewrite Hlen. apply length_scan_band.
Qed.

(** A loop that pushes one result per element that is not skipped. *)
Lemma ofold_push {A B : Type} (skip : B -> bool) (g : B -> outcome A)
    (l : list B) :
  (forall b, b ∈ l -> skip b = false -> exists a, g b = Done a) ->
  forall acc,
    exists results,
      ofold (fun acc b => if skip b then Done acc
                          else a ← g b; Done (acc ++ [a])) l acc
      = Done (acc ++ results)
      /\ Forall2 (fun b a => g b = Done a)
                 (filter (fun b => negb (skip b)) l) results.
Proof.
  induction l as [|b l IH]; intros Hg acc.
  - exists []. rewrite app_nil_r. split; [reflexivity|constructor].
  - assert (Hl : forall b', b' ∈ l -> skip b' = false -> exists a, g b' = Done a)
      by (intros b' Hb'; apply Hg; apply elem_of_cons; auto).
    cbn [ofold]. rewrite filter_cons. destruct (skip b) eqn:Hb; cbn [negb].
    + cbn [mbind outcome_bind]. rewrite decide_False by (cbn; tauto).
      apply IH. exact Hl.
    + destruct (Hg b ltac:(apply elem_of_cons; auto) Hb) as [a Ha].
      rewrite Ha. cbn [mbind outcome_bind].
      destruct (IH Hl (acc ++ [a])) as (results & -> & HF).
      rewrite decide_True by (cbn; tauto).
      exists (a :: results). rewrite <- app_assoc. split; [reflexivity|].
      constructor; assumption.
Qed.

(** A loop that pushes one result per element, a placeholder for the
    skipped ones. *)
Lemma ofold_push_placeholder {A B : Type} (skip : B -> bool) (g : B -> outcome A)
    (placeholder : A) (l : list B) :
  (forall b, b ∈ l -> skip b = false -> exists a, g b = Done a) ->
  forall acc,
    exists results,
      ofold (fun acc b => if skip b then Done (acc ++ [placeholder])
                          else a ← g b; Done (acc ++ [a])) l acc
      = Done (acc ++ results)
      /\ Forall2 (fun b a => if skip b then a = placeholder else g b = Done a)
                 l results.
Proof.
  induction l as [|b l IH]; intros Hg acc.
  - exists []. rewrite app_nil_r. split; [reflexivity|constructor].
  - assert (Hl : forall b', b' ∈ l -> skip b' = false -> exists a, g b' = Done a)
      by (intros b' Hb'; apply Hg; apply elem_of_cons; auto).
    cbn [ofold]. destruct (skip b) eqn:Hb.
    + cbn [mbind outcome_bind].
      destruct (IH Hl (acc ++ [placeholder])) as (results & -> & HF).
      exists (placeholder :: results). rewrite <- app_assoc.
      split; [reflexivity|]. constructor; [rewrite Hb; reflexivity|assumption].
    + destruct (Hg b ltac:(apply elem_of_cons; auto) Hb) as [a Ha].
      rewrite Ha. cbn [mbind outcome_bind].
      destruct (IH Hl (acc ++ [a])) as (results & -> & HF).
      exists (a :: results). rewrite <- app_assoc. split; [reflexivity|].
      constructor; [rewrite Hb; exact Ha|assumption].
Qed.

(** The windows of the two rolling loops that are not skipped lie in the
    price vector. *)
Lemma rolling_window_in_range (S W week : Z) :
  0 <= week -> (S - week * 5 - W <? 0) = false ->
  0 <= S - week * 5 - W /\ S - week * 5 - W + W <= S.
Proof. intros Hweek Hskip. apply Z.ltb_ge in Hskip. lia. Qed.

Lemma weekly_loop_defined (M : libm) (prices : list float) (W T : Z) :
  forall week,
    week ∈ seqZ 0 (T + 1) ->
    (vec_size prices - week * 5 - W <? 0) = false ->
    exists peaks,
      weekly_window M prices W (vec_size prices - week * 5 - W) = Done peaks.
Proof.
  intros week Hweek Hskip. apply elem_of_seqZ in Hweek.
  destruct (rolling_window_in_range (vec_size prices) W week ltac:(lia) Hskip).
  apply weekly_window_defined; assumption.
Qed.

Lemma heatmap_loop_defined (M : libm) (prices : list float) (W T : Z) :
  forall week,
    week ∈ seqZ 0 (T + 1) ->
    (vec_size prices - week * 5 - W <? 0) = false ->
    exists spectrum,
      heatmap_window M prices W (vec_size prices - week * 5 - W) = Done spectrum.
Proof.
  intros week Hweek Hskip. apply elem_of_seqZ in Hweek.
  destruct (rolling_window_in_range (vec_size prices) W week ltac:(lia) Hskip).
  destruct (heatmap_window_defined M prices W (vec_size prices - week * 5 - W))
    as (spectrum & Hrun & _); [assumption..|].
  eauto.
Qed.

(** C4 (rolling analysis), as the code has it.  generate_weekly_scanners.cpp
    pushes exactly one peak list for each offset [k] in [0 .. M] with
    [S - 5k - W >= 0], in increasing order of [k], and nothing for the other
    offsets.  simple_heatmap_fixed.cpp pushes one entry for every offset in
    [0 .. M]: the processed spectrum when [S - 5k - W >= 0], and a vector of
    701 zeros in place of an offset without enough history. *)
Theorem C4_rolling_window_outputs (M : libm) (prices : list float) (W T : Z) :
  0 < W -> 0 <= T ->
  let S := vec_size prices in
  (exists all_peaks,
     weekly_scanners M prices W T = Done all_peaks
     /\ Forall2 (fun k peaks => weekly_window M prices W (S - 5 * k - W) = Done peaks)
                (filter (fun k => 0 <= S - 5 * k - W) (offsets T)) all_peaks)
  /\ (exists all_spectra,
        heatmap_spectra M prices W T = Done all_spectra
        /\ length all_spectra = Z.to_nat (T + 1)
        /\ Forall2 (fun k spectrum =>
                      if decide (0 <= S - 5 * k - W)
                      then heatmap_window M prices W (S - 5 * k - W) = Done spectrum
                      else spectrum = heatmap_placeholder)
                   (offsets T) all_spectra).
Proof.
  intros HW HT S. split.
  - unfold weekly_scanners. cbv zeta. fold S.
    pose proof (weekly_loop_defined M prices W T) as Hdef. fold S in Hdef.
    destruct (ofold_push
                (fun week => S - week * 5 - W <? 0)
                (fun week => weekly_window M prices W (S - week * 5 - W))
                (seqZ 0 (T + 1)) Hdef [])
      as (results & Hrun & HF).
    exists results. split; [exact Hrun|].
    unfold offsets.
    rewrite (list_filter_iff (fun k => 0 <= S - 5 * k - W)
               (fun b => negb (S - b * 5 - W <? 0))).
    2:{ intros k. destruct (Z.ltb_spec (S - k * 5 - W) 0); cbn; split; intros; lia || tauto. }
    eapply Forall2_impl; [exact HF|].
    intros k peaks Hk. cbv beta in Hk.
    replace (S - 5 * k - W) with (S - k * 5 - W) by lia. exact Hk.
  - unfold heatmap_spectra. cbv zeta. fold S.
    pose proof (heatmap_loop_defined M prices W T) as Hdef. fold S in Hdef.
    destruct (ofold_push_placeholder
                (fun week => S - week * 5 - W <? 0)
                (fun week => heatmap_window M prices W (S - week * 5 - W))
                heatmap_placeholder (seqZ 0 (T + 1)) Hdef [])
      as (results & Hrun & HF).
    exists results. split; [exact Hrun|]. split.
    + rewrite <- (Forall2_length _ _ _ HF). apply length_seqZ.
    + unfold offsets. eapply Forall2_impl; [exact HF|].
      intros k spectrum Hk. cbv beta in Hk.
      destruct (Z.ltb_spec (S - k * 5 - W) 0); destruct (decide (0 <= S - 5 * k - W));
        try lia; [exact Hk|].
      replace (S - 5 * k - W) with (S - k * 5 - W) by lia. exact Hk.
Qed.

(** A witness of C4 on the constants of the two programs. *)
Lemma C4_witness :
  0 < 4000 /\ 0 <= 260
  /\ (exists all_peaks, generate_weekly_scanners libm_sample short_prices = Done all_peaks)
  /\ (exists all_spectra,
        simple_heatmap_fixed libm_sample short_prices = Done all_spectra
        /\ length all_spectra = 261%nat).
Proof.
  assert (H1 : 0 < 4000) by lia. assert (H2 : 0 <= 260) by lia.
  split; [exact H1|]. split; [exact H2|].
  destruct (C4_rolling_window_outputs libm_sample short_prices 4000 260 H1 H2)
    as [(all_peaks & Hp & _) (all_spectra & Hs & Hlen & _)].
  split; [exists all_peaks; exact Hp|].
  exists all_spectra. split; [exact Hs|exact Hlen].
Defined.

(** Counterexample to C4 as stated.  On a series of three prices no offset
    has enough history for a window of 4000 bars: generate_weekly_scanners.cpp
    produces nothing, but simple_heatmap_fixed.cpp produces 261 placeholder
    spectra, one per offset. *)
Lemma C4_counterexample :
  filter (fun k => 0 <= vec_size short_prices - 5 * k - 4000) (offsets 260) = []
  /\ generate_weekly_scanners libm_sample short_prices = Done []
  /\ simple_heatmap_fixed libm_sample short_prices
     = Done (replicate 261 heatmap_placeholder).
Proof.
  split; [vm_compute; reflexivity|].
  split; vm_compute; reflexivity.
Qed.

(** ** Detrending *)

Section Regression.
Open Scope R_scope.

Lemma sumZ_ext (f g : Z -> R) (n : nat) :
  (forall k, (0 <= k < Z.of_nat n)%Z -> f k = g k) -> sumZ f n = sumZ g n.
Proof.
  induction n as [|n IH]; intros H; [reflexivity|].
  cbn [sumZ]. rewrite IH by (intros k Hk; apply H; lia).
  rewrite (H (Z.of_nat n)) by lia. reflexivity.
Qed.

Lemma sumZ_plus (f g : Z -> R) (n : nat) :
  sumZ (fun k => f k + g k) n = sumZ f n + sumZ g n.
Proof. induction n as [|n IH]; cbn [sumZ]; [|rewrite IH]; ring. Qed.

Lemma sumZ_scale (c : R) (f : Z -> R) (n : nat) :
  sumZ (fun k => c * f k) n = c * sumZ f n.
Proof. induction n as [|n IH]; cbn [sumZ]; [|rewrite IH]; ring. Qed.

Lemma sumZ_const (c : R) (n : nat) : sumZ (fun _ => c) n = INR n * c.
Proof.
  induction n as [|n IH]; [cbn; ring|].
  cbn [sumZ]. rewrite IH, S_INR. ring.
Qed.

(** [0 + 1 + ... + (n-1)] *)
Lemma sumZ_index (n : nat) : sumZ IZR n = INR n * (INR n - 1) / 2.
Proof.
  induction n as [|n IH]; [cbn; field|].
  cbn [sumZ]. rewrite IH, S_INR, <- INR_IZR_INZ. field.
Qed.

(** [0^2 + 1^2 + ... + (n-1)^2] *)
Lemma sumZ_index_square (n : nat) :
  sumZ (fun k => IZR (k * k)) n = (INR n - 1) * INR n * (2 * INR n - 1) / 6.
Proof.
  induction n as [|n IH]; [cbn; field|].
  cbn [sumZ]. rewrite IH, S_INR, mult_IZR, <- INR_IZR_INZ. field.
Qed.

(** The denominator of the slope does not vanish on two or more points. *)
Lemma regression_denominator_positive (n : nat) :
  (2 <= n)%nat ->
  0 < INR n * sumZ (fun k => IZR (k * k)) n - sumZ IZR n * sumZ IZR n.
Proof.
  intros Hn. rewrite sumZ_index, sumZ_index_square.
  assert (2 <= INR n) by (apply (le_INR 2); exact Hn).
  replace (INR n * ((INR n - 1) * INR n * (2 * INR n - 1) / 6)
           - INR n * (INR n - 1) / 2 * (INR n * (INR n - 1) / 2))
    with (INR n * INR n * (INR n - 1) * (INR n + 1) / 12) by field.
  apply Rdiv_lt_0_compat; [|lra].
  repeat apply Rmult_lt_0_compat; lra.
Qed.

Lemma sum_reals_snoc (l : list R) (x : R) : sum_reals (l ++ [x]) = sum_reals l + x.
Proof.
  unfold sum_reals. induction l as [|y l IH]; cbn; [ring|].
  fold (sum_reals (l ++ [x])) in *. cbn in IH. rewrite IH. ring.
Qed.

Lemma sum_reals_map_seqZ (f : Z -> R) (n : nat) :
  sum_reals (map f (seqZ 0 (Z.of_nat n))) = sumZ f n.
Proof.
  induction n as [|n IH]; [reflexivity|].
  rewrite seqZ_S, map_app. cbn [map]. rewrite sum_reals_snoc, IH. cbn [sumZ].
  rewrite Z.add_0_l. reflexivity.
Qed.

Lemma zip_with_map_same {A B C : Type} (f : A -> B -> C) (g : A -> B) (l : list A) :
  zip_with f l (map g l) = map (fun a => f a (g a)) l.
Proof. induction l as [|a l IH]; cbn; [reflexivity|f_equal; exact IH]. Qed.

(** The sums of the first loop on reals, with
    [y k = log(prices[start + k])]. *)
Lemma regression_sums_real (prices : list R) (start : Z) (n : nat) :
  let y := log_price 0 ln prices start in
  regression_sums 0 Rplus Rmult IZR ln prices start (Z.of_nat n)
  = (sumZ IZR n, sumZ y n, sumZ (fun k => IZR (k * k)) n,
     sumZ (fun k => IZR k * y k) n).
Proof.
  cbv zeta. unfold regression_sums. induction n as [|n IH]; [reflexivity|].
  rewrite seqZ_S, fold_left_app, IH. cbn [fold_left sumZ].
  rewrite Z.add_0_l. reflexivity.
Qed.

End Regression.

Lemma sumZ_residuals (y : Z -> R) (a b : R) (n : nat) :
  (sumZ (fun k => y k - (a + b * IZR k)) n
   = sumZ y n - (INR n * a + b * sumZ IZR n))%R.
Proof.
  induction n as [|n IH]; [cbn; ring|].
  cbn [sumZ]. rewrite IH, S_INR. ring.
Qed.

Lemma sumZ_index_times_residuals (y : Z -> R) (a b : R) (n : nat) :
  (sumZ (fun k => IZR k * (y k - (a + b * IZR k))) n
   = sumZ (fun k => IZR k * y k) n
     - (a * sumZ IZR n + b * sumZ (fun k => IZR (k * k)) n))%R.
Proof.
  induction n as [|n IH]; [cbn; ring|].
  cbn [sumZ]. rewrite IH, mult_IZR. ring.
Qed.

(** C8 (normal equations), in exact arithmetic.  When the detrending block
    is evaluated on real numbers, the residuals of a window of [W > 1]
    prices sum to zero and so do the products of index and residual: the
    residual series is uncorrelated with the time index. *)
Theorem C8_normal_equations_exact (prices : list R) (start W : Z) :
  1 < W ->
  let residuals := detrend_real prices start W in
  length residuals = Z.to_nat W
  /\ sum_reals residuals = 0%R
  /\ sum_reals (zip_with (fun i r => (IZR i * r)%R) (seqZ 0 W) residuals) = 0%R.
Proof.
  intros HW residuals. subst residuals.
  unfold detrend_real, detrend, regression_line.
  replace W with (Z.of_nat (Z.to_nat W)) by lia.
  set (n := Z.to_nat W). assert (Hn : (2 <= n)%nat) by lia.
  rewrite regression_sums_real.
  set (y := log_price 0%R ln prices start).
  set (Sx := sumZ IZR n). set (Sy := sumZ y n).
  set (Sxx := sumZ (fun k => IZR (k * k)) n).
  set (Sxy := sumZ (fun k => (IZR k * y k)%R) n).
  set (b := ((IZR (Z.of_nat n) * Sxy - Sx * Sy)
             / (IZR (Z.of_nat n) * Sxx - Sx * Sx))%R).
  set (a := ((Sy - b * Sx) / IZR (Z.of_nat n))%R).
  pose proof (regression_denominator_positive n Hn) as HD. fold Sxx Sx in HD.
  assert (HN : (2 <= INR n)%R) by (apply (le_INR 2); exact Hn).
  split; [rewrite length_map, length_seqZ; lia|].
  rewrite zip_with_map_same, !sum_reals_map_seqZ.
  rewrite sumZ_residuals, sumZ_index_times_residuals.
  fold Sx Sy Sxx Sxy. subst a b. rewrite <- INR_IZR_INZ.
  split; field; split; lra.
Qed.

(** A witness of C8 on the prices 1, 1, 2. *)
Lemma C8_witness :
  1 < 3 /\ sum_reals (detrend_real [1; 1; 2]%R 0 3) = 0%R.
Proof.
  split; [lia|].
  exact (proj1 (proj2 (C8_normal_equations_exact [1; 1; 2]%R 0 3 ltac:(lia)))).
Defined.

(** Counterexample to C8 as stated.  On doubles, with [log(1) = 0] and
    [log(2) = 0x1.62e42fefa39efp-1], the residuals of the window of prices
    1, 1, 2 are [0x1.d9303fea2f7e8p-4; -0x1.d9303fea2f7eap-3;
    0x1.d9303fea2f7e8p-4]; they sum to [-2^-54], not to zero, and so do the
    products of index and residual. *)
Lemma C8_counterexample :
  detrend_double libm_log12 [1; 1; 2]%float 0 3
  = [0x1.d9303fea2f7e8p-4; -0x1.d9303fea2f7eap-3; 0x1.d9303fea2f7e8p-4]%float
  /\ sum_doubles (detrend_double libm_log12 [1; 1; 2]%float 0 3)
     = (-0x1p-54)%float
  /\ sum_index_times (detrend_double libm_log12 [1; 1; 2]%float 0 3)
     = (-0x1p-54)%float
  /\ PrimFloat.eqb (-0x1p-54) 0 = false.
Proof.
  split; [vm_compute; reflexivity|].
  split; [vm_compute; reflexivity|].
  split; vm_compute; reflexivity.
Qed.

(** ** Zeros in binary64 arithmetic *)

Module FloatZero.

(** A double is zero exactly when it is [+0] or [-0]. *)
Lemma is_zero_cases (x : float) :
  PrimFloat.is_zero x = true -> x = 0%float \/ x = (-0)%float.
Proof.
  unfold PrimFloat.is_zero. rewrite FloatAxioms.eqb_spec.
  change (Prim2SF zero) with (S754_zero false).
  destruct (Prim2SF x) as [s|s| |s m e] eqn:E;
    try (destruct s; discriminate); try discriminate.
  intros _. destruct s; [right|left]; apply Prim2SF_inj; rewrite E; reflexivity.
Qed.

(** A finite double is a zero or a normal or subnormal number. *)
Lemma is_finite_cases (x : float) :
  PrimFloat.is_finite x = true ->
  (exists s, Prim2SF x = S754_zero s) \/ (exists s m e, Prim2SF x = S754_finite s m e).
Proof.
  unfold PrimFloat.is_finite, PrimFloat.is_nan, PrimFloat.is_infinity.
  rewrite !FloatAxioms.eqb_spec, abs_spec.
  change (Prim2SF infinity) with (S754_infinity false).
  destruct (Prim2SF x) as [s|s| |s m e]; cbn; try discriminate; eauto.
  destruct s; discriminate.
Qed.

Lemma mul_finite_zero (w : float) :
  PrimFloat.is_finite w = true -> PrimFloat.is_zero (w * 0) = true.
Proof.
  intros Hw. unfold PrimFloat.is_zero. rewrite FloatAxioms.eqb_spec, mul_spec.
  change (Prim2SF zero) with (S754_zero false).
  destruct (is_finite_cases w Hw) as [[s ->]|(s & m & e & ->)]; reflexivity.
Qed.

Lemma opp_finite (w : float) :
  PrimFloat.is_finite w = true -> PrimFloat.is_finite (- w) = true.
Proof.
  intros Hw. unfold PrimFloat.is_finite, PrimFloat.is_nan, PrimFloat.is_infinity.
  rewrite !FloatAxioms.eqb_spec, abs_spec, opp_spec.
  change (Prim2SF infinity) with (S754_infinity false).
  destruct (is_finite_cases w Hw) as [[s ->]|(s & m & e & ->)]; cbn.
  - reflexivity.
  - unfold SFeqb, SFcompare.
    rewrite Z.compare_refl, Pos.compare_cont_refl. destruct s; reflexivity.
Qed.

Lemma add_zero_zero (a b : float) :
  PrimFloat.is_zero a = true -> PrimFloat.is_zero b = true ->
  PrimFloat.is_zero (a + b) = true.
Proof.
  intros Ha Hb.
  destruct (is_zero_cases a Ha) as [->| ->], (is_zero_cases b Hb) as [->| ->];
    vm_compute; reflexivity.
Qed.

End FloatZero.

(** ** Sums of positive doubles *)

Module FloatPositive.

Lemma digits2_pos_lower (p : positive) :
  2 ^ (Z.pos (digits2_pos p) - 1) <= Z.pos p.
Proof.
  induction p as [p IH|p IH|]; cbn [digits2_pos].
  - rewrite Pos2Z.inj_succ.
    replace (Z.succ (Z.pos (digits2_pos p)) - 1)
      with (Z.succ (Z.pos (digits2_pos p) - 1)) by lia.
    rewrite Z.pow_succ_r by lia. lia.
  - rewrite Pos2Z.inj_succ.
    replace (Z.succ (Z.pos (digits2_pos p)) - 1)
      with (Z.succ (Z.pos (digits2_pos p) - 1)) by lia.
    rewrite Z.pow_succ_r by lia. lia.
  - reflexivity.
Qed.

Lemma shr_1_div2 (r : shr_record) :
  0 <= shr_m r -> shr_m (shr_1 r) = shr_m r / 2.
Proof.
  destruct r as [m rr s]. cbn [shr_m]. intros Hm.
  destruct m as [|[p|p|]|p]; cbn [shr_1 shr_m]; try lia.
  - reflexivity.
  - rewrite Pos2Z.inj_xI. apply Z.div_unique with 1; lia.
  - rewrite Pos2Z.inj_xO. apply Z.div_unique with 0; lia.
  - reflexivity.
Qed.

Lemma iter_shr_1_div (p : positive) :
  forall r : shr_record,
    0 <= shr_m r ->
    shr_m (SpecFloat.iter_pos shr_1 p r) = shr_m r / 2 ^ Z.pos p.
Proof.
  induction p as [p IH|p IH|]; intros r Hr; cbn [SpecFloat.iter_pos].
  - assert (H1 : 0 <= shr_m (shr_1 r))
      by (rewrite shr_1_div2 by exact Hr; apply Z.div_pos; lia).
    assert (H2 : 0 <= shr_m (SpecFloat.iter_pos shr_1 p (shr_1 r)))
      by (rewrite IH by exact H1; apply Z.div_pos; lia).
    rewrite IH by exact H2. rewrite IH by exact H1. rewrite shr_1_div2 by exact Hr.
    assert (E : 2 ^ Z.pos p~1 = 2 * (2 ^ Z.pos p * 2 ^ Z.pos p)).
    { replace (Z.pos p~1) with (1 + Z.pos p + Z.pos p) by lia.
      rewrite !Z.pow_add_r by lia. lia. }
    assert (Hpos : 0 < 2 ^ Z.pos p) by (apply Z.pow_pos_nonneg; lia).
    rewrite E, !Z.div_div by lia. reflexivity.
  - assert (H2 : 0 <= shr_m (SpecFloat.iter_pos shr_1 p r))
      by (rewrite IH by exact Hr; apply Z.div_pos; lia).
    rewrite IH by exact H2. rewrite IH by exact Hr.
    assert (E : 2 ^ Z.pos p~0 = 2 ^ Z.pos p * 2 ^ Z.pos p).
    { replace (Z.pos p~0) with (Z.pos p + Z.pos p) by lia.
      rewrite Z.pow_add_r by lia. reflexivity. }
    assert (Hpos : 0 < 2 ^ Z.pos p) by (apply Z.pow_pos_nonneg; lia).
    rewrite E, Z.div_div by lia. reflexivity.
  - rewrite shr_1_div2 by exact Hr. reflexivity.
Qed.

Lemma shr_m_of_loc (m : Z) (l : location) : shr_m (shr_record_of_loc m l) = m.
Proof. destruct l as [|[]]; reflexivity. Qed.

(** Shifting a positive mantissa to its canonical exponent leaves it
    positive. *)
Lemma shr_fexp_positive (p : positive) (e : Z) (l : location) :
  SpecFloat.emin prec emax <= e ->
  0 < shr_m (fst (shr_fexp prec emax (Z.pos p) e l))
  /\ SpecFloat.emin prec emax <= snd (shr_fexp prec emax (Z.pos p) e l).
Proof.
  intros He. unfold shr_fexp, shr. cbn [Zdigits2].
  pose proof (digits2_pos_lower p) as Hd.
  set (d := Z.pos (digits2_pos p)) in *.
  assert (Hn : fexp prec emax (d + e) - e <= d - 1).
  { unfold fexp, SpecFloat.emin in *. change prec with 53 in *. subst d. lia. }
  destruct (fexp prec emax (d + e) - e) as [|n|n] eqn:En; cbn [fst snd].
  - rewrite shr_m_of_loc. lia.
  - rewrite iter_shr_1_div by (rewrite shr_m_of_loc; lia).
    rewrite shr_m_of_loc. split; [|lia].
    apply Z.div_str_pos. split; [apply Z.pow_pos_nonneg; lia|].
    transitivity (2 ^ (d - 1)); [apply Z.pow_le_mono_r; lia|exact Hd].
  - rewrite shr_m_of_loc. lia.
Qed.

Lemma round_nearest_even_positive (m : Z) (l : location) :
  0 < m -> 0 < round_nearest_even m l.
Proof.
  intros Hm. destruct l as [|[]]; cbn [round_nearest_even]; try lia.
  destruct (Z.even m); lia.
Qed.

Lemma binary_round_aux_positive (p : positive) (e : Z) (l : location) :
  SpecFloat.emin prec emax <= e ->
  SFpositive (binary_round_aux prec emax false (Z.pos p) e l) = true.
Proof.
  intros He. unfold binary_round_aux.
  destruct (shr_fexp_positive p e l He) as [H1 H1e].
  destruct (shr_fexp prec emax (Z.pos p) e l) as [r1 e1]. cbn [fst snd] in H1, H1e.
  pose proof (round_nearest_even_positive (shr_m r1) (loc_of_shr_record r1) H1) as H2.
  destruct (round_nearest_even (shr_m r1) (loc_of_shr_record r1)) as [|p2|p2];
    try lia.
  destruct (shr_fexp_positive p2 e1 loc_Exact H1e) as [H3 _].
  destruct (shr_fexp prec emax (Z.pos p2) e1 loc_Exact) as [r3 e3].
  cbn [fst] in H3.
  destruct (shr_m r3) as [|p3|p3]; try lia.
  destruct (e3 <=? emax - prec); reflexivity.
Qed.

Lemma binary_round_positive (p : positive) (e : Z) :
  SpecFloat.emin prec emax <= e ->
  SFpositive (binary_round prec emax false p e) = true.
Proof.
  intros He. unfold binary_round, shl_align.
  assert (Hf : SpecFloat.emin prec emax <= fexp prec emax (Z.pos (digits2_pos p) + e))
    by (unfold fexp; lia).
  destruct (fexp prec emax (Z.pos (digits2_pos p) + e) - e);
    apply binary_round_aux_positive; assumption.
Qed.

(** The exponent of a valid finite number is at least [emin]. *)
Lemma valid_exponent (s : bool) (m : positive) (e : Z) :
  SpecFloat.valid_binary prec emax (S754_finite s m e) = true -> SpecFloat.emin prec emax <= e.
Proof.
  cbn [SpecFloat.valid_binary]. unfold bounded, canonical_mantissa. intros H.
  apply andb_true_iff in H as [H _]. apply Z.eqb_eq in H.
  unfold fexp in H. lia.
Qed.

Lemma SFadd_positive (x y : spec_float) :
  SpecFloat.valid_binary prec emax x = true -> SpecFloat.valid_binary prec emax y = true ->
  SFnonnegative x = true -> SFpositive y = true ->
  SFpositive (SFadd prec emax x y) = true.
Proof.
  intros Vx Vy Hx Hy.
  destruct x as [[]|[]| |[] mx ex]; try discriminate;
    destruct y as [[]|[]| |[] my ey]; try discriminate; try reflexivity.
  cbn [SFadd cond_Zopp]. unfold binary_normalize.
  apply valid_exponent in Vx, Vy.
  match goal with |- context [(Z.pos ?a + Z.pos ?b)%Z] =>
    change (Z.pos a + Z.pos b)%Z with (Z.pos (a + b)) end.
  apply binary_round_positive. lia.
Qed.

Lemma ltb_zero_SFpositive (x : float) :
  PrimFloat.ltb 0 x = SFpositive (Prim2SF x).
Proof.
  rewrite FloatAxioms.ltb_spec. change (Prim2SF 0) with (S754_zero false).
  destruct (Prim2SF x) as [[]|[]| |[] m e]; reflexivity.
Qed.

(** [a + w > 0] for [a] zero or positive and [w] positive. *)
Lemma add_positive (a w : float) :
  a = 0%float \/ PrimFloat.ltb 0 a = true -> PrimFloat.ltb 0 w = true ->
  PrimFloat.ltb 0 (a + w) = true.
Proof.
  intros Ha Hw. rewrite ltb_zero_SFpositive in Hw |- *. rewrite add_spec.
  apply SFadd_positive; [apply Prim2SF_valid..| |exact Hw].
  destruct Ha as [->|Ha]; [reflexivity|].
  rewrite ltb_zero_SFpositive in Ha. unfold SFnonnegative.
  destruct (Prim2SF a) as [[]|[]| |[] m e]; try discriminate; reflexivity.
Qed.

(** [0 / q = 0] for a positive [q]. *)
Lemma zero_div_positive (q : float) :
  PrimFloat.ltb 0 q = true -> (0 / q)%float = 0%float.
Proof.
  intros Hq. rewrite ltb_zero_SFpositive in Hq.
  apply Prim2SF_inj. rewrite div_spec. change (Prim2SF 0) with (S754_zero false).
  destruct (Prim2SF q) as [[]|[]| |[] m e]; try discriminate; reflexivity.
Qed.

(** [0 * w = 0] for a finite positive [w]. *)
Lemma zero_mul_positive (w : float) :
  PrimFloat.is_finite w = true -> PrimFloat.ltb 0 w = true ->
  (0 * w)%float = 0%float.
Proof.
  intros Hf Hw. rewrite ltb_zero_SFpositive in Hw.
  apply Prim2SF_inj. rewrite mul_spec. change (Prim2SF 0) with (S754_zero false).
  destruct (FloatZero.is_finite_cases w Hf) as [[s E]|(s & m & e & E)];
    rewrite E in Hw |- *; destruct s; try discriminate; reflexivity.
Qed.

(** The conversion of a positive [int] is positive. *)
Lemma of_int_positive (c : Z) :
  1 <= c < 2 ^ 31 -> PrimFloat.ltb 0 (D.of_int c) = true.
Proof.
  intros Hc. rewrite ltb_zero_SFpositive. unfold D.of_int.
  destruct (Z.ltb_spec c 0); [lia|].
  rewrite of_uint63_spec, Uint63.of_Z_spec.
  assert (Hw : Uint63.wB = 2 ^ 63) by reflexivity.
  rewrite Z.mod_small by (rewrite Hw; lia).
  destruct c as [|p|p]; try lia.
  cbn [binary_normalize]. apply binary_round_positive. discriminate.
Qed.

End FloatPositive.

(** ** The power of a zero window *)

Section ZeroWindow.
Context (M : libm).

(** [std::abs] of a complex zero is [+0] (C11 F.10.4.3, [hypot(±0, ±0)]). *)
Hypothesis cabs_zero : forall z, zero_complex z = true -> m_cabs M z = 0%float.

Lemma lookup_total_replicate_zero (n k : nat) :
  (replicate n 0%float) !!! k = 0%float.
Proof.
  rewrite list_lookup_total_alt.
  destruct (replicate n 0%float !! k) as [x|] eqn:E; [|reflexivity].
  apply lookup_replicate in E as [-> _]. reflexivity.
Qed.

Lemma lookup_total_finite (wavelet : list complex) (k : nat) :
  Forall (fun w => finite_complex w = true) wavelet ->
  finite_complex (wavelet !!! k) = true.
Proof.
  intros Hall. rewrite list_lookup_total_alt.
  destruct (wavelet !! k) as [w|] eqn:E; [|reflexivity].
  rewrite Forall_lookup in Hall. exact (Hall k w E).
Qed.

Lemma inner_product_zero_window (n : nat) (wavelet : list complex)
    (N wlen center : Z) :
  Forall (fun w => finite_complex w = true) wavelet ->
  zero_complex (inner_product (replicate n 0%float) wavelet N wlen center) = true.
Proof.
  intros Hfin. unfold inner_product.
  assert (forall js sum,
            zero_complex sum = true ->
            zero_complex
              (fold_left
                 (fun sum i =>
                    let idx := center - wlen ÷ 2 + i in
                    if (0 <=? idx) && (idx <? N)
                    then C.add sum (C.scale (replicate n 0%float !!! Z.to_nat idx)
                                            (C.conj (wavelet !!! Z.to_nat i)))
                    else sum) js sum) = true) as Hfold.
  { induction js as [|j js IH]; intros sum Hsum; [exact Hsum|].
    cbn [fold_left]. apply IH. cbv zeta.
    destruct ((0 <=? center - wlen ÷ 2 + j) && (center - wlen ÷ 2 + j <? N));
      [|exact Hsum].
    rewrite lookup_total_replicate_zero.
    pose proof (lookup_total_finite wavelet (Z.to_nat j) Hfin) as Hw.
    unfold finite_complex in Hw. apply andb_true_iff in Hw as [Hre Him].
    unfold zero_complex in *. apply andb_true_iff in Hsum as [Hs1 Hs2].
    unfold C.add, C.scale, C.conj. cbn [fst snd]. apply andb_true_iff. split.
    - apply FloatZero.add_zero_zero; [exact Hs1|].
      apply FloatZero.mul_finite_zero. exact Hre.
    - apply FloatZero.add_zero_zero; [exact Hs2|].
      apply FloatZero.mul_finite_zero, FloatZero.opp_finite. exact Him. }
  apply Hfold. reflexivity.
Qed.

(** On a window of zeros whose kernel has finite entries, the power
    estimator returns 0. *)
Lemma compute_power_zero_window (n : nat) (P : Z) :
  1 <= P -> Z.of_nat n < 2 ^ 31 ->
  Forall (fun w => finite_complex w = true)
         (create_high_q_morlet M (1 / D.of_int P)%float
            (Z.min (Z.of_nat n) (P * clamp (Z.of_nat n ÷ P) 4 8))) ->
  compute_power M (replicate n 0%float) P = 0%float.
Proof.
  intros HP Hn Hfin. unfold compute_power.
  assert (Hsize : vec_size (replicate n 0%float) = Z.of_nat n)
    by (unfold vec_size; rewrite length_replicate; reflexivity).
  destruct (Z.gtb_spec P (vec_size (replicate n 0%float) ÷ 2)) as [_|Hle];
    [reflexivity|].
  rewrite (power_scan_centers M _ P HP Hle). rewrite Hsize.
  set (L := Z.min (Z.of_nat n) (P * clamp (Z.of_nat n ÷ P) 4 8)) in *.
  set (centers := scan_centers (L ÷ 2) (Z.of_nat n - L ÷ 2) (Z.max 1 (P ÷ 8))).
  rewrite Hsize in Hle.
  pose proof (kernel_length_bounds (Z.of_nat n) P HP Hle) as (HL & HL2 & Hfirst).
  fold (clamp (Z.of_nat n ÷ P) 4 8) in HL, HL2, Hfirst. fold L in HL, HL2, Hfirst.
  assert (Hcount : 1 <= Z.of_nat (length centers) < 2 ^ 31).
  { pose proof (length_scan_centers_le (L ÷ 2) (Z.of_nat n - L ÷ 2)
                  (Z.max 1 (P ÷ 8)) ltac:(lia) Hfirst) as Hlen.
    fold centers in Hlen. split; [|lia].
    subst centers. rewrite scan_centers_cons by lia. cbn [length]. lia. }
  assert (Htotal : forall cs,
            fold_left
              (fun t c =>
                 let z := inner_product (replicate n 0%float)
                            (create_high_q_morlet M (1 / D.of_int P)%float L)
                            (Z.of_nat n) L c in
                 (t + m_cabs M z * m_cabs M z)%float) cs 0%float = 0%float).
  { induction cs as [|c cs IH]; [reflexivity|]. cbn [fold_left]. cbv zeta.
    rewrite cabs_zero by (apply inner_product_zero_window; exact Hfin).
    exact IH. }
  rewrite Htotal.
  destruct (Z.gtb_spec (Z.of_nat (length centers)) 0) as [_|Hc]; [|lia].
  rewrite FloatPositive.zero_div_positive
    by (apply FloatPositive.of_int_positive; exact Hcount).
  reflexivity.
Qed.

End ZeroWindow.

(** The stand-in library satisfies the hypothesis on [std::abs]. *)
Lemma libm_sample_cabs_zero (z : complex) :
  zero_complex z = true -> m_cabs libm_sample z = 0%float.
Proof.
  destruct z as [re im]. unfold zero_complex. cbn [fst snd].
  intros H. apply andb_true_iff in H as [Hre Him].
  destruct (FloatZero.is_zero_cases re Hre) as [->| ->],
           (FloatZero.is_zero_cases im Him) as [->| ->]; vm_compute; reflexivity.
Qed.

(** The zero window of ten samples has no power at the period 2. *)
Lemma compute_power_zero_window_sample :
  compute_power libm_sample (replicate 10 0%float) 2 = 0%float.
Proof.
  apply compute_power_zero_window.
  - exact libm_sample_cabs_zero.
  - lia.
  - lia.
  - apply Forall_forall. intros w Hw.
    assert (Hall : forallb finite_complex
                     (create_high_q_morlet libm_sample (1 / D.of_int 2)%float
                        (Z.min (Z.of_nat 10) (2 * clamp (Z.of_nat 10 ÷ 2) 4 8)))
                   = true) by (vm_compute; reflexivity).
    rewrite forallb_forall in Hall. apply Hall, list_elem_of_In. exact Hw.
Qed.

(** ** Ranges of the [int] values of compute_power *)

(** For [1 <= P <= N/2] the products and sums computed in [int] stay between
    0 and [2 * N]: no signed overflow occurs for windows shorter than
    [2^30] samples. *)
Lemma compute_power_int_range (N P : Z) :
  1 <= P -> P <= N ÷ 2 ->
  let cycles := Z.min 8 (Z.max 4 (N ÷ P)) in
  let wlen := Z.min N (P * cycles) in
  let step := Z.max 1 (P ÷ 8) in
  4 <= cycles <= 8
  /\ 0 <= P * cycles <= 2 * N
  /\ 1 <= step <= N
  /\ forall center, wlen ÷ 2 <= center <= N - wlen ÷ 2 ->
       0 <= center + step <= 2 * N
       /\ forall i, 0 <= i < wlen -> - N <= center - wlen ÷ 2 + i <= 2 * N.
Proof.
  intros HP HN cycles wlen step.
  assert (0 <= N /\ 2 * P <= N) as [HN0 HN2]
    by (Z.to_euclidean_division_equations; lia).
  assert (Hq : P * (N ÷ P) <= N).
  { rewrite Z.quot_div_nonneg by lia. apply Z.mul_div_le. lia. }
  assert (Hs : P ÷ 8 <= P) by (Z.to_euclidean_division_equations; lia).
  assert (Hw : 0 <= wlen ÷ 2 <= wlen)
    by (subst wlen cycles; Z.to_euclidean_division_equations; nia).
  assert (Hc : 4 <= cycles <= 8) by (subst cycles; lia).
  assert (Hpc : 0 <= P * cycles <= 2 * N) by (subst cycles; nia).
  repeat split; try (subst step wlen; lia).
Qed.

(** ** The detrended window of constant prices *)

(** The block depends on [log] only through the logarithms of the prices of
    the window. *)
Lemma detrend_double_log_ext (M M' : libm) (prices : list float) (start window : Z) :
  (forall i, 0 <= i < window ->
     log_price 0%float (m_log M) prices start i
     = log_price 0%float (m_log M') prices start i) ->
  detrend_double M prices start window = detrend_double M' prices start window.
Proof.
  intros Hlog. unfold detrend_double, detrend, regression_line.
  assert (Hsums : regression_sums 0%float PrimFloat.add PrimFloat.mul D.of_int
                    (m_log M) prices start window
                  = regression_sums 0%float PrimFloat.add PrimFloat.mul D.of_int
                      (m_log M') prices start window).
  { unfold regression_sums. apply fold_left_ext_in.
    intros [[[sum_x sum_y] sum_xx] sum_xy] i Hi. apply elem_of_seqZ in Hi.
    rewrite Hlog by lia. reflexivity. }
  rewrite Hsums. clear Hsums.
  destruct (regression_sums _ _ _ _ _ _ _ _) as [[[sum_x sum_y] sum_xx] sum_xy].
  cbv iota beta zeta. apply map_ext_in. intros i Hi. apply list_elem_of_In, elem_of_seqZ in Hi.
  rewrite Hlog by lia. reflexivity.
Qed.

(** With [log(1) = 0], a window of 2000 prices equal to 1 is detrended to
    2000 zeros. *)
Lemma detrend_double_unit_prices (M : libm) :
  m_log M 1%float = 0%float ->
  detrend_double M (replicate 2000 1%float) 0 2000 = replicate 2000 0%float.
Proof.
  intros Hlog.
  rewrite (detrend_double_log_ext M libm_log12).
  - vm_compute. reflexivity.
  - intros i Hi. unfold log_price.
    rewrite lookup_replicate_2 by lia. cbn [default from_option]. cbv [Datatypes.id].
    rewrite Hlog. vm_compute. reflexivity.
Qed.

(** The raw spectrum of scanner_clean.cpp on a window of 2000 zeros is all
    zero, for a C library whose kernels are finite. *)
Lemma scan_band_zero_window (M : libm) :
  (forall z, zero_complex z = true -> m_cabs M z = 0%float) ->
  (forall wl, 30 <= wl <= 1000 ->
     Forall (fun w => finite_complex w = true)
            (create_high_q_morlet M (1 / D.of_int wl)%float
               (Z.min 2000 (wl * clamp (2000 ÷ wl) 4 8)))) ->
  scan_band M (replicate 2000 0%float) 30 1000 = zero_spectrum.
Proof.
  intros Hcabs Hfin. unfold scan_band.
  transitivity (map (fun _ : Z => 0%float) (seqZ 30 (1000 - 30 + 1))).
  - apply map_ext_in. intros wl Hwl. apply list_elem_of_In, elem_of_seqZ in Hwl.
    apply (compute_power_zero_window M Hcabs 2000 wl); [lia|lia|].
    apply Hfin. lia.
  - vm_compute. reflexivity.
Qed.

(** ** Vectors too short for the unsigned loop bounds

    On a spectrum of fewer than 5 (10, 3) entries the bound
    [spectrum.size() - 5] (10, 3) wraps around, the loop is entered and its
    first read is out of bounds. *)

Lemma adaptive_pass_short (M : libm) (spectrum : list float) :
  vec_size spectrum < 5 -> adaptive_pass M spectrum = Undefined.
Proof.
  intros Hshort. unfold adaptive_pass. cbn [adaptive_loop].
  assert (0 <= vec_size spectrum) by (unfold vec_size; lia).
  rewrite size_sub_wrap by (unfold size_t_modulus; lia).
  destruct (Z.ltb_spec 5 (vec_size spectrum - 5 + size_t_modulus)) as [_|Hge];
    [|unfold size_t_modulus in Hge; lia].
  rewrite vec_get_out_of_range by lia. reflexivity.
Qed.

Lemma find_peaks_short (spectrum : list float) (wavelengths : list Z) :
  vec_size spectrum < 10 -> find_peaks spectrum wavelengths = Undefined.
Proof.
  intros Hshort. unfold find_peaks. cbn [find_peaks_loop].
  assert (0 <= vec_size spectrum) by (unfold vec_size; lia).
  rewrite size_sub_wrap by (unfold size_t_modulus; lia).
  destruct (Z.ltb_spec 10 (vec_size spectrum - 10 + size_t_modulus)) as [_|Hge];
    [|unfold size_t_modulus in Hge; lia].
  rewrite (seqZ_cons (-10)) by lia.
  rewrite is_peak_loop_out_of_range by lia. reflexivity.
Qed.

Lemma weekly_median_short (spectrum : list float) :
  vec_size spectrum < 3 -> weekly_median spectrum = Undefined.
Proof.
  intros Hshort. unfold weekly_median. cbv zeta. cbn [weekly_median_loop].
  assert (0 <= vec_size spectrum) by (unfold vec_size; lia).
  rewrite size_sub_wrap by (unfold size_t_modulus; lia).
  destruct (Z.ltb_spec 3 (vec_size spectrum - 3 + size_t_modulus)) as [_|Hge];
    [|unfold size_t_modulus in Hge; lia].
  pose proof (weekly_vals_not_OutOfFuel spectrum 3) as Hfuel.
  pose proof (fun vals => weekly_vals_out_of_range spectrum 3 vals ltac:(lia)) as Hdone.
  destruct (weekly_vals spectrum 3 3) as [vals| |]; cbn [mbind outcome_bind];
    [exfalso; exact (Hdone vals eq_refl)|reflexivity|congruence].
Qed.

(** ** Division of a double by itself *)

Module FloatDiv.

Lemma div_eucl_shift (m : positive) :
  Z.div_eucl (Z.shiftl (Zpos m) 53) (Zpos m) = (2 ^ 53, 0).
Proof.
  rewrite Z.shiftl_mul_pow2 by lia.
  pose proof (Z.div_mul (2 ^ 53) (Zpos m) ltac:(lia)) as Hq.
  pose proof (Z.mod_mul (2 ^ 53) (Zpos m) ltac:(lia)) as Hr.
  rewrite (Z.mul_comm (Zpos m)).
  unfold Z.div, Z.modulo in Hq, Hr.
  destruct (Z.div_eucl (2 ^ 53 * Zpos m) (Zpos m)) as [q r].
  cbn [fst snd] in Hq, Hr. subst. reflexivity.
Qed.

Lemma new_location_zero (nb_steps : Z) : new_location nb_steps 0 = loc_Exact.
Proof.
  unfold new_location, new_location_even, new_location_odd.
  destruct (Z.even nb_steps); reflexivity.
Qed.

(** A finite non-zero number divided by itself is exactly 1. *)
Lemma SFdiv_self (s : bool) (m : positive) (e : Z) :
  SFdiv prec emax (S754_finite s m e) (S754_finite s m e) = Prim2SF 1.
Proof.
  unfold SFdiv, SFdiv_core_binary.
  rewrite !Z.sub_diag.
  change (Z.min (fexp prec emax 0) 0) with (-53).
  change (0 - -53) with 53. cbv iota.
  change (IntDef.Z.div_eucl (IntDef.Z.shiftl (Zpos m) 53) (Zpos m))
    with (Z.div_eucl (Z.shiftl (Zpos m) 53) (Zpos m)).
  rewrite div_eucl_shift, new_location_zero, xorb_nilpotent.
  vm_compute. reflexivity.
Qed.

Lemma div_self (x : float) :
  PrimFloat.is_finite x = true -> PrimFloat.is_zero x = false ->
  (x / x)%float = 1%float.
Proof.
  intros Hfin Hnz. apply Prim2SF_inj. rewrite div_spec.
  destruct (FloatZero.is_finite_cases x Hfin) as [[s Hs]|(s & m & e & Hs)].
  - unfold PrimFloat.is_zero in Hnz. rewrite FloatAxioms.eqb_spec, Hs in Hnz.
    discriminate Hnz.
  - rewrite Hs. apply SFdiv_self.
Qed.

(** A number above [+0] is not a zero. *)
Lemma ltb_zero_not_zero (x : float) :
  PrimFloat.ltb 0 x = true -> PrimFloat.is_zero x = false.
Proof.
  unfold PrimFloat.is_zero. rewrite FloatAxioms.ltb_spec, FloatAxioms.eqb_spec.
  change (Prim2SF 0) with (S754_zero false). change (Prim2SF zero) with (S754_zero false).
  destruct (Prim2SF x) as [s|s| |s m e]; cbn; try discriminate; try reflexivity.
  - destruct s; reflexivity.
  - destruct s; reflexivity.
Qed.

End FloatDiv.

(** ** Maximum and normalisation *)

Lemma max_element_spec (v : list float) (m : float) :
  max_element v = Done m ->
  m ∈ v /\ forall x, x ∈ v -> PrimFloat.ltb m x = false.
Proof.
  destruct v as [|first rest]; [discriminate|]. cbn [max_element]. intros [= <-].
  assert (forall l r,
            (forall x, x ∈ l -> PrimFloat.ltb r x = false) -> r ∈ l ->
            forall rest',
              let m := fold_left
                         (fun result next =>
                            if PrimFloat.ltb result next then next else result)
                         rest' r in
              m ∈ l ++ rest'
              /\ forall x, x ∈ l ++ rest' -> PrimFloat.ltb m x = false) as Hfold.
  { intros l r Hmax Hin rest'. revert l r Hmax Hin.
    induction rest' as [|next rest' IH]; intros l r Hmax Hin; cbn [fold_left].
    - rewrite app_nil_r. auto.
    - replace (l ++ next :: rest') with ((l ++ [next]) ++ rest')
        by (rewrite <- app_assoc; reflexivity).
      destruct (PrimFloat.ltb r next) eqn:Hlt; apply IH.
      + intros x Hx. apply elem_of_app in Hx as [Hx|Hx].
        * destruct (PrimFloat.ltb next x) eqn:Hnx; [|reflexivity].
          specialize (Hmax x Hx).
          rewrite (FloatOrder.ltb_trans r next x Hlt Hnx) in Hmax. discriminate.
        * apply elem_of_cons in Hx as [->|Hx]; [apply FloatOrder.ltb_irrefl|].
          apply elem_of_nil in Hx. contradiction.
      + apply elem_of_app. right. apply elem_of_cons. auto.
      + intros x Hx. apply elem_of_app in Hx as [Hx|Hx]; [auto|].
        apply elem_of_cons in Hx as [->|Hx]; [exact Hlt|].
        apply elem_of_nil in Hx. contradiction.
      + apply elem_of_app. auto. }
  apply (Hfold [first] first).
  - intros x Hx. apply elem_of_cons in Hx as [->|Hx]; [apply FloatOrder.ltb_irrefl|].
    apply elem_of_nil in Hx. contradiction.
  - apply elem_of_cons. auto.
Qed.

(** X1.  When the maximum of a spectrum is finite and greater than zero, the
    two normalisations agree, keep the length, and put the value 1 exactly
    at every position that holds the maximum; there is such a position. *)
Theorem normalized_maximum_is_one (spectrum : list float) (max_val : float) :
  max_element spectrum = Done max_val ->
  PrimFloat.is_finite max_val = true ->
  D.gtb max_val 0 = true ->
  exists out,
    normalize_guarded spectrum = Done out
    /\ normalize_scanner_clean spectrum = Done out
    /\ length out = length spectrum
    /\ (exists k : nat, spectrum !! k = Some max_val)
    /\ (forall k : nat, spectrum !! k = Some max_val -> out !! k = Some 1%float).
Proof.
  intros Hmax Hfin Hpos.
  exists (map (fun s => PrimFloat.div s max_val) spectrum).
  split; [apply normalize_guarded_positive; assumption|].
  split; [apply normalize_scanner_clean_divides; assumption|].
  split; [apply length_map|]. split.
  - apply list_elem_of_lookup. exact (proj1 (max_element_spec _ _ Hmax)).
  - intros k Hk. change (map ?f ?l) with (f <$> l).
    rewrite list_lookup_fmap, Hk. cbn. f_equal.
    apply FloatDiv.div_self; [exact Hfin|].
    apply FloatDiv.ltb_zero_not_zero. exact Hpos.
Qed.

(** X1 on the spectrum [0.5; 2; 1]. *)
Lemma normalized_maximum_is_one_witness :
  exists out,
    normalize_guarded [0.5; 2; 1]%float = Done out
    /\ out !! 1%nat = Some 1%float.
Proof.
  destruct (normalized_maximum_is_one [0.5; 2; 1]%float 2%float)
    as (out & Hg & _ & _ & _ & Hone); try (vm_compute; reflexivity).
  exists out. split; [exact Hg|]. apply Hone. reflexivity.
Defined.

(** X2.  When the maximum of the spectrum is a zero, the unguarded
    normalisation of scanner_clean.cpp turns every zero entry into NaN, for
    a spectrum of any length. *)
Theorem normalize_scanner_clean_zero_maximum (spectrum : list float)
    (max_val : float) :
  max_element spectrum = Done max_val ->
  PrimFloat.is_zero max_val = true ->
  exists out,
    normalize_scanner_clean spectrum = Done out
    /\ length out = length spectrum
    /\ forall (k : nat) (x : float),
         spectrum !! k = Some x -> PrimFloat.is_zero x = true ->
         out !! k = Some nan.
Proof.
  intros Hmax Hzero.
  exists (map (fun s => PrimFloat.div s max_val) spectrum).
  split; [apply normalize_scanner_clean_divides; assumption|].
  split; [apply length_map|].
  intros k x Hk Hx. change (map ?f ?l) with (f <$> l).
  rewrite list_lookup_fmap, Hk. cbn. f_equal.
  destruct (FloatZero.is_zero_cases x Hx) as [->| ->],
           (FloatZero.is_zero_cases max_val Hzero) as [->| ->];
    vm_compute; reflexivity.
Qed.

(** X2 on a spectrum of two zeros of different sign. *)
Lemma normalize_scanner_clean_zero_maximum_witness :
  exists out,
    normalize_scanner_clean [0; -0]%float = Done out
    /\ out !! 1%nat = Some nan.
Proof.
  destruct (normalize_scanner_clean_zero_maximum [0; -0]%float 0%float)
    as (out & Hrun & _ & Hnan); try (vm_compute; reflexivity).
  exists out. split; [exact Hrun|].
  apply (Hnan 1%nat (-0)%float); vm_compute; reflexivity.
Defined.

(** ** The peak scan returns exactly the local peaks *)

Lemma is_peak_loop_value (spectrum : list float) (i : Z) (js : list Z) :
  0 <= i < vec_size spectrum ->
  (forall j, j ∈ js -> 0 <= i + j < vec_size spectrum) ->
  is_peak_loop spectrum i js
  = Done (forallb (fun j => negb (D.gtb (spectrum !!! Z.to_nat (i + j))
                                        (spectrum !!! Z.to_nat i))) js).
Proof.
  intros Hi. induction js as [|j js IH]; intros Hjs; [reflexivity|].
  cbn [is_peak_loop forallb].
  pose proof (Hjs j ltac:(apply elem_of_cons; auto)) as Hj.
  assert (Hrest : forall j', j' ∈ js -> 0 <= i + j' < vec_size spectrum)
    by (intros j' Hj'; apply Hjs; apply elem_of_cons; auto).
  destruct (Z.eqb_spec j 0) as [->|Hne]; cbn [negb].
  - rewrite Z.add_0_r. unfold D.gtb at 1. rewrite FloatOrder.ltb_irrefl.
    cbn [negb andb]. apply IH. exact Hrest.
  - rewrite (IH Hrest). rewrite size_add_int_nonneg by lia.
    destruct (vec_get_in_range spectrum (i + j) Hj) as [a Ha].
    destruct (vec_get_in_range spectrum i Hi) as [b Hb].
    rewrite Ha, Hb. cbn [mbind outcome_bind].
    apply vec_get_Done in Ha as [_ Ha]. apply vec_get_Done in Hb as [_ Hb].
    rewrite (list_lookup_total_correct _ _ _ Ha), (list_lookup_total_correct _ _ _ Hb).
    destruct (D.gtb a b); reflexivity.
Qed.

Lemma find_peaks_loop_exact (spectrum : list float) (wavelengths : list Z)
    (bound : Z) (fuel : nat) :
  bound + 10 <= vec_size spectrum ->
  vec_size spectrum <= vec_size wavelengths ->
  forall (i : Z) (peaks : list peak),
    10 <= i -> (0 < fuel)%nat -> bound - i < Z.of_nat fuel ->
    find_peaks_loop spectrum wavelengths bound fuel i peaks
    = Done (peaks
            ++ map (fun k => (wavelengths !!! Z.to_nat k, spectrum !!! Z.to_nat k))
                   (List.filter (local_peak spectrum) (seqZ i (bound - i)))).
Proof.
  intros Hbound Hw. induction fuel as [|fuel IH]; intros i peaks Hi Hpos Hf; [lia|].
  cbn [find_peaks_loop]. destruct (Z.ltb_spec i bound) as [Hlt|Hge].
  - rewrite (seqZ_cons i) by lia. cbn [List.filter].
    rewrite is_peak_loop_value;
      [|lia|intros j Hj; apply elem_of_seqZ in Hj; lia].
    cbn [mbind outcome_bind]. unfold local_peak at 1.
    destruct (vec_get_in_range spectrum i ltac:(lia)) as [si Hsi].
    destruct (vec_get_in_range wavelengths i ltac:(lia)) as [wl Hwl].
    rewrite Hsi, Hwl.
    apply vec_get_Done in Hsi as [_ Hsi]. apply vec_get_Done in Hwl as [_ Hwl].
    rewrite (list_lookup_total_correct _ _ _ Hsi).
    replace (Z.pred (bound - i)) with (bound - Z.succ i) by lia.
    destruct (forallb _ (seqZ (-10) 21)); cbn [andb mbind outcome_bind].
    + destruct (D.gtb si D.c0_05); cbn [mbind outcome_bind map].
      * rewrite (IH (Z.succ i)) by lia.
        rewrite (list_lookup_total_correct _ _ _ Hwl),
          (list_lookup_total_correct _ _ _ Hsi), <- app_assoc. reflexivity.
      * apply (IH (Z.succ i)); lia.
    + apply (IH (Z.succ i)); lia.
  - rewrite seqZ_nil by lia. cbn [List.filter map]. rewrite app_nil_r. reflexivity.
Qed.

Lemma find_peaks_peaks_of (spectrum : list float) (wavelengths : list Z) :
  10 <= vec_size spectrum -> vec_size spectrum <= vec_size wavelengths ->
  find_peaks spectrum wavelengths = Done (peaks_of spectrum wavelengths).
Proof.
  intros Hs Hw. unfold find_peaks, peaks_of. rewrite size_sub_le by lia.
  rewrite find_peaks_loop_exact by (unfold vec_size in *; lia).
  replace (vec_size spectrum - 10 - 10) with (vec_size spectrum - 20) by lia.
  reflexivity.
Qed.

(** X3.  On a spectrum of at least ten entries (with a period for each of
    them) the scan returns exactly the indices [10 .. size-11] that are a
    local maximum over +/-10 positions with power above 0.05, by increasing
    index; in particular no such index is missed. *)
Theorem find_peaks_exact (spectrum : list float) (wavelengths : list Z) :
  10 <= vec_size spectrum -> vec_size spectrum <= vec_size wavelengths ->
  find_peaks spectrum wavelengths = Done (peaks_of spectrum wavelengths)
  /\ forall i, 10 <= i < vec_size spectrum - 10 ->
       local_peak spectrum i = true ->
       (wavelengths !!! Z.to_nat i, spectrum !!! Z.to_nat i)
       ∈ peaks_of spectrum wavelengths.
Proof.
  intros Hs Hw. split; [apply find_peaks_peaks_of; assumption|].
  intros i Hi Hpeak. unfold peaks_of.
  change (map ?f ?l) with (f <$> l). apply list_elem_of_fmap.
  exists i. split; [reflexivity|].
  apply list_elem_of_In, filter_In. split; [|exact Hpeak].
  apply list_elem_of_In, elem_of_seqZ. lia.
Qed.

(** X3 on the spectrum with one peak. *)
Lemma find_peaks_exact_witness :
  find_peaks one_peak_spectrum (band 30 50) = Done [(40, 1%float)].
Proof.
  rewrite (proj1 (find_peaks_exact one_peak_spectrum (band 30 50)
                    ltac:(vm_compute; discriminate)
                    ltac:(vm_compute; discriminate))).
  reflexivity.
Defined.

(** ** Order and spacing of the peaks *)

Lemma SFeqb_of_not_ltb (x y : spec_float) :
  SFeqb x x = true -> SFeqb y y = true ->
  SFltb x y = false -> SFltb y x = false -> SFeqb x y = true.
Proof.
  unfold SFltb, SFeqb.
  destruct x as [sx|sx| |sx mx ex], y as [sy|sy| |sy my ey]; FloatOrder.sf_cases.
Qed.

(** Two numbers, neither of which is below the other, are equal. *)
Lemma eqb_of_not_ltb (x y : float) :
  PrimFloat.is_nan x = false -> PrimFloat.is_nan y = false ->
  PrimFloat.ltb x y = false -> PrimFloat.ltb y x = false ->
  PrimFloat.eqb x y = true.
Proof.
  unfold PrimFloat.is_nan.
  rewrite !FloatAxioms.ltb_spec, !FloatAxioms.eqb_spec. intros Hx Hy.
  apply SFeqb_of_not_ltb.
  - destruct (SFeqb (Prim2SF x) (Prim2SF x)); [reflexivity|discriminate].
  - destruct (SFeqb (Prim2SF y) (Prim2SF y)); [reflexivity|discriminate].
Qed.

Lemma lookup_band (lo hi : Z) (k : nat) (wl : Z) :
  band lo hi !! k = Some wl -> wl = lo + Z.of_nat k /\ lo + Z.of_nat k <= hi.
Proof. unfold band. intros H. apply lookup_seqZ in H. lia. Qed.

(** X4.  Two peaks the scan returns whose periods differ by at most ten have
    the same power: of two unequal entries within ten positions of each
    other, at most one is reported. *)
Theorem near_peaks_have_equal_power (spectrum : list float) (lo hi : Z)
    (peaks : list peak) (p q : peak) :
  find_peaks spectrum (band lo hi) = Done peaks ->
  p ∈ peaks -> q ∈ peaks ->
  -10 <= fst q - fst p <= 10 ->
  PrimFloat.eqb (snd p) (snd q) = true.
Proof.
  intros Hfind Hp Hq Hnear.
  pose proof (find_peaks_accepted _ _ _ Hfind) as Hall.
  rewrite Forall_forall in Hall.
  destruct (Hall p Hp) as (i & Hi & _ & Hwi & Hsi & Hthr & Hnb).
  destruct (Hall q Hq) as (i' & Hi' & _ & Hwi' & Hsi' & Hthr' & Hnb').
  apply lookup_band in Hwi as [Hwi _]. apply lookup_band in Hwi' as [Hwi' _].
  rewrite Z2Nat.id in Hwi, Hwi' by lia.
  destruct (Hnb (i' - i)) as (a & Ha & Hap); [lia|].
  destruct (Hnb' (i - i')) as (b & Hb & Hbq); [lia|].
  replace (i + (i' - i)) with i' in Ha by lia.
  replace (i' + (i - i')) with i in Hb by lia.
  rewrite Hsi' in Ha. rewrite Hsi in Hb. injection Ha as <-. injection Hb as <-.
  apply FloatOrder.ltb_not_nan in Hthr as [_ Hnp].
  apply FloatOrder.ltb_not_nan in Hthr' as [_ Hnq].
  apply eqb_of_not_ltb; assumption.
Qed.

(** X4 on the two adjacent peaks of [plateau_spectrum]. *)
Lemma near_peaks_have_equal_power_witness :
  find_peaks plateau_spectrum (band 30 51) = Done [(40, 1%float); (41, 1%float)]
  /\ PrimFloat.eqb 1 1 = true.
Proof.
  assert (Hfind : find_peaks plateau_spectrum (band 30 51)
                  = Done [(40, 1%float); (41, 1%float)])
    by (vm_compute; reflexivity).
  split; [exact Hfind|].
  apply (near_peaks_have_equal_power plateau_spectrum 30 51
           [(40, 1%float); (41, 1%float)] (40, 1%float) (41, 1%float) Hfind).
  - apply elem_of_cons. left. reflexivity.
  - apply elem_of_cons. right. apply elem_of_cons. left. reflexivity.
  - cbn. lia.
Defined.

Lemma StronglySorted_seqZ (a n : Z) : StronglySorted Z.lt (seqZ a n).
Proof.
  destruct (Z.le_gt_cases n 0) as [Hn|Hn]; [rewrite seqZ_nil by lia; constructor|].
  replace n with (Z.of_nat (Z.to_nat n)) by lia.
  generalize (Z.to_nat n) as len. clear n Hn. intros len. revert a.
  induction len as [|len IH]; intros a; [constructor|].
  rewrite seqZ_cons by lia. constructor.
  - replace (Z.pred (Z.of_nat (S len))) with (Z.of_nat len) by lia. apply IH.
  - apply Forall_seqZ. intros k Hk. lia.
Qed.

Lemma StronglySorted_filter {A : Type} (R : A -> A -> Prop) (f : A -> bool)
    (l : list A) :
  StronglySorted R l -> StronglySorted R (List.filter f l).
Proof.
  induction 1 as [|a l Hl IH Ha]; cbn [List.filter]; [constructor|].
  destruct (f a); [|exact IH]. constructor; [exact IH|].
  rewrite Forall_forall in Ha |- *. intros x Hx.
  apply Ha. apply list_elem_of_In in Hx. apply filter_In in Hx as [Hx _].
  apply list_elem_of_In. exact Hx.
Qed.

Lemma StronglySorted_map_lt (g : Z -> Z) (l : list Z) :
  (forall x y, x ∈ l -> y ∈ l -> x < y -> g x < g y) ->
  StronglySorted Z.lt l -> StronglySorted Z.lt (map g l).
Proof.
  intros Hg Hl. induction Hl as [|a l Hl IH Ha]; cbn [map]; [constructor|].
  constructor.
  - apply IH. intros x y Hx Hy. apply Hg; apply elem_of_cons; auto.
  - rewrite Forall_forall in Ha. apply Forall_forall. intros y Hy.
    change (map g l) with (g <$> l) in Hy.
    apply list_elem_of_fmap in Hy as (x & -> & Hx).
    apply Hg; [apply elem_of_cons; auto|apply elem_of_cons; auto|apply Ha; exact Hx].
Qed.

(** X5.  When the spectrum has one entry per period of the band
    [lo .. hi], the peaks are listed by strictly increasing period, every
    period lies in [lo+10 .. hi-10] (no peak is reported within ten periods
    of either end of the band), and each power is the spectrum entry of its
    period. *)
Theorem peaks_ordered_by_period (spectrum : list float) (lo hi : Z)
    (peaks : list peak) :
  vec_size spectrum = hi - lo + 1 ->
  find_peaks spectrum (band lo hi) = Done peaks ->
  StronglySorted Z.lt (map fst peaks)
  /\ Forall (fun p => lo + 10 <= fst p <= hi - 10
                      /\ spectrum !! Z.to_nat (fst p - lo) = Some (snd p))
            peaks.
Proof.
  intros Hsize Hfind. split.
  - destruct (Z.lt_ge_cases (vec_size spectrum) 10) as [Hshort|Hlong].
    { rewrite find_peaks_short in Hfind by exact Hshort. discriminate. }
    rewrite find_peaks_peaks_of in Hfind
      by (unfold vec_size, band in *; rewrite ?length_seqZ; lia).
    injection Hfind as <-. unfold peaks_of. rewrite map_map. cbn [fst].
    apply StronglySorted_map_lt;
      [|apply StronglySorted_filter, StronglySorted_seqZ].
    intros x y Hx Hy Hxy.
    apply list_elem_of_In, filter_In in Hx as [Hx _].
    apply list_elem_of_In, filter_In in Hy as [Hy _].
    apply list_elem_of_In, elem_of_seqZ in Hx, Hy.
    unfold band. rewrite !lookup_total_seqZ_lt by lia. lia.
  - pose proof (find_peaks_accepted _ _ _ Hfind) as Hall.
    eapply Forall_impl; [exact Hall|]. cbv beta.
    intros p (i & Hi & Hhi & Hwi & Hsi & _).
    apply lookup_band in Hwi as [Hwi _]. rewrite Z2Nat.id in Hwi by lia.
    rewrite Hwi. split; [lia|].
    replace (lo + i - lo) with i by lia. exact Hsi.
Qed.

(** X5 on [tie_spectrum] and the band of scanner_clean.cpp. *)
Lemma peaks_ordered_by_period_witness :
  StronglySorted Z.lt (map fst [(40, 1%float); (51, 1%float)]).
Proof.
  apply (peaks_ordered_by_period tie_spectrum 30 1000
           [(40, 1%float); (51, 1%float)]).
  - vm_compute. reflexivity.
  - vm_compute. reflexivity.
Defined.

Lemma filter_none {A : Type} (f : A -> bool) (l : list A) :
  (forall x, x ∈ l -> f x = false) -> List.filter f l = [].
Proof.
  induction l as [|a l IH]; intros H; [reflexivity|]. cbn [List.filter].
  rewrite (H a) by (apply elem_of_cons; auto).
  apply IH. intros x Hx. apply H. apply elem_of_cons. auto.
Qed.

(** X6.  A spectrum in which no entry exceeds 0.05 (all zero, or all NaN as
    after the division by a zero maximum) has no peak. *)
Theorem no_peak_below_threshold (spectrum : list float) (wavelengths : list Z) :
  10 <= vec_size spectrum -> vec_size spectrum <= vec_size wavelengths ->
  (forall x, x ∈ spectrum -> D.gtb x D.c0_05 = false) ->
  find_peaks spectrum wavelengths = Done [].
Proof.
  intros Hs Hw Hlow. rewrite find_peaks_peaks_of by assumption. f_equal.
  unfold peaks_of. rewrite filter_none; [reflexivity|].
  intros i Hi. apply elem_of_seqZ in Hi. unfold local_peak.
  rewrite (Hlow (spectrum !!! Z.to_nat i)); [apply andb_false_r|].
  apply list_elem_of_lookup_total_2. unfold vec_size in *. lia.
Qed.

(** X6 on a spectrum of twelve NaN. *)
Lemma no_peak_below_threshold_witness :
  find_peaks (replicate 12 nan) (band 30 41) = Done [].
Proof.
  apply no_peak_below_threshold.
  - vm_compute. discriminate.
  - vm_compute. discriminate.
  - intros x Hx. apply elem_of_replicate in Hx as [-> _]. reflexivity.
Defined.

(** ** The programs never read out of bounds *)

Lemma normalize_scanner_clean_defined (spectrum : list float) :
  (0 < length spectrum)%nat ->
  exists out, normalize_scanner_clean spectrum = Done out
              /\ length out = length spectrum.
Proof.
  intros Hlen. destruct spectrum as [|first rest]; [cbn in Hlen; lia|].
  unfold normalize_scanner_clean. cbn [max_element mbind outcome_bind].
  eexists. split; [reflexivity|]. apply length_map.
Qed.

Lemma adaptive_smoothing_defined (M : libm) (spectrum : list float) :
  5 <= vec_size spectrum ->
  exists out, adaptive_smoothing M spectrum = Done out
              /\ length out = length spectrum.
Proof.
  intros Hsize. unfold adaptive_smoothing.
  destruct (adaptive_pass_defined M spectrum Hsize) as (p1 & Hp1 & Hl1).
  destruct (adaptive_pass_defined M p1) as (p2 & Hp2 & Hl2);
    [unfold vec_size in *; lia|].
  rewrite Hp1. cbn [mbind outcome_bind]. rewrite Hp2.
  exists p2. split; [reflexivity|]. congruence.
Qed.


(** X8.  simple_heatmap_fixed.cpp never reads out of bounds: every window
    it detrends lies in the price vector, and every vector it pushes on
    [all_spectra], a processed spectrum or a placeholder, has exactly 701
    entries; there are [T + 1] of them, so that [all_spectra] is a full
    (T+1) x 701 table. *)
Theorem heatmap_spectra_rectangular (M : libm) (prices : list float) (W T : Z) :
  exists all_spectra,
    heatmap_spectra M prices W T = Done all_spectra
    /\ length all_spectra = Z.to_nat (T + 1)
    /\ Forall (fun spectrum => length spectrum = 701%nat) all_spectra.
Proof.
  unfold heatmap_spectra. cbv zeta.
  set (S := vec_size prices).
  pose proof (heatmap_loop_defined M prices W T) as Hdef. fold S in Hdef.
  destruct (ofold_push_placeholder
              (fun week => S - week * 5 - W <? 0)
              (fun week => heatmap_window M prices W (S - week * 5 - W))
              heatmap_placeholder (seqZ 0 (T + 1)) Hdef [])
    as (results & Hrun & HF).
  exists results. split; [exact Hrun|]. split.
  - rewrite <- (Forall2_length _ _ _ HF). apply length_seqZ.
  - apply (Forall2_Forall_r _ _ _ _ HF). apply Forall_forall.
    intros week Hweek spectrum Hs. cbv beta in Hs.
    destruct (S - week * 5 - W <? 0) eqn:Hskip; [subst spectrum; reflexivity|].
    apply elem_of_seqZ in Hweek.
    destruct (rolling_window_in_range S W week ltac:(lia) Hskip).
    destruct (heatmap_window_defined M prices W (S - week * 5 - W))
      as (s & Hs' & Hlen); [assumption..|].
    congruence.
Qed.

(** ** The weekly loop keeps a prefix of the offsets *)

Lemma filter_all {A : Type} (P : A -> Prop) `{forall x, Decision (P x)}
    (l : list A) :
  Forall P l -> filter P l = l.
Proof.
  induction 1 as [|x l Hx _ IH]; [reflexivity|].
  rewrite filter_cons_True by exact Hx. rewrite IH. reflexivity.
Qed.

Lemma filter_nothing {A : Type} (P : A -> Prop) `{forall x, Decision (P x)}
    (l : list A) :
  Forall (fun x => ~ P x) l -> filter P l = [].
Proof.
  induction 1 as [|x l Hx _ IH]; [reflexivity|].
  rewrite filter_cons_False by exact Hx. exact IH.
Qed.

(** A condition that holds exactly below [K] keeps the first [K] numbers. *)
Lemma filter_seqZ_prefix (P : Z -> Prop) `{forall k, Decision (P k)} (n K : Z) :
  0 <= K <= n ->
  (forall k, 0 <= k < n -> P k <-> k < K) ->
  filter P (seqZ 0 n) = seqZ 0 K.
Proof.
  intros HK HP.
  replace n with (K + (n - K)) by lia.
  rewrite seqZ_app by lia. rewrite filter_app.
  rewrite filter_all.
  2:{ apply Forall_forall. intros k Hk. apply elem_of_seqZ in Hk.
      apply HP; lia. }
  rewrite filter_nothing; [apply app_nil_r|].
  apply Forall_forall. intros k Hk. apply elem_of_seqZ in Hk.
  intros HPk. apply HP in HPk; lia.
Qed.

(** X9.  In generate_weekly_scanners.cpp the skipped offsets are exactly the
    last ones, so that the position of a peak list in [all_peaks] is its
    week: with [S] prices, a window of [W] and offsets [0 .. T], the
    vector has [K = max 0 (min (T + 1) ((S - W) div 5 + 1))] entries and
    entry [k] is the peak list of the window that starts at [S - 5k - W]. *)
Theorem weekly_scanners_indexed_by_week (M : libm) (prices : list float)
    (W T : Z) :
  let S := vec_size prices in
  let K := Z.max 0 (Z.min (T + 1) ((S - W) `div` 5 + 1)) in
  exists all_peaks,
    weekly_scanners M prices W T = Done all_peaks
    /\ length all_peaks = Z.to_nat K
    /\ forall k : nat,
         Z.of_nat k < K ->
         exists peaks,
           all_peaks !! k = Some peaks
           /\ weekly_window M prices W (S - 5 * Z.of_nat k - W) = Done peaks.
Proof.
  intros S K. unfold weekly_scanners. cbv zeta. fold S.
  pose proof (weekly_loop_defined M prices W T) as Hdef. fold S in Hdef.
  destruct (ofold_push
              (fun week => S - week * 5 - W <? 0)
              (fun week => weekly_window M prices W (S - week * 5 - W))
              (seqZ 0 (T + 1)) Hdef [])
    as (results & Hrun & HF).
  exists results. split; [exact Hrun|].
  assert (Hkeep : filter (fun b => negb (S - b * 5 - W <? 0)) (seqZ 0 (T + 1))
                  = seqZ 0 K).
  { destruct (Z.le_gt_cases (T + 1) 0) as [HT|HT].
    - rewrite (seqZ_nil 0 (T + 1)) by lia.
      replace K with 0 by (subst K; lia). reflexivity.
    - apply filter_seqZ_prefix; [subst K; lia|].
      intros k Hk. subst K.
      destruct (Z.ltb_spec (S - k * 5 - W) 0); cbn;
        (split; [intros Hp|intros Hlt]); try tauto;
        pose proof (Z.div_mod (S - W) 5 ltac:(lia));
        pose proof (Z.mod_pos_bound (S - W) 5 ltac:(lia)); lia. }
  rewrite Hkeep in HF. split.
  - rewrite <- (Forall2_length _ _ _ HF). rewrite length_seqZ. reflexivity.
  - intros k Hk.
    destruct (Forall2_lookup_l _ _ _ k (Z.of_nat k) HF) as (peaks & Hl & Hw).
    { rewrite lookup_seqZ. split; lia. }
    exists peaks. split; [exact Hl|].
    replace (S - 5 * Z.of_nat k - W) with (S - Z.of_nat k * 5 - W) by lia.
    exact Hw.
Qed.

(** ** A window sees only its own prices *)

(** The detrended window is a function of the prices at the positions
    [start .. start + window - 1]. *)
Lemma detrend_double_window_ext (M : libm) (prices prices' : list float)
    (start start' window : Z) :
  (forall i, 0 <= i < window ->
     prices !! Z.to_nat (start + i) = prices' !! Z.to_nat (start' + i)) ->
  detrend_double M prices start window = detrend_double M prices' start' window.
Proof.
  intros Hwin.
  assert (Hlog : forall i, 0 <= i < window ->
            log_price 0%float (m_log M) prices start i
            = log_price 0%float (m_log M) prices' start' i).
  { intros i Hi. unfold log_price. rewrite (Hwin i Hi). reflexivity. }
  unfold detrend_double, detrend, regression_line.
  assert (Hsums : regression_sums 0%float PrimFloat.add PrimFloat.mul D.of_int
                    (m_log M) prices start window
                  = regression_sums 0%float PrimFloat.add PrimFloat.mul D.of_int
                      (m_log M) prices' start' window).
  { unfold regression_sums. apply fold_left_ext_in.
    intros [[[sum_x sum_y] sum_xx] sum_xy] i Hi. apply elem_of_seqZ in Hi.
    rewrite Hlog by lia. reflexivity. }
  rewrite Hsums. clear Hsums.
  destruct (regression_sums _ _ _ _ _ _ _ _) as [[[sum_x sum_y] sum_xx] sum_xy].
  cbv iota beta zeta. apply map_ext_in. intros i Hi.
  apply list_elem_of_In, elem_of_seqZ in Hi.
  rewrite Hlog by lia. reflexivity.
Qed.

(** X10.  No look-ahead in the rolling analysis.  The entry the two rolling
    programs compute for a roll-back of [rollback] bars is the entry they
    compute, without roll-back, on the series cut after its first
    [S - rollback] prices -- and also the entry computed at start 0 on the
    [W] prices of the window alone.  The prices after the window, and those
    before it, have no influence. *)
Theorem rolled_back_window_ignores_later_prices (M : libm)
    (prices : list float) (W rollback : Z) :
  let S := vec_size prices in
  let start_idx := S - rollback - W in
  let past := take (Z.to_nat (S - rollback)) prices in
  let window := take (Z.to_nat W) (drop (Z.to_nat start_idx) prices) in
  0 <= rollback -> 0 <= W -> 0 <= start_idx ->
  vec_size past = S - rollback
  /\ vec_size window = W
  /\ weekly_window M prices W start_idx
     = weekly_window M past W (vec_size past - 0 - W)
  /\ heatmap_window M prices W start_idx
     = heatmap_window M past W (vec_size past - 0 - W)
  /\ weekly_window M prices W start_idx = weekly_window M window W 0
  /\ heatmap_window M prices W start_idx = heatmap_window M window W 0.
Proof.
  intros S start_idx past window Hr HW Hs.
  assert (HS : S = Z.of_nat (length prices)) by reflexivity.
  assert (Hstart : start_idx = S - rollback - W) by reflexivity.
  assert (Hp : past = take (Z.to_nat (S - rollback)) prices) by reflexivity.
  assert (Hw : window = take (Z.to_nat W) (drop (Z.to_nat start_idx) prices))
    by reflexivity.
  clearbody window past start_idx S.
  assert (Hpast : vec_size past = S - rollback).
  { unfold vec_size. rewrite Hp, length_take. lia. }
  assert (Hwindow : vec_size window = W).
  { unfold vec_size. rewrite Hw, length_take, length_drop. lia. }
  assert (Hd1 : detrend_double M prices start_idx W
                = detrend_double M past (vec_size past - 0 - W) W).
  { apply detrend_double_window_ext. intros i Hi. rewrite Hpast.
    replace (S - rollback - 0 - W) with start_idx by lia.
    rewrite Hp, lookup_take_lt by lia. reflexivity. }
  assert (Hd2 : detrend_double M prices start_idx W
                = detrend_double M window 0 W).
  { apply detrend_double_window_ext. intros i Hi.
    rewrite Hw, lookup_take_lt by lia. rewrite lookup_drop.
    f_equal. lia. }
  split; [exact Hpast|]. split; [exact Hwindow|].
  unfold weekly_window, heatmap_window.
  rewrite (detrend_read_double_in_range M prices start_idx W)
    by (unfold vec_size; lia).
  rewrite (detrend_read_double_in_range M past (vec_size past - 0 - W) W) by lia.
  rewrite (detrend_read_double_in_range M window 0 W) by lia.
  rewrite <- Hd1, <- Hd2. repeat split; reflexivity.
Qed.

(** A witness of X10: five prices, a window of three, rolled back by one. *)
Lemma rolled_back_window_ignores_later_prices_witness :
  weekly_window libm_sample [1; 2; 3; 4; 5]%float 3 1
  = weekly_window libm_sample [2; 3; 4]%float 3 0.
Proof.
  exact (proj1 (proj2 (proj2 (proj2 (proj2
    (rolled_back_window_ignores_later_prices libm_sample
       [1; 2; 3; 4; 5]%float 3 1
       ltac:(lia) ltac:(lia) ltac:(vm_compute; discriminate))))))).
Defined.

(** ** The two passes of the adaptive smoothing *)

(** The outcome of one pass, entry by entry. *)
Lemma adaptive_pass_entries (M : libm) (spectrum : list float) :
  5 <= vec_size spectrum ->
  exists out,
    adaptive_pass M spectrum = Done out
    /\ length out = length spectrum
    /\ forall (k : nat) (x : float),
         spectrum !! k = Some x ->
         out !! k
         = Some (if (5 <=? Z.of_nat k) && (Z.of_nat k <? vec_size spectrum - 5)
                    && PrimFloat.ltb x D.c0_3
                 then gaussian_average M spectrum (Z.of_nat k) else x).
Proof.
  intros Hsize. unfold adaptive_pass. rewrite size_sub_le by lia.
  destruct (adaptive_loop_spec M spectrum (vec_size spectrum - 5)
              (S (length spectrum)) ltac:(lia) 5 spectrum)
    as (out & Hrun & Hlen & Hspec);
    [lia|reflexivity|lia|unfold vec_size; lia|].
  exists out. split; [exact Hrun|]. split; [exact Hlen|].
  intros k x Hk. rewrite (Hspec k x Hk). unfold adaptive_entry.
  rewrite (list_lookup_total_correct _ _ _ Hk). reflexivity.
Qed.

(** X11.  The adaptive smoothing (two passes) on a spectrum of at least
    five entries.  An entry among the first or last five positions, and an
    entry that is not strictly below 0.3 (a NaN included), comes out
    unchanged.  An interior entry below 0.3 becomes the Gaussian average [g]
    of the input around it; if [g] is still below 0.3 the second pass
    replaces it by the Gaussian average of the first pass's output. *)
Theorem adaptive_smoothing_two_passes (M : libm) (spectrum : list float) :
  5 <= vec_size spectrum ->
  exists pass1 out,
    adaptive_pass M spectrum = Done pass1
    /\ adaptive_smoothing M spectrum = Done out
    /\ length out = length spectrum
    /\ forall (k : nat) (x : float),
         spectrum !! k = Some x ->
         ((Z.of_nat k < 5 \/ vec_size spectrum - 5 <= Z.of_nat k
           \/ PrimFloat.ltb x D.c0_3 = false) ->
          out !! k = Some x)
         /\ (5 <= Z.of_nat k < vec_size spectrum - 5 ->
             PrimFloat.ltb x D.c0_3 = true ->
             let g := gaussian_average M spectrum (Z.of_nat k) in
             out !! k
             = Some (if PrimFloat.ltb g D.c0_3
                     then gaussian_average M pass1 (Z.of_nat k) else g)).
Proof.
  intros Hsize.
  destruct (adaptive_pass_entries M spectrum Hsize) as (pass1 & Hrun1 & Hlen1 & H1).
  assert (Hsize1 : vec_size pass1 = vec_size spectrum)
    by (unfold vec_size; rewrite Hlen1; reflexivity).
  destruct (adaptive_pass_entries M pass1 ltac:(lia)) as (out & Hrun2 & Hlen2 & H2).
  exists pass1, out. split; [exact Hrun1|]. split.
  { unfold adaptive_smoothing. rewrite Hrun1. exact Hrun2. }
  split; [congruence|].
  intros k x Hk. pose proof (H1 k x Hk) as Hk1.
  rewrite Hsize1 in H2.
  destruct (Z.leb_spec 5 (Z.of_nat k)), (Z.ltb_spec (Z.of_nat k) (vec_size spectrum - 5));
    cbn [andb] in Hk1.
  - destruct (PrimFloat.ltb x D.c0_3) eqn:Hlow.
    + split; [intros [H'|[H'|H']]; [lia|lia|discriminate]|].
      intros _ _. cbv zeta. rewrite (H2 _ _ Hk1).
      destruct (Z.leb_spec 5 (Z.of_nat k)); [|lia].
      destruct (Z.ltb_spec (Z.of_nat k) (vec_size spectrum - 5)); [|lia].
      reflexivity.
    + split; [|intros _ H'; discriminate].
      intros _. rewrite (H2 _ _ Hk1), Hlow, andb_false_r. reflexivity.
  - split; [|lia]. intros _. rewrite (H2 _ _ Hk1).
    destruct (Z.ltb_spec (Z.of_nat k) (vec_size spectrum - 5)); [lia|].
    rewrite andb_false_r. reflexivity.
  - split; [|lia]. intros _. rewrite (H2 _ _ Hk1).
    destruct (Z.leb_spec 5 (Z.of_nat k)); [lia|]. reflexivity.
  - split; [|lia]. intros _. rewrite (H2 _ _ Hk1).
    destruct (Z.leb_spec 5 (Z.of_nat k)); [lia|]. reflexivity.
Qed.

(** A witness of X11: the low entry (index 5) of [low_high_spectrum] is
    smoothed and the high one (index 6) is kept. *)
Lemma adaptive_smoothing_two_passes_witness :
  5 <= vec_size low_high_spectrum
  /\ exists out,
       adaptive_smoothing libm_sample low_high_spectrum = Done out
       /\ out !! 6%nat = Some 0.75%float.
Proof.
  assert (Hsize : 5 <= vec_size low_high_spectrum) by (vm_compute; discriminate).
  split; [exact Hsize|].
  destruct (adaptive_smoothing_two_passes libm_sample low_high_spectrum Hsize)
    as (pass1 & out & _ & Hrun & _ & Hspec).
  exists out. split; [exact Hrun|].
  apply (Hspec 6%nat 0.75%float eq_refl).
  right. right. vm_compute. reflexivity.
Defined.

(** ** process_spectrum needs three entries *)

(** X12.  [process_spectrum] of generate_weekly_scanners.cpp returns a
    spectrum of the length of its argument exactly when the argument has at
    least three entries; on a shorter one the bound [spectrum.size() - 3] of
    its first loop wraps around and the loop reads out of bounds. *)
Theorem process_spectrum_defined_iff (M : libm) (spectrum : list float) :
  match process_spectrum M spectrum with
  | Done out => 3 <= vec_size spectrum /\ length out = length spectrum
  | Undefined => vec_size spectrum < 3
  | OutOfFuel => False
  end.
Proof.
  unfold process_spectrum.
  destruct (Z.le_gt_cases 3 (vec_size spectrum)) as [Hsize|Hshort].
  - destruct (weekly_median_defined spectrum Hsize) as (filtered & -> & Hlen).
    cbn [mbind outcome_bind]. cbv zeta.
    destruct (normalize_guarded_defined
                (smooth_spectrum M
                   (enhance_peaks (smooth_spectrum M filtered 10) 2) 5))
      as (out & -> & Hout).
    + rewrite length_smooth_spectrum, length_enhance_peaks,
        length_smooth_spectrum, Hlen. unfold vec_size in Hsize. lia.
    + split; [exact Hsize|].
      rewrite Hout, length_smooth_spectrum, length_enhance_peaks,
        length_smooth_spectrum. exact Hlen.
  - rewrite weekly_median_short by lia. cbn [mbind outcome_bind]. lia.
Qed.

(** ** The insertion sort of libstdc++ *)

Section LibstdcxxFacts.
Context {A : Type} (comp : A -> A -> bool) (ok : A -> Prop).
Hypothesis comp_asym : forall x y, comp x y = true -> comp y x = false.
Hypothesis comp_negtrans :
  forall x y z, ok x -> ok y -> ok z ->
    comp x y = false -> comp y z = false -> comp x z = false.

Lemma unguarded_linear_insert_perm (val : A) (before : list A) :
  Permutation (Libstdcxx.unguarded_linear_insert comp val before) (val :: before).
Proof.
  induction before as [|next before IH]; cbn; [reflexivity|].
  destruct (comp val next); [|reflexivity].
  rewrite IH. apply perm_swap.
Qed.

Lemma insertion_step_perm (sorted : list A) (val : A) :
  Permutation (Libstdcxx.insertion_step comp sorted val) (val :: sorted).
Proof.
  destruct sorted as [|first sorted]; [reflexivity|].
  unfold Libstdcxx.insertion_step. destruct (comp val first); [reflexivity|].
  rewrite reverse_Permutation, unguarded_linear_insert_perm, reverse_Permutation.
  reflexivity.
Qed.

(** Whatever the comparison is, the sort permutes the vector. *)
Lemma libstdcxx_insertion_sort_perm (l : list A) :
  Permutation (Libstdcxx.insertion_sort comp l) l.
Proof.
  unfold Libstdcxx.insertion_sort.
  enough (forall acc, Permutation
            (fold_left (Libstdcxx.insertion_step comp) l acc) (l ++ acc)) as H.
  { rewrite H, app_nil_r. reflexivity. }
  induction l as [|x l IH]; intros acc; cbn [fold_left]; [reflexivity|].
  rewrite IH, insertion_step_perm. symmetry. apply Permutation_middle.
Qed.

(** [__unguarded_linear_insert] shifts the elements [val] is less than and
    stops in front of the first one it is not less than. *)
Lemma unguarded_linear_insert_split (val : A) (before : list A) :
  exists shifted rest,
    before = shifted ++ rest
    /\ Libstdcxx.unguarded_linear_insert comp val before = shifted ++ val :: rest
    /\ Forall (fun y => comp val y = true) shifted
    /\ match rest with [] => True | y :: _ => comp val y = false end.
Proof.
  induction before as [|next before IH]; cbn.
  - exists [], []. repeat split; constructor.
  - destruct (comp val next) eqn:Hnext.
    + destruct IH as (shifted & rest & -> & -> & Hs & Hr).
      exists (next :: shifted), rest.
      repeat split; [constructor; assumption|exact Hr].
    + exists [], (next :: before). repeat split; [constructor|exact Hnext].
Qed.

Lemma insertion_step_sorted (sorted : list A) (val : A) :
  Forall ok sorted -> ok val ->
  StronglySorted (may_precede comp) sorted ->
  StronglySorted (may_precede comp) (Libstdcxx.insertion_step comp sorted val).
Proof.
  intros Hok Hval Hs. destruct sorted as [|first sorted]; [repeat constructor|].
  rewrite Forall_forall in Hok.
  unfold Libstdcxx.insertion_step. destruct (comp val first) eqn:Hfirst.
  - constructor; [exact Hs|].
    apply StronglySorted_cons in Hs as [Hall _]. rewrite Forall_forall in Hall.
    apply Forall_forall. intros y Hy. unfold may_precede.
    apply elem_of_cons in Hy as [->|Hy]; [apply comp_asym; exact Hfirst|].
    apply (comp_negtrans y first val);
      [apply Hok; apply elem_of_cons; auto
      |apply Hok; apply elem_of_cons; auto
      |exact Hval
      |exact (Hall y Hy)
      |apply comp_asym; exact Hfirst].
  - destruct (unguarded_linear_insert_split val (reverse (first :: sorted)))
      as (shifted & rest & Hrev & -> & Hshift & Hrest).
    assert (Hsorted : first :: sorted = reverse rest ++ reverse shifted).
    { rewrite <- reverse_app, <- Hrev, reverse_involutive. reflexivity. }
    rewrite Hsorted in Hs, Hok.
    apply StronglySorted_app in Hs as (Hcross & Hs1 & Hs2).
    rewrite reverse_app, reverse_cons, <- app_assoc. cbn [app].
    rewrite Forall_forall in Hshift.
    apply StronglySorted_app. split; [|split; [exact Hs1|]].
    + intros z y Hz Hy. apply elem_of_cons in Hy as [->|Hy];
        [|apply Hcross; assumption].
      unfold may_precede. rewrite elem_of_reverse in Hz.
      destruct rest as [|y0 rest]; [apply elem_of_nil in Hz; contradiction|].
      apply elem_of_cons in Hz as [->|Hz]; [exact Hrest|].
      apply (comp_negtrans val y0 z);
        [exact Hval
        |apply Hok, elem_of_app; left; rewrite elem_of_reverse; apply elem_of_cons; auto
        |apply Hok, elem_of_app; left; rewrite elem_of_reverse; apply elem_of_cons; auto
        |exact Hrest|].
      (* [z] stands in front of [y0] in the sorted range *)
      rewrite reverse_cons in Hs1.
      apply StronglySorted_app in Hs1 as (Hzy0 & _ & _).
      apply (Hzy0 z y0);
        [rewrite elem_of_reverse; exact Hz|apply list_elem_of_singleton; reflexivity].
    + constructor; [exact Hs2|].
      apply Forall_forall. intros y Hy. rewrite elem_of_reverse in Hy.
      unfold may_precede. apply comp_asym. apply Hshift. exact Hy.
Qed.

(** On values among which the comparison is a strict weak order the sort
    leaves no element in front of one it is less than. *)
Lemma libstdcxx_insertion_sort_sorted (l : list A) :
  Forall ok l ->
  StronglySorted (may_precede comp) (Libstdcxx.insertion_sort comp l).
Proof.
  unfold Libstdcxx.insertion_sort.
  enough (forall acc,
            Forall ok acc -> StronglySorted (may_precede comp) acc -> Forall ok l ->
            StronglySorted (may_precede comp)
              (fold_left (Libstdcxx.insertion_step comp) l acc)) as H
    by (apply H; constructor).
  induction l as [|x l IH]; intros acc Hacc Hs Hl; cbn [fold_left]; [exact Hs|].
  apply Forall_cons in Hl as [Hx Hl].
  apply IH; [|apply insertion_step_sorted; assumption|exact Hl].
  rewrite insertion_step_perm. constructor; assumption.
Qed.

End LibstdcxxFacts.

Lemma StronglySorted_impl_elem {A : Type} (R R' : A -> A -> Prop) (l : list A) :
  (forall x y, x ∈ l -> y ∈ l -> R x y -> R' x y) ->
  StronglySorted R l -> StronglySorted R' l.
Proof.
  intros Himpl Hs. induction Hs as [|x l Hs IH Hall]; [constructor|].
  constructor.
  - apply IH. intros a b Ha Hb. apply Himpl; apply elem_of_cons; auto.
  - rewrite Forall_forall in Hall. apply Forall_forall. intros y Hy.
    apply Himpl; [apply elem_of_cons; auto|apply elem_of_cons; auto|].
    apply Hall. exact Hy.
Qed.

Lemma StronglySorted_lookup_lt {A : Type} (R : A -> A -> Prop) (l : list A) :
  StronglySorted R l ->
  forall (i j : nat) (x y : A),
    (i < j)%nat -> l !! i = Some x -> l !! j = Some y -> R x y.
Proof.
  induction 1 as [|a l Hs IH Hall]; intros i j x y Hij Hi Hj.
  - rewrite lookup_nil in Hi. discriminate.
  - destruct j as [|j]; [lia|]. cbn in Hj. destruct i as [|i]; cbn in Hi.
    + injection Hi as <-. rewrite Forall_forall in Hall.
      apply Hall. eapply list_elem_of_lookup_2. exact Hj.
    + apply (IH i j); [lia|assumption..].
Qed.

(** ** The sorted vector of the median loops *)

Lemma sort_doubles_perm (values : list float) :
  Permutation (sort_doubles values) values.
Proof. apply libstdcxx_insertion_sort_perm. Qed.

Lemma no_nan_perm (l l' : list float) :
  Permutation l l' -> no_nan l' -> no_nan l.
Proof. unfold no_nan. intros Hp H. rewrite Hp. exact H. Qed.

(** Without a NaN the sorted vector is ascending. *)
Lemma sort_doubles_ascending (values : list float) :
  no_nan values -> ascending (sort_doubles values).
Proof.
  intros Hnan.
  pose proof (libstdcxx_insertion_sort_sorted PrimFloat.ltb
                (fun x => PrimFloat.is_nan x = false)
                FloatOrder.ltb_asym FloatOrder.ltb_negtrans values Hnan) as Hs.
  fold (sort_doubles values) in Hs.
  pose proof (no_nan_perm _ _ (sort_doubles_perm values) Hnan) as Hnan'.
  unfold no_nan in Hnan'. rewrite Forall_forall in Hnan'.
  apply (StronglySorted_impl_elem (may_precede PrimFloat.ltb)); [|exact Hs].
  intros x y Hx Hy Hxy. apply FloatOrder.not_ltb_leb; [auto..|exact Hxy].
Qed.

(** ** The median of a window without NaN *)

Lemma no_nan_forallb (l : list float) :
  forallb (fun x => negb (PrimFloat.is_nan x)) l = true -> no_nan l.
Proof.
  intros H. apply Forall_forall. intros x Hx.
  rewrite forallb_forall in H. specialize (H x ltac:(apply list_elem_of_In; exact Hx)).
  destruct (PrimFloat.is_nan x); [discriminate|reflexivity].
Qed.

(** The element the median loops take is the median of the values. *)
Lemma upper_median_is_median (values : list float) :
  values <> [] -> no_nan values -> is_median values (upper_median values).
Proof.
  intros Hne Hnan. exists (sort_doubles values).
  pose proof (sort_doubles_perm values) as Hperm.
  split; [exact Hperm|]. split; [apply sort_doubles_ascending; exact Hnan|].
  unfold upper_median. cbv zeta.
  assert (Hlen : length (sort_doubles values) = length values)
    by (rewrite Hperm; reflexivity).
  rewrite Hlen. apply list_lookup_lookup_total_lt. rewrite Hlen.
  assert (0 < length values)%nat by (destruct values; [congruence|cbn; lia]).
  apply Nat.Div0.div_lt_upper_bound. lia.
Qed.

(** In two ascending arrangements of the same values the elements at the
    same position are not below one another. *)
Lemma ascending_same_position (s s' : list float) (h : nat) (m m' : float) :
  Permutation s s' -> ascending s -> ascending s' ->
  s !! h = Some m -> s' !! h = Some m' -> PrimFloat.ltb m m' = false.
Proof.
  intros Hperm Ha Ha' Hm Hm'.
  destruct (PrimFloat.ltb m m') eqn:Hlt; [exfalso|reflexivity].
  set (P := fun x : float => PrimFloat.ltb x m' = true).
  assert (Hfew : (length (filter P s') <= h)%nat).
  { rewrite <- (take_drop h s') at 1. rewrite filter_app.
    rewrite (filter_nothing P (drop h s')).
    - rewrite app_nil_r. etransitivity; [apply length_filter|].
      rewrite length_take. lia.
    - apply Forall_lookup. intros j y Hy. rewrite lookup_drop in Hy.
      unfold P. destruct j as [|j].
      + rewrite Nat.add_0_r in Hy. assert (y = m') as -> by congruence.
        rewrite FloatOrder.ltb_irrefl. discriminate.
      + rewrite (FloatOrder.leb_not_ltb m' y); [discriminate|].
        exact (StronglySorted_lookup_lt _ _ Ha' h (h + S j)%nat m' y
                 ltac:(lia) Hm' Hy). }
  assert (Hmany : (S h <= length (filter P s))%nat).
  { rewrite <- (take_drop (S h) s). rewrite filter_app, length_app.
    rewrite (filter_all P (take (S h) s)).
    - rewrite length_take. apply lookup_lt_Some in Hm. lia.
    - apply Forall_lookup. intros i x Hx.
      apply lookup_take_Some in Hx as [Hx Hi]. unfold P.
      destruct (decide (i = h)) as [->|Hne].
      + assert (x = m) as -> by congruence. exact Hlt.
      + apply (FloatOrder.leb_ltb_trans x m m'); [|exact Hlt].
        exact (StronglySorted_lookup_lt _ _ Ha i h x m ltac:(lia) Hx Hm). }
  assert (Heq : length (filter P s) = length (filter P s'))
    by (rewrite Hperm; reflexivity).
  lia.
Qed.

(** The median of values without NaN is unique up to the sign of a zero. *)
Lemma is_median_unique (values : list float) (m m' : float) :
  no_nan values -> is_median values m -> is_median values m' ->
  PrimFloat.eqb m m' = true.
Proof.
  intros Hnan (s & Hp & Ha & Hm) (s' & Hp' & Ha' & Hm').
  unfold no_nan in Hnan. rewrite Forall_forall in Hnan.
  assert (Hperm : Permutation s s') by (rewrite Hp, Hp'; reflexivity).
  apply eqb_of_not_ltb.
  - apply Hnan. rewrite <- Hp. eapply list_elem_of_lookup_2. exact Hm.
  - apply Hnan. rewrite <- Hp'. eapply list_elem_of_lookup_2. exact Hm'.
  - exact (ascending_same_position s s' _ m m' Hperm Ha Ha' Hm Hm').
  - exact (ascending_same_position s' s _ m' m (symmetry Hperm) Ha' Ha Hm' Hm).
Qed.

Lemma elem_of_slice (spectrum : list float) (lo hi : Z) (x : float) :
  x ∈ slice spectrum lo hi ->
  exists j : nat, lo <= Z.of_nat j < hi /\ spectrum !! j = Some x.
Proof.
  unfold slice. cbv zeta. intros Hx.
  apply list_elem_of_lookup in Hx as [i Hi].
  apply lookup_take_Some in Hi as [Hi Hlt]. rewrite lookup_drop in Hi.
  exists (Z.to_nat (Z.max 0 lo) + i)%nat. split; [lia|exact Hi].
Qed.

(** The in-bounds window of a position of the vector holds that position. *)
Lemma inbounds_window_nonempty (spectrum : list float) (k : nat) (window : Z) :
  0 <= window -> (k < length spectrum)%nat ->
  inbounds_window spectrum (Z.of_nat k) window <> [].
Proof.
  intros Hw Hk. unfold inbounds_window.
  assert (Hgrow : forall d : nat,
            slice spectrum (Z.of_nat k - window) (Z.of_nat k + Z.of_nat d + 1)
            <> []).
  { induction d as [|d IH].
    - rewrite Z.add_0_r, slice_snoc by (unfold vec_size; lia).
      intros H. apply app_eq_nil in H as [_ H]. discriminate.
    - replace (Z.of_nat k + Z.of_nat (S d) + 1)
        with (Z.of_nat k + Z.of_nat d + 1 + 1) by lia.
      destruct (Z.le_gt_cases (vec_size spectrum) (Z.of_nat k + Z.of_nat d + 1))
        as [Hout|Hin].
      + rewrite slice_skip by lia. exact IH.
      + rewrite slice_snoc by lia.
        intros H. apply app_eq_nil in H as [_ H]. discriminate. }
  specialize (Hgrow (Z.to_nat window)).
  rewrite Z2Nat.id in Hgrow by lia. exact Hgrow.
Qed.

Lemma inbounds_window_no_nan (spectrum : list float) (i window : Z) :
  no_nan spectrum -> no_nan (inbounds_window spectrum i window).
Proof.
  unfold no_nan. rewrite !Forall_forall. intros Hnan x Hx.
  apply elem_of_slice in Hx as (j & _ & Hj).
  apply Hnan. eapply list_elem_of_lookup_2. exact Hj.
Qed.

(** C6 (median filter), as the code has it, on a spectrum without NaN.
    [median_filter] of scanner_clean.cpp and simple_heatmap_fixed.cpp
    replaces every entry, also near the ends, by the median of the in-bounds
    values among the entry and its +/-3 neighbours (the upper middle element
    of their ascending arrangement, unique up to the sign of a zero);
    positions outside the vector are left out of the set.  The median loop
    of [process_spectrum] in generate_weekly_scanners.cpp does this for the
    interior entries only and leaves the first three and the last three
    entries as they are. *)
Theorem C6_median_filters (spectrum : list float) (k : nat) (x : float) :
  no_nan spectrum ->
  spectrum !! k = Some x ->
  let window := inbounds_window spectrum (Z.of_nat k) 3 in
  exists m,
    median_filter spectrum 3 !! k = Some m
    /\ is_median window m
    /\ (forall m', is_median window m' -> PrimFloat.eqb m m' = true)
    /\ length (median_filter spectrum 3) = length spectrum
    /\ (3 <= vec_size spectrum ->
        exists filtered,
          weekly_median spectrum = Done filtered
          /\ length filtered = length spectrum
          /\ (3 <= Z.of_nat k < vec_size spectrum - 3 ->
              filtered !! k = Some m)
          /\ (Z.of_nat k < 3 \/ vec_size spectrum - 3 <= Z.of_nat k ->
              filtered !! k = Some x)).
Proof.
  intros Hnan Hk window. exists (upper_median window).
  assert (Hlt : (k < length spectrum)%nat) by (apply lookup_lt_Some in Hk; exact Hk).
  assert (Hwnan : no_nan window) by (apply inbounds_window_no_nan; exact Hnan).
  assert (Hmed : is_median window (upper_median window)).
  { apply upper_median_is_median; [|exact Hwnan].
    apply inbounds_window_nonempty; [lia|exact Hlt]. }
  split; [apply median_filter_lookup; [lia|exact Hlt]|].
  split; [exact Hmed|].
  split; [intros m' Hm'; exact (is_median_unique window _ m' Hwnan Hmed Hm')|].
  split; [apply length_median_filter|].
  intros Hsize. unfold weekly_median. cbv zeta. rewrite size_sub_le by lia.
  destruct (weekly_median_loop_spec spectrum (vec_size spectrum - 3)
              (S (length spectrum)) ltac:(lia) 3 spectrum)
    as (out & Hrun & Hlen & Hspec);
    [lia|reflexivity|lia|unfold vec_size; lia|].
  exists out. split; [exact Hrun|]. split; [exact Hlen|].
  rewrite (Hspec k x Hk). unfold weekly_entry. fold window.
  destruct (Z.leb_spec 3 (Z.of_nat k)),
           (Z.ltb_spec (Z.of_nat k) (vec_size spectrum - 3)); cbn [andb];
    split; intros; try reflexivity; lia.
Qed.

(** A witness of C6 on the first entry of [spike_spectrum]. *)
Lemma C6_witness :
  no_nan spike_spectrum
  /\ exists m,
       median_filter spike_spectrum 3 !! 0%nat = Some m
       /\ is_median (inbounds_window spike_spectrum 0 3) m
       /\ exists filtered,
            weekly_median spike_spectrum = Done filtered
            /\ filtered !! 0%nat = Some 9%float.
Proof.
  assert (Hnan : no_nan spike_spectrum)
    by (apply no_nan_forallb; vm_compute; reflexivity).
  split; [exact Hnan|].
  destruct (C6_median_filters spike_spectrum 0 9%float Hnan eq_refl)
    as (m & Hclean & Hmed & _ & _ & Hweekly).
  exists m. split; [exact Hclean|]. split; [exact Hmed|].
  assert (Hsize : 3 <= vec_size spike_spectrum) by (vm_compute; discriminate).
  destruct (Hweekly Hsize) as (filtered & Hrun & _ & _ & Hedge).
  exists filtered. split; [exact Hrun|]. apply Hedge. left. vm_compute. reflexivity.
Defined.

(** Counterexample to C6 as stated: the median loop of
    generate_weekly_scanners.cpp keeps the spike 9 in the first position of
    [spike_spectrum], whereas the median of its in-bounds window
    [9; 1; 1; 1] is 1. *)
Lemma C6_counterexample :
  is_median (inbounds_window spike_spectrum 0 3) 1%float
  /\ weekly_median spike_spectrum = Done spike_spectrum
  /\ ~ (forall spectrum filtered (k : nat) (m : float),
          no_nan spectrum ->
          weekly_median spectrum = Done filtered ->
          filtered !! k = Some m ->
          is_median (inbounds_window spectrum (Z.of_nat k) 3) m).
Proof.
  assert (Hnan : no_nan spike_spectrum)
    by (apply no_nan_forallb; vm_compute; reflexivity).
  assert (Hwindow : inbounds_window spike_spectrum 0 3 = [9; 1; 1; 1]%float)
    by (vm_compute; reflexivity).
  assert (Hone : is_median (inbounds_window spike_spectrum 0 3) 1%float).
  { rewrite Hwindow. exists [1; 1; 1; 9]%float.
    split; [symmetry; apply (Permutation_cons_append [1; 1; 1]%float 9%float)|].
    split; [|reflexivity].
    unfold ascending. repeat constructor. }
  assert (Hrun : weekly_median spike_spectrum = Done spike_spectrum)
    by (vm_compute; reflexivity).
  split; [exact Hone|]. split; [exact Hrun|].
  intros H.
  specialize (H spike_spectrum spike_spectrum 0%nat 9%float Hnan Hrun eq_refl).
  change (Z.of_nat 0) with 0 in H.
  pose proof (is_median_unique _ _ _
                (inbounds_window_no_nan spike_spectrum 0 3 Hnan) H Hone) as Heq.
  vm_compute in Heq. discriminate Heq.
Qed.

(** ** The median filter selects a middle value of its window *)

(** X13.  [median_filter] with a half-window of at most 7 (the values then
    fit the range libstdc++ sorts by insertion) at position [k] of a
    spectrum without NaN.  The value written is one of the values the inner
    loop collected (an entry of the input at distance at most [window] from
    [k]); the collected values can be split around it into [size/2] values
    that are not above it and the remaining ones that are not below it. *)
Theorem median_filter_selects_middle (spectrum : list float) (window : Z)
    (k : nat) :
  no_nan spectrum ->
  0 <= window <= 7 -> (k < length spectrum)%nat ->
  let values := median_values spectrum window (Z.of_nat k) in
  exists m below above,
    median_filter spectrum window !! k = Some m
    /\ (length values <= 15)%nat
    /\ Permutation (below ++ m :: above) values
    /\ length below = (length values / 2)%nat
    /\ Forall (fun x => PrimFloat.ltb m x = false) below
    /\ Forall (fun x => PrimFloat.ltb x m = false) above
    /\ exists j : nat,
         Z.of_nat k - window <= Z.of_nat j <= Z.of_nat k + window
         /\ spectrum !! j = Some m.
Proof.
  intros Hnan Hw Hk values. subst values.
  rewrite median_values_inbounds by lia.
  set (values := inbounds_window spectrum (Z.of_nat k) window).
  assert (Hne : values <> []) by (apply inbounds_window_nonempty; [lia|exact Hk]).
  assert (Hvnan : no_nan values) by (apply inbounds_window_no_nan; exact Hnan).
  pose proof (sort_doubles_perm values) as Hperm.
  pose proof (libstdcxx_insertion_sort_sorted PrimFloat.ltb
                (fun x => PrimFloat.is_nan x = false)
                FloatOrder.ltb_asym FloatOrder.ltb_negtrans values Hvnan) as Hsorted.
  fold (sort_doubles values) in Hsorted.
  set (sorted := sort_doubles values) in *.
  assert (Hlen : length sorted = length values) by (rewrite Hperm; reflexivity).
  assert (Hpos : (0 < length values)%nat)
    by (destruct values; [congruence|cbn; lia]).
  set (h := (length sorted / 2)%nat).
  assert (Hh : (h < length sorted)%nat)
    by (subst h; apply Nat.Div0.div_lt_upper_bound; lia).
  assert (Hm : sorted !! h = Some (sorted !!! h))
    by (apply list_lookup_lookup_total_lt; exact Hh).
  exists (upper_median values), (take h sorted), (drop (S h) sorted).
  split; [apply median_filter_lookup; [lia|exact Hk]|].
  unfold upper_median. cbv zeta. fold sorted. fold h.
  split.
  { subst values. unfold inbounds_window, slice. cbv zeta.
    rewrite length_take. unfold vec_size. lia. }
  split; [rewrite (take_drop_middle _ _ _ Hm); exact Hperm|].
  split; [rewrite length_take; subst h; rewrite <- Hlen; lia|].
  split; [|split].
  - apply Forall_lookup. intros i x Hi.
    apply lookup_take_Some in Hi as [Hi Hlt].
    exact (StronglySorted_lookup_lt _ _ Hsorted i h x _ Hlt Hi Hm).
  - apply Forall_lookup. intros i x Hi. rewrite lookup_drop in Hi.
    exact (StronglySorted_lookup_lt _ _ Hsorted h (S h + i)%nat _ x
             ltac:(lia) Hm Hi).
  - assert (Hin : sorted !!! h ∈ values).
    { apply (elem_of_Permutation_proper _ _ _ Hperm).
      eapply list_elem_of_lookup_2. exact Hm. }
    subst values. unfold inbounds_window in Hin.
    apply elem_of_slice in Hin as (j & Hj & Hlookup).
    exists j. split; [lia|exact Hlookup].
Qed.

(** A witness of X13: position 0 of [spike_spectrum] (a spike of 9 before
    ones), where the window holds four values. *)
Lemma median_filter_selects_middle_witness :
  no_nan spike_spectrum /\ 0 <= 3 <= 7 /\ (0 < length spike_spectrum)%nat
  /\ exists m, median_filter spike_spectrum 3 !! 0%nat = Some m
               /\ exists j : nat, Z.of_nat j <= 3 /\ spike_spectrum !! j = Some m.
Proof.
  assert (Hnan : no_nan spike_spectrum)
    by (apply no_nan_forallb; vm_compute; reflexivity).
  assert (Hw : 0 <= 3 <= 7) by lia.
  assert (Hk : (0 < length spike_spectrum)%nat) by (vm_compute; lia).
  split; [exact Hnan|]. split; [exact Hw|]. split; [exact Hk|].
  destruct (median_filter_selects_middle spike_spectrum 3 0 Hnan Hw Hk)
    as (m & _ & _ & Hm & _ & _ & _ & _ & _ & j & Hj & Hlookup).
  exists m. split; [exact Hm|]. exists j. split; [lia|exact Hlookup].
Defined.

(** ** The bounds test of the scan loop *)

(** X14.  The test [idx >= 0 && idx < n] in the inner loop of
    [compute_power].  For a center the scan loop visits
    ([wlen/2 <= center <= n - wlen/2]) the test never fails when the kernel
    length is even or the center is not the last admissible one.  For an
    odd kernel length at [center = n - wlen/2] it fails exactly for the last
    sample ([idx = n]), so that the last kernel coefficient is not used. *)
Theorem inner_product_bounds_test (data : list float) (wavelet : list complex)
    (n wlen center : Z) :
  0 < wlen -> wlen ÷ 2 <= center <= n - wlen ÷ 2 ->
  let term := fun (sum : complex) (i : Z) =>
                C.add sum (C.scale (data !!! Z.to_nat (center - wlen ÷ 2 + i))
                                   (C.conj (wavelet !!! Z.to_nat i))) in
  inner_product data wavelet n wlen center
  = if Z.odd wlen && (center =? n - wlen ÷ 2)
    then fold_left term (seqZ 0 (wlen - 1)) C.zero
    else fold_left term (seqZ 0 wlen) C.zero.
Proof.
  intros Hwlen Hcenter term. unfold inner_product.
  assert (Hhalf : wlen = 2 * (wlen ÷ 2) + (if Z.odd wlen then 1 else 0)).
  { rewrite Z.quot_div_nonneg by lia. rewrite Zodd_mod.
    pose proof (Z.div_mod wlen 2 ltac:(lia)) as Hdm.
    pose proof (Z.mod_pos_bound wlen 2 ltac:(lia)) as Hb.
    destruct (Z.eqb_spec (wlen mod 2) 1); lia. }
  destruct (Z.odd wlen) eqn:Hodd; cbn [andb].
  - destruct (Z.eqb_spec center (n - wlen ÷ 2)) as [Hlast|Hnot].
    + assert (Hseq : seqZ 0 wlen = seqZ 0 (wlen - 1) ++ [wlen - 1]).
      { transitivity (seqZ 0 (wlen - 1 + 1));
          [replace (wlen - 1 + 1) with wlen by lia; reflexivity|].
        rewrite seqZ_app by lia. rewrite (seqZ_cons _ 1) by lia.
        rewrite (seqZ_nil _ (Z.pred 1)) by lia. reflexivity. }
      rewrite Hseq at 1. rewrite fold_left_app. cbn [fold_left].
      destruct (Z.ltb_spec (center - wlen ÷ 2 + (wlen - 1)) n) as [Hlt|_];
        [lia|]. rewrite andb_false_r.
      apply fold_left_ext_in. intros sum i Hi. apply elem_of_seqZ in Hi.
      destruct (Z.leb_spec 0 (center - wlen ÷ 2 + i)); [|lia].
      destruct (Z.ltb_spec (center - wlen ÷ 2 + i) n); [|lia].
      reflexivity.
    + apply fold_left_ext_in. intros sum i Hi. apply elem_of_seqZ in Hi.
      destruct (Z.leb_spec 0 (center - wlen ÷ 2 + i)); [|lia].
      destruct (Z.ltb_spec (center - wlen ÷ 2 + i) n); [|lia].
      reflexivity.
  - apply fold_left_ext_in. intros sum i Hi. apply elem_of_seqZ in Hi.
    destruct (Z.leb_spec 0 (center - wlen ÷ 2 + i)); [|lia].
    destruct (Z.ltb_spec (center - wlen ÷ 2 + i) n); [|lia].
    reflexivity.
Qed.

(** A witness of X14: a kernel of three coefficients at the last center of
    a window of four samples; the third coefficient is not used. *)
Lemma inner_product_bounds_test_witness :
  inner_product [1; 2; 3; 4]%float
    [(1, 0); (2, 0); (4, 0)]%float 4 3 3
  = (11, 0)%float.
Proof.
  rewrite (inner_product_bounds_test [1; 2; 3; 4]%float
             [(1, 0); (2, 0); (4, 0)]%float 4 3 3);
    [|lia|vm_compute; split; discriminate].
  vm_compute. reflexivity.
Defined.

(** ** Reported calendar days *)

(** X15.  The calendar-day value printed for a period of [wl] trading days,
    [int cal_days = wl * 1.451], is the integer part of the exact product
    [1.451 * wl] for every period up to 1000 (which includes the two bands
    30..1000 and 100..800): the rounding of the double product never crosses
    an integer, and the conversion to [int] is defined. *)
Theorem calendar_days_exact (wl : Z) :
  1 <= wl <= 1000 -> calendar_days wl = Done (1451 * wl / 1000).
Proof.
  intros Hwl.
  assert (Hall : forallb (fun wl => match calendar_days wl with
                                    | Done d => d =? 1451 * wl / 1000
                                    | _ => false
                                    end) (seqZ 1 1000) = true)
    by (vm_compute; reflexivity).
  rewrite forallb_forall in Hall.
  specialize (Hall wl). cbv beta in Hall.
  destruct (calendar_days wl) as [d| |].
  - f_equal. apply Z.eqb_eq. apply Hall.
    apply list_elem_of_In, elem_of_seqZ. lia.
  - exfalso. enough (false = true) by discriminate. apply Hall.
    apply list_elem_of_In, elem_of_seqZ. lia.
  - exfalso. enough (false = true) by discriminate. apply Hall.
    apply list_elem_of_In, elem_of_seqZ. lia.
Qed.

(** A witness of X15: 30 trading days are reported as 43 calendar days. *)
Lemma calendar_days_exact_witness : calendar_days 30 = Done 43.
Proof. exact (calendar_days_exact 30 ltac:(lia)). Defined.

(** ** The stored peak lists are in scan order *)

Lemma process_spectrum_length (M : libm) (spectrum out : list float) :
  process_spectrum M spectrum = Done out -> length out = length spectrum.
Proof.
  unfold process_spectrum. intros Hrun.
  destruct (Z.le_gt_cases 3 (vec_size spectrum)) as [Hsize|Hshort].
  - destruct (weekly_median_defined spectrum Hsize) as (filtered & Hf & Hlen).
    rewrite Hf in Hrun. cbn [mbind outcome_bind] in Hrun. cbv zeta in Hrun.
    destruct (normalize_guarded_defined
                (smooth_spectrum M
                   (enhance_peaks (smooth_spectrum M filtered 10) 2) 5))
      as (out' & Hn & Hout).
    + rewrite length_smooth_spectrum, length_enhance_peaks,
        length_smooth_spectrum, Hlen. unfold vec_size in Hsize. lia.
    + rewrite Hn in Hrun. injection Hrun as <-.
      rewrite Hout, length_smooth_spectrum, length_enhance_peaks,
        length_smooth_spectrum. exact Hlen.
  - rewrite weekly_median_short in Hrun by lia. discriminate.
Qed.

Lemma peaks_of_band_sorted (spectrum : list float) (lo hi : Z) :
  vec_size spectrum <= hi - lo + 1 ->
  StronglySorted Z.lt (map fst (peaks_of spectrum (band lo hi))).
Proof.
  intros Hsize. unfold peaks_of. rewrite map_map. cbn [fst].
  apply StronglySorted_map_lt;
    [|apply StronglySorted_filter, StronglySorted_seqZ].
  intros x y Hx Hy Hxy.
  apply list_elem_of_In, filter_In in Hx as [Hx _].
  apply list_elem_of_In, filter_In in Hy as [Hy _].
  apply list_elem_of_In, elem_of_seqZ in Hx, Hy.
  unfold band. rewrite !lookup_total_seqZ_lt by lia. lia.
Qed.

Lemma weekly_window_peaks (M : libm) (prices : list float) (W start_idx : Z)
    (peaks : list peak) :
  weekly_window M prices W start_idx = Done peaks ->
  StronglySorted Z.lt (map fst peaks)
  /\ Forall (fun p => 110 <= fst p <= 790
                      /\ PrimFloat.ltb D.c0_05 (snd p) = true) peaks.
Proof.
  unfold weekly_window.
  destruct (detrend_read_double M prices start_idx W) as [data| |];
    cbn [mbind outcome_bind]; [|discriminate..].
  unfold weekly_analysis.
  set (raw := scan_band M data 100 800).
  assert (Hraw : length raw = 701%nat) by (subst raw; apply length_scan_band).
  destruct (process_spectrum M raw) as [spectrum| |] eqn:Hp;
    cbn [mbind outcome_bind]; [|discriminate..].
  apply process_spectrum_length in Hp. rewrite Hraw in Hp.
  assert (Hsize : vec_size spectrum = 701) by (unfold vec_size; lia).
  intros Hfind. split.
  - rewrite find_peaks_peaks_of in Hfind
      by (unfold vec_size, band in *; rewrite ?length_seqZ; lia).
    injection Hfind as <-. apply peaks_of_band_sorted. lia.
  - pose proof (find_peaks_accepted _ _ _ Hfind) as Hall.
    eapply Forall_impl; [exact Hall|]. cbv beta.
    intros p (i & Hi & Hhi & Hwi & _ & Hpow & _).
    apply lookup_band in Hwi as [Hwi _]. rewrite Z2Nat.id in Hwi by lia.
    split; [lia|exact Hpow].
Qed.

(** X16.  generate_weekly_scanners.cpp sorts [peaks] by power only after
    it has pushed the vector on [all_peaks]: every peak list stored in
    [all_peaks] (the data of the heatmap) is in scan order, by strictly
    increasing period; its periods lie in 110..790 and its powers are above
    0.05. *)
Theorem weekly_peak_lists_in_period_order (M : libm) (prices : list float)
    (W T : Z) :
  exists all_peaks,
    weekly_scanners M prices W T = Done all_peaks
    /\ Forall (fun peaks =>
                 StronglySorted Z.lt (map fst peaks)
                 /\ Forall (fun p => 110 <= fst p <= 790
                                     /\ PrimFloat.ltb D.c0_05 (snd p) = true)
                           peaks)
              all_peaks.
Proof.
  unfold weekly_scanners. cbv zeta.
  set (S := vec_size prices).
  pose proof (weekly_loop_defined M prices W T) as Hdef. fold S in Hdef.
  destruct (ofold_push
              (fun week => S - week * 5 - W <? 0)
              (fun week => weekly_window M prices W (S - week * 5 - W))
              (seqZ 0 (T + 1)) Hdef [])
    as (results & Hrun & HF).
  exists results. split; [exact Hrun|].
  apply (Forall2_Forall_r _ _ _ _ HF). apply Forall_forall.
  intros week _ peaks Hpeaks. cbv beta in Hpeaks.
  exact (weekly_window_peaks M prices W _ peaks Hpeaks).
Qed.

(** ** An exponential trend is removed exactly *)

(** X17.  The detrending block in exact real arithmetic.  When the logarithms
    of the prices of a window of [W > 1] bars lie on a line
    [a + b * i] (the prices follow an exponential trend), the regression
    finds the slope [b] and the intercept [a], and every residual is zero. *)
Theorem detrend_real_removes_exponential_trend (prices : list R)
    (start W : Z) (a b : R) :
  1 < W ->
  (forall i, 0 <= i < W ->
     log_price 0%R ln prices start i = (a + b * IZR i)%R) ->
  regression_line 0%R Rplus Rminus Rmult Rdiv IZR ln prices start W = (b, a)
  /\ detrend_real prices start W = replicate (Z.to_nat W) 0%R.
Proof.
  intros HW Hline.
  assert (Hregr : regression_line 0%R Rplus Rminus Rmult Rdiv IZR ln
                    prices start W = (b, a)).
  { unfold regression_line.
    replace W with (Z.of_nat (Z.to_nat W)) in Hline |- * by lia.
    set (n := Z.to_nat W) in *. assert (Hn : (2 <= n)%nat) by lia.
    rewrite regression_sums_real.
    set (y := log_price 0%R ln prices start) in *.
    assert (Hy : sumZ y n = (INR n * a + b * sumZ IZR n)%R).
    { rewrite (sumZ_ext y (fun k => (a + b * IZR k)%R)) by exact Hline.
      rewrite sumZ_plus, sumZ_const, sumZ_scale. reflexivity. }
    assert (Hxy : sumZ (fun k => (IZR k * y k)%R) n
                  = (a * sumZ IZR n + b * sumZ (fun k => IZR (k * k)) n)%R).
    { rewrite (sumZ_ext _ (fun k => (a * IZR k + b * IZR (k * k))%R)).
      - rewrite sumZ_plus, !sumZ_scale. reflexivity.
      - intros k Hk. rewrite (Hline k Hk), mult_IZR. ring. }
    rewrite Hy, Hxy.
    pose proof (regression_denominator_positive n Hn) as HD.
    assert (HN : (2 <= INR n)%R) by (apply (le_INR 2); exact Hn).
    set (Sx := sumZ IZR n) in *.
    set (Sxx := sumZ (fun k => IZR (k * k)) n) in *.
    rewrite <- INR_IZR_INZ.
    assert (Hb : ((INR n * (a * Sx + b * Sxx) - Sx * (INR n * a + b * Sx))
                  / (INR n * Sxx - Sx * Sx) = b)%R) by (field; lra).
    rewrite Hb. f_equal. field. lra. }
  split; [exact Hregr|].
  unfold detrend_real, detrend.
  rewrite Hregr.
  apply list_eq. intros k.
  change (map ?f ?l) with (f <$> l). rewrite list_lookup_fmap.
  destruct (decide (k < Z.to_nat W)%nat) as [Hk|Hk].
  - rewrite lookup_seqZ_lt by lia. cbn [fmap option_fmap option_map].
    rewrite lookup_replicate_2 by exact Hk. f_equal.
    rewrite Z.add_0_l, Hline by lia. ring.
  - rewrite lookup_seqZ_ge by lia. cbn [fmap option_fmap option_map].
    symmetry. apply lookup_replicate_None. lia.
Qed.

(** A witness of X17: the prices [e^0, e^1, e^2]. *)
Lemma detrend_real_removes_exponential_trend_witness :
  detrend_real [exp 0; exp 1; exp 2]%R 0 3 = [0; 0; 0]%R.
Proof.
  refine (proj2 (detrend_real_removes_exponential_trend
                   [exp 0; exp 1; exp 2]%R 0 3 0%R 1%R ltac:(lia) _)).
  intros i Hi. unfold log_price.
  assert (i = 0 \/ i = 1 \/ i = 2) as [-> | [-> | ->]] by lia.
  - change (ln (exp 0) = 0 + 1 * 0)%R. rewrite ln_exp. ring.
  - change (ln (exp 1) = 0 + 1 * 1)%R. rewrite ln_exp. ring.
  - change (ln (exp 2) = 0 + 1 * 2)%R. rewrite ln_exp. ring.
Defined.

(** ** The zero window through the pipeline *)

Lemma map_seqZ_replicate {A : Type} (f : Z -> A) (c : A) (n : nat) :
  forall a, (forall i, a <= i < a + Z.of_nat n -> f i = c) ->
            map f (seqZ a (Z.of_nat n)) = replicate n c.
Proof.
  induction n as [|n IH]; intros a Hf; [reflexivity|].
  rewrite seqZ_cons by lia. cbn [map replicate]. rewrite Hf by lia. f_equal.
  replace (Z.pred (Z.of_nat (S n))) with (Z.of_nat n) by lia.
  apply IH. intros i Hi. apply Hf. lia.
Qed.

Lemma replicate_lookup_eq {A : Type} (l : list A) (c : A) :
  (forall k x, l !! k = Some x -> x = c) -> l = replicate (length l) c.
Proof.
  intros H. apply list_eq. intros k.
  destruct (l !! k) as [x|] eqn:E.
  - rewrite (H k x E). symmetry. apply lookup_replicate_2.
    apply lookup_lt_Some in E. exact E.
  - symmetry. apply lookup_ge_None_2. rewrite length_replicate.
    apply lookup_ge_None_1 in E. exact E.
Qed.

(** A weighted sum of zeros: the sum stays [0] and the total weight is [0]
    or positive. *)
Lemma weighted_fold_zero {A : Type} (f : float * float -> A -> float * float)
    (l : list A) :
  (forall sw a, a ∈ l ->
     f sw a = sw
     \/ exists w, PrimFloat.is_finite w = true /\ PrimFloat.ltb 0 w = true
                  /\ f sw a = (fst sw + 0 * w, snd sw + w)%float) ->
  forall sw,
    fst sw = 0%float -> (snd sw = 0%float \/ PrimFloat.ltb 0 (snd sw) = true) ->
    fst (fold_left f l sw) = 0%float
    /\ (snd (fold_left f l sw) = 0%float
        \/ PrimFloat.ltb 0 (snd (fold_left f l sw)) = true)
    /\ (PrimFloat.ltb 0 (snd sw) = true ->
        PrimFloat.ltb 0 (snd (fold_left f l sw)) = true).
Proof.
  induction l as [|a l IH]; intros Hf sw Hsum Hweight; [cbn; auto|].
  cbn [fold_left].
  assert (Hl : forall sw a, a ∈ l ->
            f sw a = sw
            \/ exists w, PrimFloat.is_finite w = true /\ PrimFloat.ltb 0 w = true
                         /\ f sw a = (fst sw + 0 * w, snd sw + w)%float)
    by (intros sw' a' Ha'; apply Hf; apply elem_of_cons; auto).
  destruct (Hf sw a ltac:(apply elem_of_cons; auto)) as [->|(w & Hfin & Hpos & ->)].
  - apply IH; assumption.
  - pose proof (FloatPositive.add_positive (snd sw) w Hweight Hpos) as Hnew.
    destruct (IH Hl (fst sw + 0 * w, snd sw + w)%float) as (H1 & H2 & H3).
    + cbn [fst]. rewrite Hsum, FloatPositive.zero_mul_positive by assumption.
      reflexivity.
    + cbn [snd]. right. exact Hnew.
    + split; [exact H1|]. split; [exact H2|]. intros _. apply H3. exact Hnew.
Qed.

(** When one of the terms is added for certain, the quotient is [0]. *)
Lemma weighted_quotient_zero {A : Type} (f : float * float -> A -> float * float)
    (before after : list A) (a : A) :
  (forall sw b, b ∈ before ++ a :: after ->
     f sw b = sw
     \/ exists w, PrimFloat.is_finite w = true /\ PrimFloat.ltb 0 w = true
                  /\ f sw b = (fst sw + 0 * w, snd sw + w)%float) ->
  (forall sw, f sw a <> sw
              \/ exists w, PrimFloat.is_finite w = true /\ PrimFloat.ltb 0 w = true
                  /\ f sw a = (fst sw + 0 * w, snd sw + w)%float) ->
  forall sum weight,
    fold_left f (before ++ a :: after) (0, 0)%float = (sum, weight) ->
    (sum / weight)%float = 0%float.
Proof.
  intros Hf Ha sum weight Hfold. rewrite fold_left_app in Hfold.
  cbn [fold_left] in Hfold.
  destruct (weighted_fold_zero f before) with (sw := (0, 0)%float)
    as (H1 & H2 & _); [|reflexivity|left; reflexivity|].
  { intros sw b Hb. apply Hf. apply elem_of_app. auto. }
  set (sw := fold_left f before (0, 0)%float) in *.
  assert (Hstep : exists w, PrimFloat.is_finite w = true /\ PrimFloat.ltb 0 w = true
                  /\ f sw a = (fst sw + 0 * w, snd sw + w)%float).
  { destruct (Ha sw) as [Hne|Hw]; [|exact Hw].
    destruct (Hf sw a) as [Heq|Hw]; [|contradiction|exact Hw].
    apply elem_of_app. right. apply elem_of_cons. auto. }
  destruct Hstep as (w & Hfin & Hpos & Hstep). rewrite Hstep in Hfold.
  destruct (weighted_fold_zero f after) with (sw := (fst sw + 0 * w, snd sw + w)%float)
    as (H3 & _ & H4).
  { intros sw' b Hb. apply Hf. apply elem_of_app. right. apply elem_of_cons. auto. }
  { cbn [fst]. rewrite H1, FloatPositive.zero_mul_positive by assumption.
    reflexivity. }
  { right. cbn [snd]. apply FloatPositive.add_positive; assumption. }
  rewrite Hfold in H3, H4. cbn [fst snd] in H3, H4. rewrite H3.
  apply FloatPositive.zero_div_positive, H4.
  apply FloatPositive.add_positive; assumption.
Qed.

Section ZeroSpectrum.
Context (M : libm).
Hypothesis Hexp : exp_positive M.

Lemma exp_positive_argument (x : float) :
  In x smoothing_arguments ->
  PrimFloat.is_finite (m_exp M x) = true /\ PrimFloat.ltb 0 (m_exp M x) = true.
Proof.
  intros Hx. unfold exp_positive in Hexp. rewrite Forall_forall in Hexp.
  apply Hexp, list_elem_of_In, Hx.
Qed.

Lemma exp_positive_gaussian (window j : Z) :
  window = 10 \/ window = 5 -> - window <= j <= window ->
  PrimFloat.is_finite (m_exp M (gaussian_argument window j)) = true
  /\ PrimFloat.ltb 0 (m_exp M (gaussian_argument window j)) = true.
Proof.
  intros Hw Hj. apply exp_positive_argument. unfold smoothing_arguments.
  destruct Hw as [-> | ->].
  - apply in_or_app. left. apply in_map, list_elem_of_In, elem_of_seqZ. lia.
  - apply in_or_app. right. apply in_or_app. left.
    apply in_map, list_elem_of_In, elem_of_seqZ. lia.
Qed.

Lemma exp_positive_adaptive (j : Z) :
  -5 <= j <= 5 ->
  PrimFloat.is_finite (m_exp M (adaptive_argument j)) = true
  /\ PrimFloat.ltb 0 (m_exp M (adaptive_argument j)) = true.
Proof.
  intros Hj. apply exp_positive_argument. unfold smoothing_arguments.
  apply in_or_app. right. apply in_or_app. right.
  apply in_map, list_elem_of_In, elem_of_seqZ. lia.
Qed.

(** The Gaussian smoothing keeps a zero spectrum at zero. *)
Lemma smooth_spectrum_zeros (n : nat) (window : Z) :
  window = 10 \/ window = 5 ->
  smooth_spectrum M (replicate n 0%float) window = replicate n 0%float.
Proof.
  intros Hw. unfold smooth_spectrum. cbv zeta.
  assert (Hsize : vec_size (replicate n 0%float) = Z.of_nat n)
    by (unfold vec_size; rewrite length_replicate; reflexivity).
  rewrite Hsize. apply map_seqZ_replicate. intros i Hi.
  assert (Hsplit : seqZ (- window) (window + window + 1)
                   = seqZ (- window) window ++ 0 :: seqZ 1 window)
    by (destruct Hw as [-> | ->]; reflexivity).
  rewrite Hsplit.
  match goal with |- (let '(sum, weight) := fold_left ?f _ _ in _) = _ =>
    destruct (fold_left f (seqZ (- window) window ++ 0 :: seqZ 1 window)
                        (0, 0)%float) as [sum weight] eqn:Hfold;
    apply (weighted_quotient_zero f _ _ _) with (sum := sum) (weight := weight)
      in Hfold; [exact Hfold| |]
  end.
  - intros [s w] j Hj. rewrite <- Hsplit in Hj. apply elem_of_seqZ in Hj.
    destruct ((0 <=? i + j) && (i + j <? Z.of_nat n)); [right|left; reflexivity].
    exists (m_exp M (gaussian_argument window j)).
    destruct (exp_positive_gaussian window j Hw ltac:(lia)) as [Hfin Hpos].
    split; [exact Hfin|]. split; [exact Hpos|].
    rewrite lookup_total_replicate_zero. reflexivity.
  - intros [s w]. right.
    destruct (Z.leb_spec 0 (i + 0)); [|lia].
    destruct (Z.ltb_spec (i + 0) (Z.of_nat n)); [|lia]. cbn [andb].
    exists (m_exp M (gaussian_argument window 0)).
    destruct (exp_positive_gaussian window 0 Hw ltac:(lia)) as [Hfin Hpos].
    split; [exact Hfin|]. split; [exact Hpos|].
    rewrite lookup_total_replicate_zero. reflexivity.
Qed.

Lemma gaussian_average_zeros (n : nat) (i : Z) :
  gaussian_average M (replicate n 0%float) i = 0%float.
Proof.
  unfold gaussian_average.
  change (seqZ (-5) 11) with (seqZ (-5) 5 ++ 0 :: seqZ 1 5).
  match goal with |- (let '(sum, weight) := fold_left ?f _ _ in _) = _ =>
    destruct (fold_left f (seqZ (-5) 5 ++ 0 :: seqZ 1 5) (0, 0)%float)
      as [sum weight] eqn:Hfold;
    apply (weighted_quotient_zero f _ _ _) with (sum := sum) (weight := weight)
      in Hfold; [exact Hfold| |]
  end.
  - intros [s w] j Hj.
    change (seqZ (-5) 5 ++ 0 :: seqZ 1 5) with (seqZ (-5) 11) in Hj.
    apply elem_of_seqZ in Hj. right.
    exists (m_exp M (adaptive_argument j)).
    destruct (exp_positive_adaptive j ltac:(lia)) as [Hfin Hpos].
    split; [exact Hfin|]. split; [exact Hpos|].
    rewrite lookup_total_replicate_zero. reflexivity.
  - intros [s w]. right.
    exists (m_exp M (adaptive_argument 0)).
    destruct (exp_positive_adaptive 0 ltac:(lia)) as [Hfin Hpos].
    split; [exact Hfin|]. split; [exact Hpos|].
    rewrite lookup_total_replicate_zero. reflexivity.
Qed.

Lemma adaptive_pass_zeros (n : nat) :
  (5 <= n)%nat ->
  adaptive_pass M (replicate n 0%float) = Done (replicate n 0%float).
Proof.
  intros Hn. unfold adaptive_pass.
  assert (Hsize : vec_size (replicate n 0%float) = Z.of_nat n)
    by (unfold vec_size; rewrite length_replicate; reflexivity).
  rewrite size_sub_le by lia.
  destruct (adaptive_loop_spec M (replicate n 0%float)
              (vec_size (replicate n 0%float) - 5)
              (S (length (replicate n 0%float))) ltac:(lia) 5 (replicate n 0%float))
    as (out & Hrun & Hlen & Hout);
    [lia|reflexivity|lia|unfold vec_size; lia|].
  rewrite Hrun. f_equal. rewrite length_replicate in Hlen. rewrite <- Hlen.
  apply replicate_lookup_eq. intros k x Hk.
  assert (Hlt : (k < n)%nat) by (apply lookup_lt_Some in Hk; lia).
  rewrite (Hout k 0%float) in Hk by (apply lookup_replicate_2; exact Hlt).
  injection Hk as <-. unfold adaptive_entry.
  rewrite gaussian_average_zeros. destruct (_ && _); reflexivity.
Qed.

Lemma adaptive_smoothing_zeros (n : nat) :
  (5 <= n)%nat ->
  adaptive_smoothing M (replicate n 0%float) = Done (replicate n 0%float).
Proof.
  intros Hn. unfold adaptive_smoothing. rewrite adaptive_pass_zeros by exact Hn.
  cbn [mbind outcome_bind]. apply adaptive_pass_zeros. exact Hn.
Qed.

End ZeroSpectrum.

(** The median of zeros is zero. *)
Lemma upper_median_zeros (values : list float) :
  Forall (fun x => x = 0%float) values -> upper_median values = 0%float.
Proof.
  intros Hall. unfold upper_median. cbv zeta.
  rewrite <- (sort_doubles_perm values) in Hall. rewrite Forall_lookup in Hall.
  rewrite list_lookup_total_alt.
  destruct (sort_doubles values !! _) as [x|] eqn:E; [|reflexivity].
  exact (Hall _ _ E).
Qed.

Lemma inbounds_window_zeros (n : nat) (i window : Z) :
  Forall (fun x => x = 0%float) (inbounds_window (replicate n 0%float) i window).
Proof.
  apply Forall_forall. intros x Hx. apply elem_of_slice in Hx as (j & _ & Hj).
  apply lookup_replicate in Hj as [-> _]. reflexivity.
Qed.

Lemma median_filter_zeros (n : nat) (window : Z) :
  0 <= window ->
  median_filter (replicate n 0%float) window = replicate n 0%float.
Proof.
  intros Hw.
  pose proof (length_median_filter (replicate n 0%float) window) as Hlen.
  rewrite length_replicate in Hlen. rewrite <- Hlen at 2.
  apply replicate_lookup_eq. intros k x Hk.
  assert (Hlt : (k < n)%nat) by (apply lookup_lt_Some in Hk; lia).
  rewrite median_filter_lookup in Hk by (rewrite ?length_replicate; lia).
  injection Hk as <-. apply upper_median_zeros, inbounds_window_zeros.
Qed.

Lemma weekly_median_zeros (n : nat) :
  (3 <= n)%nat ->
  weekly_median (replicate n 0%float) = Done (replicate n 0%float).
Proof.
  intros Hn. unfold weekly_median. cbv zeta.
  assert (Hsize : vec_size (replicate n 0%float) = Z.of_nat n)
    by (unfold vec_size; rewrite length_replicate; reflexivity).
  rewrite size_sub_le by lia.
  destruct (weekly_median_loop_spec (replicate n 0%float)
              (vec_size (replicate n 0%float) - 3)
              (S (length (replicate n 0%float))) ltac:(lia) 3 (replicate n 0%float))
    as (out & Hrun & Hlen & Hout);
    [lia|reflexivity|lia|unfold vec_size; lia|].
  rewrite Hrun. f_equal. rewrite length_replicate in Hlen. rewrite <- Hlen.
  apply replicate_lookup_eq. intros k x Hk.
  assert (Hlt : (k < n)%nat) by (apply lookup_lt_Some in Hk; lia).
  rewrite (Hout k 0%float) in Hk by (apply lookup_replicate_2; exact Hlt).
  injection Hk as <-. unfold weekly_entry.
  rewrite upper_median_zeros by apply inbounds_window_zeros.
  destruct (_ && _); reflexivity.
Qed.

Lemma fold_left_add_zeros (n : nat) :
  fold_left PrimFloat.add (replicate n 0%float) 0%float = 0%float.
Proof. induction n as [|n IH]; [reflexivity|exact IH]. Qed.

Lemma enhance_peaks_zeros (n : nat) (factor : float) :
  Z.of_nat n < 2 ^ 31 ->
  enhance_peaks (replicate n 0%float) factor = replicate n 0%float.
Proof.
  intros Hn. destruct n as [|n]; [reflexivity|].
  unfold enhance_peaks. cbv zeta. rewrite fold_left_add_zeros.
  assert (Hsize : vec_size (replicate (S n) 0%float) = Z.of_nat (S n))
    by (unfold vec_size; rewrite length_replicate; reflexivity).
  rewrite Hsize.
  rewrite FloatPositive.zero_div_positive
    by (apply FloatPositive.of_int_positive; lia).
  rewrite <- (map_id (replicate (S n) 0%float)) at 2.
  apply map_ext_in. intros s Hs. apply list_elem_of_In, elem_of_replicate in Hs as [-> _].
  reflexivity.
Qed.

Lemma max_element_zeros (n : nat) :
  max_element (replicate (S n) 0%float) = Done 0%float.
Proof.
  cbn [replicate max_element]. f_equal.
  induction n as [|n IH]; [reflexivity|exact IH].
Qed.

Lemma normalize_guarded_zeros (n : nat) :
  (0 < n)%nat ->
  normalize_guarded (replicate n 0%float) = Done (replicate n 0%float).
Proof.
  intros Hn. destruct n as [|n]; [lia|].
  apply (normalize_guarded_nonpositive _ 0%float); [apply max_element_zeros|reflexivity].
Qed.

Lemma normalize_scanner_clean_zeros (n : nat) :
  (0 < n)%nat ->
  normalize_scanner_clean (replicate n 0%float) = Done (replicate n nan).
Proof.
  intros Hn. destruct n as [|n]; [lia|].
  rewrite (normalize_scanner_clean_divides _ 0%float) by apply max_element_zeros.
  f_equal. generalize (S n). intros m.
  induction m as [|m IH]; [reflexivity|]. cbn [replicate map]. rewrite IH.
  reflexivity.
Qed.

(** The scan accepts no entry of a spectrum that nowhere exceeds 0.05. *)
Lemma find_peaks_loop_none (spectrum : list float) (wavelengths : list Z)
    (bound : Z) (fuel : nat) :
  Forall (fun s => D.gtb s D.c0_05 = false) spectrum ->
  bound + 10 <= vec_size spectrum ->
  forall (i : Z) (peaks : list peak),
    10 <= i -> (0 < fuel)%nat -> bound - i < Z.of_nat fuel ->
    find_peaks_loop spectrum wavelengths bound fuel i peaks = Done peaks.
Proof.
  intros Hlow Hbound. induction fuel as [|fuel IH]; intros i peaks Hi Hpos Hf.
  - lia.
  - cbn [find_peaks_loop]. destruct (Z.ltb_spec i bound) as [Hlt|Hge]; [|reflexivity].
    destruct (is_peak_loop_in_range spectrum i (seqZ (-10) 21)) as [b ->]; [lia| |].
    { intros j Hj. apply elem_of_seqZ in Hj. lia. }
    cbn [mbind outcome_bind].
    destruct (vec_get_in_range spectrum i ltac:(lia)) as [si Hsi].
    destruct b; cbn [mbind outcome_bind]; [|apply IH; lia].
    rewrite Hsi. cbn [mbind outcome_bind].
    apply vec_get_Done in Hsi as [_ Hsi]. rewrite Forall_lookup in Hlow.
    rewrite (Hlow _ _ Hsi). cbn [mbind outcome_bind]. apply IH; lia.
Qed.

Lemma find_peaks_none (spectrum : list float) (wavelengths : list Z) :
  Forall (fun s => D.gtb s D.c0_05 = false) spectrum ->
  10 <= vec_size spectrum ->
  find_peaks spectrum wavelengths = Done [].
Proof.
  intros Hlow Hsize. unfold find_peaks. rewrite size_sub_le by lia.
  apply find_peaks_loop_none; [exact Hlow|lia|lia|lia|unfold vec_size; lia].
Qed.

Lemma Forall_replicate_intro {A : Type} (P : A -> Prop) (n : nat) (x : A) :
  P x -> Forall P (replicate n x).
Proof. intros Hx. apply Forall_forall. intros y Hy. apply elem_of_replicate in Hy as [-> _]. exact Hx. Qed.


(** The raw spectrum of a zero window is zero on every band of periods. *)
Lemma scan_band_zeros (M : libm) (n : nat) (lo hi : Z) :
  (forall z, zero_complex z = true -> m_cabs M z = 0%float) ->
  finite_kernels M (Z.of_nat n) -> Z.of_nat n < 2 ^ 31 -> 1 <= lo ->
  scan_band M (replicate n 0%float) lo hi
  = replicate (Z.to_nat (hi - lo + 1)) 0%float.
Proof.
  intros Hcabs Hfin Hn Hlo. unfold scan_band.
  destruct (Z.le_gt_cases (hi - lo + 1) 0) as [Hempty|Hlen].
  { rewrite seqZ_nil by lia. replace (Z.to_nat (hi - lo + 1)) with 0%nat by lia.
    reflexivity. }
  rewrite <- (Z2Nat.id (hi - lo + 1)) at 1 by lia.
  apply map_seqZ_replicate. intros P HP.
  assert (Hsize : vec_size (replicate n 0%float) = Z.of_nat n)
    by (unfold vec_size; rewrite length_replicate; reflexivity).
  destruct (Z.le_gt_cases P (Z.of_nat n ÷ 2)) as [Hle|Hgt].
  - apply (compute_power_zero_window M Hcabs n P); [lia|exact Hn|].
    apply Hfin. lia.
  - unfold compute_power. rewrite Hsize.
    destruct (Z.gtb_spec P (Z.of_nat n ÷ 2)); [reflexivity|lia].
Qed.

Lemma process_spectrum_zeros (M : libm) (n : nat) :
  exp_positive M -> (3 <= n)%nat -> Z.of_nat n < 2 ^ 31 ->
  process_spectrum M (replicate n 0%float) = Done (replicate n 0%float).
Proof.
  intros Hexp H3 Hn. unfold process_spectrum.
  rewrite weekly_median_zeros by exact H3. cbn [mbind outcome_bind]. cbv zeta.
  rewrite (smooth_spectrum_zeros M Hexp) by auto.
  rewrite enhance_peaks_zeros by exact Hn.
  rewrite (smooth_spectrum_zeros M Hexp) by auto.
  apply normalize_guarded_zeros. lia.
Qed.

Lemma heatmap_process_zeros (M : libm) (n : nat) :
  exp_positive M -> (5 <= n)%nat -> Z.of_nat n < 2 ^ 31 ->
  heatmap_process M (replicate n 0%float) = Done (replicate n 0%float).
Proof.
  intros Hexp H5 Hn. unfold heatmap_process. cbv zeta.
  rewrite median_filter_zeros by lia.
  rewrite (smooth_spectrum_zeros M Hexp) by auto.
  rewrite enhance_peaks_zeros by exact Hn.
  rewrite (smooth_spectrum_zeros M Hexp) by auto.
  rewrite (adaptive_smoothing_zeros M Hexp) by exact H5.
  cbn [mbind outcome_bind]. apply normalize_guarded_zeros. lia.
Qed.

Lemma scanner_clean_process_zeros (M : libm) (n : nat) :
  exp_positive M -> (5 <= n)%nat -> Z.of_nat n < 2 ^ 31 ->
  scanner_clean_process M (replicate n 0%float) = Done (replicate n nan).
Proof.
  intros Hexp H5 Hn. unfold scanner_clean_process. cbv zeta.
  rewrite median_filter_zeros by lia.
  rewrite (smooth_spectrum_zeros M Hexp) by auto.
  rewrite enhance_peaks_zeros by exact Hn.
  rewrite (smooth_spectrum_zeros M Hexp) by auto.
  rewrite (adaptive_smoothing_zeros M Hexp) by exact H5.
  cbn [mbind outcome_bind]. apply normalize_scanner_clean_zeros. lia.
Qed.

(** The stand-in library satisfies the hypotheses on [exp] and on the
    kernels of a window of 64 samples. *)
Lemma libm_sample_exp_positive : exp_positive libm_sample.
Proof.
  apply Forall_forall. intros x Hx.
  assert (Hall : forallb (fun x => PrimFloat.is_finite (m_exp libm_sample x)
                                   && PrimFloat.ltb 0 (m_exp libm_sample x))
                         smoothing_arguments = true) by (vm_compute; reflexivity).
  rewrite forallb_forall in Hall.
  apply list_elem_of_In, Hall, andb_true_iff in Hx. exact Hx.
Qed.

Lemma libm_sample_finite_kernels : finite_kernels libm_sample 64.
Proof.
  intros P HP. apply Forall_forall. intros w Hw.
  assert (Hall : forallb
                   (fun P => forallb finite_complex
                               (create_high_q_morlet libm_sample (1 / D.of_int P)%float
                                  (Z.min 64 (P * clamp (64 ÷ P) 4 8))))
                   (seqZ 1 32) = true) by (vm_compute; reflexivity).
  rewrite forallb_forall in Hall.
  specialize (Hall P ltac:(apply list_elem_of_In, elem_of_seqZ;
                           change (64 ÷ 2) with 32 in HP; lia)).
  rewrite forallb_forall in Hall. apply Hall, list_elem_of_In, Hw.
Qed.

Lemma bind_Done_l {A B : Type} (a : A) (k : A -> outcome B) :
  (Done a ≫= k) = k a.
Proof. reflexivity. Qed.

(** The two rolling programs on a raw spectrum of zeros. *)
Lemma weekly_analysis_zero_band (M : libm) (data : list float) :
  exp_positive M ->
  scan_band M data 100 800 = replicate 701 0%float ->
  process_spectrum M (scan_band M data 100 800) = Done (replicate 701 0%float)
  /\ weekly_analysis M data = Done []
  /\ heatmap_process M (scan_band M data 100 800) = Done (replicate 701 0%float).
Proof.
  intros Hexp Hband. unfold weekly_analysis. rewrite Hband.
  rewrite process_spectrum_zeros by (exact Hexp || lia).
  split; [reflexivity|]. split.
  - rewrite bind_Done_l.
    apply find_peaks_none; [|unfold vec_size; rewrite length_replicate; lia].
    apply Forall_replicate_intro. reflexivity.
  - apply heatmap_process_zeros; [exact Hexp|lia|lia].
Qed.

(** scanner_clean.cpp on a raw spectrum of zeros. *)
Lemma scanner_clean_analysis_zero_band (M : libm) (data : list float) :
  exp_positive M ->
  scan_band M data 30 1000 = replicate 971 0%float ->
  scanner_clean_process M (scan_band M data 30 1000) = Done (replicate 971 nan)
  /\ scanner_clean_analysis M data = Done (replicate 971 nan, []).
Proof.
  intros Hexp Hband. unfold scanner_clean_analysis. rewrite Hband.
  rewrite scanner_clean_process_zeros by (exact Hexp || lia).
  split; [reflexivity|]. rewrite bind_Done_l.
  rewrite find_peaks_none;
    [rewrite bind_Done_l; reflexivity| |unfold vec_size; rewrite length_replicate; lia].
  apply Forall_replicate_intro. reflexivity.
Qed.



